(** * hold-sync-core: metadata codec, overlap detector and reconcile planner

    A shallow embedding of [packages/hold-sync-core] (metadata.ts, overlap.ts,
    types.ts, reconcile.ts) and the properties its specification states.

    Conventions of the embedding.
    - A JavaScript string is represented by the bytes of its UTF-8 encoding,
      as a [string].  [Buffer.from(s, "utf8")] and [buf.toString("utf8")] are
      then the identity on the representation; bytes that are no UTF-8,
      which [toString] would replace by U+FFFD, are left as they are.
    - An optional property ([summary?: string]) is an [option]; [undefined]
      is [None].
    - A function that can [throw] returns a [Result].
    - The two host functions whose result depends on the JavaScript engine
      and its locale data, [String.prototype.localeCompare] and [Date.parse],
      are the fields of the class [Host]. *)

From Stdlib Require Import ZArith NArith Lia List Ascii String Bool.
From stdpp Require Import base option list gmap strings sorting.

Local Open Scope Z_scope.

(** ** Strings: the string primitives used by metadata.ts *)

Module Str.

Definition isEmpty (s : string) : bool :=
  match s with EmptyString => true | String _ _ => false end.

(** [hay.indexOf(needle)], [-1] when [needle] does not occur. *)
Fixpoint indexOfFrom (needle hay : string) (i : Z) : Z :=
  if String.prefix needle hay then i
  else match hay with
       | EmptyString => -1
       | String _ hay' => indexOfFrom needle hay' (i + 1)
       end.

Definition indexOf (hay needle : string) : Z := indexOfFrom needle hay 0.

Fixpoint drop (n : nat) (s : string) : string :=
  match n, s with
  | O, _ => s
  | S n', String _ s' => drop n' s'
  | S _, EmptyString => EmptyString
  end.

(** [s.slice(start)]: a negative [start] counts from the end. *)
Definition slice (s : string) (start : Z) : string :=
  if start <? 0
  then drop (Z.to_nat (Z.max 0 (Z.of_nat (String.length s) + start))) s
  else drop (Z.to_nat start) s.

(** White space removed by [trim]: the ASCII members of the ECMAScript
    WhiteSpace and LineTerminator classes (TAB, LF, VT, FF, CR, SP). *)
Definition isSpace (c : ascii) : bool :=
  let n := N_of_ascii c in
  ((9 <=? n) && (n <=? 13))%N || (n =? 32)%N.

Fixpoint trimStart (s : string) : string :=
  match s with
  | String c s' => if isSpace c then trimStart s' else s
  | EmptyString => EmptyString
  end.

Fixpoint trimEnd (s : string) : string :=
  match s with
  | EmptyString => EmptyString
  | String c s' =>
      let t := trimEnd s' in
      if isSpace c && isEmpty t then EmptyString else String c t
  end.

Definition trim (s : string) : string := trimEnd (trimStart s).

(** Comparison of [Array.prototype.sort()] without comparator
    (code units in the source, bytes here). *)
Definition codeUnitCompare (a b : string) : Z :=
  match String.compare a b with Lt => -1 | Eq => 0 | Gt => 1 end.

End Str.

(** ** Buffer: base64url as [node:buffer] encodes and decodes it *)

Module Base64url.

Definition alphabet : string :=
  "ABCDEFGHIJKLMNOPQRSTUVWXYZabcdefghijklmnopqrstuvwxyz0123456789-_".

(** The character of a sextet; a sextet is kept in the six low bits of
    an [ascii]. *)
Definition digit (sextet : ascii) : ascii :=
  match String.get (N.to_nat (N_of_ascii sextet)) alphabet with
  | Some c => c
  | None => "="%char
  end.

(** The sextet of a character.  The decoder of [Buffer.from] accepts the
    URL-safe alphabet and the standard one ([+] and [/]). *)
Definition unbase64 (c : ascii) : option ascii :=
  let n := N_of_ascii c in
  (if (65 <=? n) && (n <=? 90) then Some (ascii_of_N (n - 65))
   else if (97 <=? n) && (n <=? 122) then Some (ascii_of_N (n - 71))
   else if (48 <=? n) && (n <=? 57) then Some (ascii_of_N (n + 4))
   else if (n =? 43) || (n =? 45) then Some (ascii_of_N 62)
   else if (n =? 47) || (n =? 95) then Some (ascii_of_N 63)
   else None)%N.

(** Three bytes are four sextets; one or two trailing bytes are two or
    three sextets, the missing bits being zero.  No padding is written. *)
Fixpoint sextets (bytes : list ascii) : list ascii :=
  match bytes with
  | [] => []
  | [Ascii x0 x1 x2 x3 x4 x5 x6 x7] =>
      [Ascii x2 x3 x4 x5 x6 x7 false false;
       Ascii false false false false x0 x1 false false]
  | [Ascii x0 x1 x2 x3 x4 x5 x6 x7; Ascii y0 y1 y2 y3 y4 y5 y6 y7] =>
      [Ascii x2 x3 x4 x5 x6 x7 false false;
       Ascii y4 y5 y6 y7 x0 x1 false false;
       Ascii false false y0 y1 y2 y3 false false]
  | Ascii x0 x1 x2 x3 x4 x5 x6 x7 :: Ascii y0 y1 y2 y3 y4 y5 y6 y7
      :: Ascii z0 z1 z2 z3 z4 z5 z6 z7 :: rest =>
      Ascii x2 x3 x4 x5 x6 x7 false false
      :: Ascii y4 y5 y6 y7 x0 x1 false false
      :: Ascii z6 z7 y0 y1 y2 y3 false false
      :: Ascii z0 z1 z2 z3 z4 z5 false false
      :: sextets rest
  end.

(** [buf.toString("base64url")] *)
Definition encode (bytes : string) : string :=
  string_of_list_ascii (map digit (sextets (list_ascii_of_string bytes))).

(** The decoder never fails: a character outside the alphabets is
    skipped, and [=] ends the input. *)
Fixpoint legal (s : list ascii) : list ascii :=
  match s with
  | [] => []
  | c :: s' =>
      match unbase64 c with
      | Some v => v :: legal s'
      | None => if Ascii.eqb c "="%char then [] else legal s'
      end
  end.

Fixpoint bytes (vs : list ascii) : list ascii :=
  match vs with
  | Ascii a0 a1 a2 a3 a4 a5 _ _ :: Ascii b0 b1 b2 b3 b4 b5 _ _
      :: Ascii c0 c1 c2 c3 c4 c5 _ _ :: Ascii d0 d1 d2 d3 d4 d5 _ _ :: rest =>
      Ascii b4 b5 a0 a1 a2 a3 a4 a5
      :: Ascii c2 c3 c4 c5 b0 b1 b2 b3
      :: Ascii d0 d1 d2 d3 d4 d5 c0 c1
      :: bytes rest
  | [Ascii a0 a1 a2 a3 a4 a5 _ _; Ascii b0 b1 b2 b3 b4 b5 _ _;
     Ascii c0 c1 c2 c3 c4 c5 _ _] =>
      [Ascii b4 b5 a0 a1 a2 a3 a4 a5; Ascii c2 c3 c4 c5 b0 b1 b2 b3]
  | [Ascii a0 a1 a2 a3 a4 a5 _ _; Ascii b0 b1 b2 b3 b4 b5 _ _] =>
      [Ascii b4 b5 a0 a1 a2 a3 a4 a5]
  | _ => []
  end.

(** [Buffer.from(text, "base64url")] *)
Definition decode (text : string) : string :=
  string_of_list_ascii (bytes (legal (list_ascii_of_string text))).

End Base64url.

(** ** JSON: [JSON.stringify] and [JSON.parse] *)

Module Json.

#[local] Set Warnings "-register-all".

Inductive value :=
| Null
| Bool (b : bool)
| Number (lexeme : string)
| Str (s : string)
| Array (elements : list value)
| Object (members : list (string * value)).

Definition dquote : ascii := "034"%char.
Definition backslash : ascii := "092"%char.

Definition hexDigit (n : N) : ascii :=
  match String.get (N.to_nat n) "0123456789abcdef" with
  | Some c => c
  | None => "0"%char
  end.

(** QuoteJSONString: the two-character escapes, [\u00xx] for the other
    control characters, every other character as it is. *)
Definition escape (c : ascii) : string :=
  match N_of_ascii c with
  | 8%N => "\b"
  | 9%N => "\t"
  | 10%N => "\n"
  | 12%N => "\f"
  | 13%N => "\r"
  | 34%N => String backslash (String dquote "")
  | 92%N => String backslash (String backslash "")
  | n =>
      if (n <? 32)%N
      then "\u00" +:+ String (hexDigit (n / 16)) (String (hexDigit (n mod 16)) "")
      else String c ""
  end.

Fixpoint escapeAll (s : string) : string :=
  match s with
  | EmptyString => ""
  | String c s' => escape c +:+ escapeAll s'
  end.

Definition quote (s : string) : string :=
  String dquote (escapeAll s +:+ String dquote "").

Fixpoint join (parts : list string) : string :=
  match parts with
  | [] => ""
  | [p] => p
  | p :: rest => p +:+ "," +:+ join rest
  end.

(** [JSON.stringify(v)] without indentation. *)
Fixpoint stringify (v : value) : string :=
  match v with
  | Null => "null"
  | Bool true => "true"
  | Bool false => "false"
  | Number lexeme => lexeme
  | Str s => quote s
  | Array elements => "[" +:+ join (map stringify elements) +:+ "]"
  | Object members =>
      "{" +:+ join (map (fun kv => quote (fst kv) +:+ ":" +:+ stringify (snd kv)) members)
      +:+ "}"
  end.

(** *** The parser *)

Definition isWs (c : ascii) : bool :=
  let n := N_of_ascii c in
  ((n =? 32) || (n =? 9) || (n =? 10) || (n =? 13))%N.

Fixpoint skipWs (s : string) : string :=
  match s with
  | String c s' => if isWs c then skipWs s' else s
  | EmptyString => EmptyString
  end.

Definition hexValue (c : ascii) : option N :=
  let n := N_of_ascii c in
  (if (48 <=? n) && (n <=? 57) then Some (n - 48)
   else if (65 <=? n) && (n <=? 70) then Some (n - 55)
   else if (97 <=? n) && (n <=? 102) then Some (n - 87)
   else None)%N.

Definition hex4 (a b c d : ascii) : option N :=
  match hexValue a, hexValue b, hexValue c, hexValue d with
  | Some x, Some y, Some z, Some w => Some (((x * 16 + y) * 16 + z) * 16 + w)%N
  | _, _, _, _ => None
  end.

(** The bytes of a code point.  An unpaired surrogate, which a JavaScript
    string can hold, is written in the three-byte form. *)
Definition utf8 (n : N) : string :=
  (if n <? 128 then String (ascii_of_N n) ""
   else if n <? 2048 then
     String (ascii_of_N (192 + n / 64)) (String (ascii_of_N (128 + n mod 64)) "")
   else if n <? 65536 then
     String (ascii_of_N (224 + n / 4096))
       (String (ascii_of_N (128 + (n / 64) mod 64))
          (String (ascii_of_N (128 + n mod 64)) ""))
   else
     String (ascii_of_N (240 + n / 262144))
       (String (ascii_of_N (128 + (n / 4096) mod 64))
          (String (ascii_of_N (128 + (n / 64) mod 64))
             (String (ascii_of_N (128 + n mod 64)) ""))))%N.

Definition isHigh (u : N) : bool := ((55296 <=? u) && (u <=? 56319))%N.
Definition isLow (u : N) : bool := ((56320 <=? u) && (u <=? 57343))%N.
Definition pair (hi lo : N) : N := (65536 + (hi - 55296) * 1024 + (lo - 56320))%N.

Definition prepend (p : string) (r : option (string * string)) : option (string * string) :=
  match r with
  | Some (str, rest) => Some (p +:+ str, rest)
  | None => None
  end.

(** The characters of a string literal after its opening quote: the
    string denoted and the text after the closing quote. *)
Fixpoint stringBody (s : string) : option (string * string) :=
  match s with
  | EmptyString => None
  | String c s1 =>
      match N_of_ascii c with
      | 34%N => Some ("", s1)
      | 92%N =>
          match s1 with
          | EmptyString => None
          | String e s2 =>
              match N_of_ascii e with
              | 34%N | 92%N | 47%N => prepend (String e "") (stringBody s2)
              | 98%N => prepend (String "008"%char "") (stringBody s2)
              | 102%N => prepend (String "012"%char "") (stringBody s2)
              | 110%N => prepend (String "010"%char "") (stringBody s2)
              | 114%N => prepend (String "013"%char "") (stringBody s2)
              | 116%N => prepend (String "009"%char "") (stringBody s2)
              | 117%N =>
                  match s2 with
                  | String h1 (String h2 (String h3 (String h4 s6))) =>
                      match hex4 h1 h2 h3 h4 with
                      | None => None
                      | Some u =>
                          if isHigh u then
                            match s6 with
                            | String b (String v (String l1 (String l2 (String l3 (String l4 s12))))) =>
                                match
                                  (if Ascii.eqb b backslash && Ascii.eqb v "u"%char
                                   then hex4 l1 l2 l3 l4 else None)
                                with
                                | Some lo =>
                                    if isLow lo
                                    then prepend (utf8 (pair u lo)) (stringBody s12)
                                    else prepend (utf8 u) (stringBody s6)
                                | None => prepend (utf8 u) (stringBody s6)
                                end
                            | _ => prepend (utf8 u) (stringBody s6)
                            end
                          else prepend (utf8 u) (stringBody s6)
                      end
                  | _ => None
                  end
              | _ => None
              end
          end
      | n => if (n <? 32)%N then None else prepend (String c "") (stringBody s1)
      end
  end.

Definition isDigit (c : ascii) : bool :=
  let n := N_of_ascii c in ((48 <=? n) && (n <=? 57))%N.

Fixpoint digits (s : string) : string * string :=
  match s with
  | String c s' =>
      if isDigit c then let '(ds, rest) := digits s' in (String c ds, rest)
      else ("", s)
  | EmptyString => ("", "")
  end.

(** A number of the JSON grammar (optional minus, an integer part without
    leading zero, optional fraction, optional exponent): its lexeme and the
    text after it. *)
Definition number (s : string) : option (string * string) :=
  let '(sign, s1) :=
    match s with
    | String "-"%char s' => ("-", s')
    | _ => ("", s)
    end in
  let '(int, s2) :=
    match s1 with
    | String "0"%char s' => ("0", s')
    | _ => digits s1
    end in
  if Str.isEmpty int then None else
  match
    match s2 with
    | String "."%char s' =>
        let '(ds, rest) := digits s' in
        if Str.isEmpty ds then None else Some ("." +:+ ds, rest)
    | _ => Some ("", s2)
    end
  with
  | None => None
  | Some (frac, s3) =>
      match s3 with
      | String x s' =>
          if Ascii.eqb x "e"%char || Ascii.eqb x "E"%char then
            let '(esign, s4) :=
              match s' with
              | String "+"%char t => ("+", t)
              | String "-"%char t => ("-", t)
              | _ => ("", s')
              end in
            let '(ds, rest) := digits s4 in
            if Str.isEmpty ds then None
            else Some (sign +:+ int +:+ frac +:+ String x esign +:+ ds, rest)
          else Some (sign +:+ int +:+ frac, s3)
      | EmptyString => Some (sign +:+ int +:+ frac, s3)
      end
  end.

Definition literal (word : string) (v : value) (s : string) : option (value * string) :=
  if String.prefix word s then Some (v, Str.drop (String.length word) s) else None.

(** Recursive descent.  [fuel] bounds the depth of the calls; a call that
    goes deeper has consumed a character, and [parse] starts with one more
    than the length of the text. *)
Fixpoint parseValue (fuel : nat) (s : string) : option (value * string) :=
  match fuel with
  | O => None
  | S fuel' =>
      match skipWs s with
      | EmptyString => None
      | String c rest as text =>
          match N_of_ascii c with
          | 110%N => literal "null" Null text
          | 116%N => literal "true" (Bool true) text
          | 102%N => literal "false" (Bool false) text
          | 34%N =>
              match stringBody rest with
              | Some (str, rest') => Some (Str str, rest')
              | None => None
              end
          | 91%N =>
              match skipWs rest with
              | String "]"%char rest' => Some (Array [], rest')
              | _ =>
                  match parseElements fuel' rest with
                  | Some (vs, rest') => Some (Array vs, rest')
                  | None => None
                  end
              end
          | 123%N =>
              match skipWs rest with
              | String "}"%char rest' => Some (Object [], rest')
              | _ =>
                  match parseMembers fuel' rest with
                  | Some (ms, rest') => Some (Object ms, rest')
                  | None => None
                  end
              end
          | _ =>
              match number text with
              | Some (lexeme, rest') => Some (Number lexeme, rest')
              | None => None
              end
          end
      end
  end
with parseElements (fuel : nat) (s : string) : option (list value * string) :=
  match fuel with
  | O => None
  | S fuel' =>
      match parseValue fuel' s with
      | None => None
      | Some (v, rest) =>
          match skipWs rest with
          | String ","%char rest' =>
              match parseElements fuel' rest' with
              | Some (vs, rest'') => Some (v :: vs, rest'')
              | None => None
              end
          | String "]"%char rest' => Some ([v], rest')
          | _ => None
          end
      end
  end
with parseMembers (fuel : nat) (s : string) : option (list (string * value) * string) :=
  match fuel with
  | O => None
  | S fuel' =>
      match skipWs s with
      | String c rest =>
          if Ascii.eqb c dquote then
            match stringBody rest with
            | None => None
            | Some (key, rest1) =>
                match skipWs rest1 with
                | String ":"%char rest2 =>
                    match parseValue fuel' rest2 with
                    | None => None
                    | Some (v, rest3) =>
                        match skipWs rest3 with
                        | String ","%char rest4 =>
                            match parseMembers fuel' rest4 with
                            | Some (ms, rest5) => Some ((key, v) :: ms, rest5)
                            | None => None
                            end
                        | String "}"%char rest4 => Some ([(key, v)], rest4)
                        | _ => None
                        end
                    end
                | _ => None
                end
            end
          else None
      | EmptyString => None
      end
  end.

(** [JSON.parse(text)]; [None] is the [SyntaxError]. *)
Definition parse (text : string) : option value :=
  match parseValue (S (String.length text)) text with
  | Some (v, rest) => if Str.isEmpty (skipWs rest) then Some v else None
  | None => None
  end.

(** Property lookup in a parsed object: of two members with one name the
    later one is the property. *)
Fixpoint property (name : string) (members : list (string * value)) : option value :=
  match members with
  | [] => None
  | (k, v) :: rest =>
      match property name rest with
      | Some v' => Some v'
      | None => if String.eqb k name then Some v else None
      end
  end.

End Json.

(** ** types.ts *)

Module GogEventTime.
Record t := mk {
  dateTime : option string;
  date : option string;
  timeZone : option string
}.
End GogEventTime.

Module Reminders.
Record t := mk {
  useDefault : option bool;
  overrides : option (list (string * Z))
}.
End Reminders.

Module GogEvent.
Record t := mk {
  id : string;
  etag : option string;
  updated : option string;
  summary : option string;
  description : option string;
  status : option string;
  visibility : option string;
  transparency : option string;
  start : GogEventTime.t;
  end_ : GogEventTime.t;
  reminders : option Reminders.t
}.
End GogEvent.

Module SourceRef.
Record t := mk {
  srcAccount : string;
  srcCalendar : string;
  eventId : string;
  start : string;
  end_ : string;
  title : string
}.
End SourceRef.

Module DesiredHold.
Record t := mk {
  source : SourceRef.t;
  event : GogEvent.t
}.
End DesiredHold.

Inductive OverlapPolicy := skip | allow.

Inductive ReconcileAction :=
| create (desired : DesiredHold.t)
| update (existing : GogEvent.t) (desired : DesiredHold.t)
| delete (existing : GogEvent.t)
| skip_overlap (desired : DesiredHold.t) (blockingEventId : string).

Module ReconcilePlan.
Record t := mk {
  actions : list ReconcileAction;
  desiredCount : nat;
  existingManagedCount : nat;
  capped : bool
}.
End ReconcilePlan.

#[export] Instance GogEventTime_eq_dec : EqDecision GogEventTime.t.
Proof. solve_decision. Defined.
#[export] Instance Reminders_eq_dec : EqDecision Reminders.t.
Proof. solve_decision. Defined.
#[export] Instance GogEvent_eq_dec : EqDecision GogEvent.t.
Proof. solve_decision. Defined.
#[export] Instance SourceRef_eq_dec : EqDecision SourceRef.t.
Proof. solve_decision. Defined.
#[export] Instance DesiredHold_eq_dec : EqDecision DesiredHold.t.
Proof. solve_decision. Defined.
#[export] Instance OverlapPolicy_eq_dec : EqDecision OverlapPolicy.
Proof. solve_decision. Defined.
#[export] Instance ReconcileAction_eq_dec : EqDecision ReconcileAction.
Proof. solve_decision. Defined.

(** ** metadata.ts *)

Definition METADATA_PREFIX : string := "SYNCV1:".

(** The object [JSON.stringify] sees: the six properties of a [SourceRef]
    in the order of its declaration. *)
Definition sourceRefJson (source : SourceRef.t) : Json.value :=
  Json.Object
    [("srcAccount", Json.Str (SourceRef.srcAccount source));
     ("srcCalendar", Json.Str (SourceRef.srcCalendar source));
     ("eventId", Json.Str (SourceRef.eventId source));
     ("start", Json.Str (SourceRef.start source));
     ("end", Json.Str (SourceRef.end_ source));
     ("title", Json.Str (SourceRef.title source))].

Definition encodeSourceRef (source : SourceRef.t) : string :=
  METADATA_PREFIX +:+ Base64url.encode (Json.stringify (sourceRefJson source)).

(** [typeof parsed.name === "string"], with the value.  Reading a property
    of [null] throws, which the [catch] of [decodeSourceRef] turns into
    [null]; every other value that is not an object has no such property. *)
Definition stringProperty (parsed : Json.value) (name : string) : option string :=
  match parsed with
  | Json.Object members =>
      match Json.property name members with
      | Some (Json.Str s) => Some s
      | _ => None
      end
  | _ => None
  end.

(** The result keeps the six properties of the parsed object; the source
    returns the object itself, which may hold more. *)
Definition decodeSourceRef (description : option string) : option SourceRef.t :=
  match description with
  | None => None
  | Some description =>
      if Str.isEmpty description then None else
      let index := Str.indexOf description METADATA_PREFIX in
      if index <? 0 then None else
      let encoded :=
        Str.trim (Str.slice description (index + Z.of_nat (String.length METADATA_PREFIX))) in
      if Str.isEmpty encoded then None else
      match Json.parse (Base64url.decode encoded) with
      | None => None
      | Some parsed =>
          match stringProperty parsed "srcAccount", stringProperty parsed "srcCalendar",
                stringProperty parsed "eventId", stringProperty parsed "start",
                stringProperty parsed "end", stringProperty parsed "title" with
          | Some srcAccount, Some srcCalendar, Some eventId, Some start, Some end_, Some title =>
              Some (SourceRef.mk srcAccount srcCalendar eventId start end_ title)
          | _, _, _, _, _, _ => None
          end
      end
  end.

Definition holdKey (source : SourceRef.t) : string :=
  SourceRef.srcAccount source +:+ "::" +:+ SourceRef.srcCalendar source +:+ "::"
  +:+ SourceRef.eventId source +:+ "::" +:+ SourceRef.start source +:+ "::"
  +:+ SourceRef.end_ source.

(** Two provenance records name the same occurrence of a source event when
    they agree on everything but the title. *)
Definition sameOccurrence (s1 s2 : SourceRef.t) : Prop :=
  SourceRef.srcAccount s1 = SourceRef.srcAccount s2 ∧
  SourceRef.srcCalendar s1 = SourceRef.srcCalendar s2 ∧
  SourceRef.eventId s1 = SourceRef.eventId s2 ∧
  SourceRef.start s1 = SourceRef.start s2 ∧
  SourceRef.end_ s1 = SourceRef.end_ s2.

(** A field in which no colon is followed by a colon or by the end of the
    field: the delimiter [::] of [holdKey] can then be told from the field. *)
Fixpoint delimiterFree (field : string) : bool :=
  match field with
  | EmptyString => true
  | String c rest =>
      if Ascii.eqb c ":"%char
      then match rest with
           | EmptyString => false
           | String c' _ => negb (Ascii.eqb c' ":"%char) && delimiterFree rest
           end
      else delimiterFree rest
  end.

(** The four fields of a key that are followed by a delimiter. *)
Definition keyFieldsClean (s : SourceRef.t) : Prop :=
  delimiterFree (SourceRef.srcAccount s) = true ∧
  delimiterFree (SourceRef.srcCalendar s) = true ∧
  delimiterFree (SourceRef.eventId s) = true ∧
  delimiterFree (SourceRef.start s) = true.

(** ** The host: what the JavaScript engine supplies *)

Class Host := {
  (** [a.localeCompare(b)]: negative, zero or positive. *)
  localeCompare : string → string → Z;
  (** [Date.parse(value)]; [None] is [NaN]. *)
  Date_parse : string → option Z
}.

(** ** Exceptions *)

Inductive Error :=
| InvalidDate (value : string)
  (** [Error(`Invalid date value: ${value}`)] *)
| MissingRange (eventId : string).
  (** [Error(`Event ${event.id} is missing supported start/end fields`)] *)

Inductive Result (A : Type) :=
| Ok (a : A)
| Throw (e : Error).
Arguments Ok {A} a.
Arguments Throw {A} e.

Definition bind {A B} (r : Result A) (k : A → Result B) : Result B :=
  match r with
  | Ok a => k a
  | Throw e => Throw e
  end.

Notation "'do' x <- r ; k" := (bind r (fun x => k))
  (at level 10, x name, r at level 100, k at level 200).

(** ** Arrays: [sort] and [find] *)

Module JsArray.

Section Sort.
Context {A : Type} (compare : A → A → Z).

Fixpoint insert (x : A) (sorted : list A) : list A :=
  match sorted with
  | [] => [x]
  | y :: rest => if compare x y <=? 0 then x :: y :: rest else y :: insert x rest
  end.

(** [array.sort(compare)].  The sort of ECMAScript is stable, and for a
    consistent comparator its result is the one stable arrangement;
    insertion from the right computes it. *)
Fixpoint sort (array : list A) : list A :=
  match array with
  | [] => []
  | x :: rest => insert x (sort rest)
  end.
End Sort.

(** [array.find(predicate)] for a predicate that can throw: the elements
    are tried from the left, and the first exception ends the search. *)
Fixpoint find {A} (predicate : A → Result bool) (array : list A) : Result (option A) :=
  match array with
  | [] => Ok None
  | x :: rest =>
      do hit <- predicate x;
      if hit : bool then Ok (Some x) else find predicate rest
  end.

End JsArray.

(** ** overlap.ts *)

(** A property that is present and not the empty string. *)
Definition truthy (value : option string) : option string :=
  match value with
  | Some s => if Str.isEmpty s then None else Some s
  | None => None
  end.

Section Overlap.
Context `{Host}.

Definition parseIso (value : string) : Result Z :=
  match Date_parse value with
  | None => Throw (InvalidDate value)
  | Some ts => Ok ts
  end.

Definition eventRange (event : GogEvent.t) : Result (Z * Z) :=
  match truthy (GogEventTime.dateTime (GogEvent.start event)),
        truthy (GogEventTime.dateTime (GogEvent.end_ event)) with
  | Some startDateTime, Some endDateTime =>
      do startMs <- parseIso startDateTime;
      do endMs <- parseIso endDateTime;
      Ok (startMs, endMs)
  | _, _ =>
      match truthy (GogEventTime.date (GogEvent.start event)),
            truthy (GogEventTime.date (GogEvent.end_ event)) with
      | Some startDate, Some endDate =>
          do startMs <- parseIso (startDate +:+ "T00:00:00.000Z");
          do endMs <- parseIso (endDate +:+ "T00:00:00.000Z");
          Ok (startMs, endMs)
      | _, _ => Throw (MissingRange (GogEvent.id event))
      end
  end.

Definition isOverlap (a b : GogEvent.t) : Result bool :=
  do x <- eventRange a;
  do y <- eventRange b;
  Ok ((fst x <? snd y) && (fst y <? snd x)).

End Overlap.

(** ** reconcile.ts *)

Definition isEquivalent (existing desired : GogEvent.t) : bool :=
  bool_decide (GogEvent.summary existing = GogEvent.summary desired)
  && bool_decide (GogEvent.description existing = GogEvent.description desired)
  && bool_decide (GogEvent.visibility existing = GogEvent.visibility desired)
  && bool_decide (GogEvent.transparency existing = GogEvent.transparency desired)
  && bool_decide (GogEventTime.dateTime (GogEvent.start existing)
                  = GogEventTime.dateTime (GogEvent.start desired))
  && bool_decide (GogEventTime.date (GogEvent.start existing)
                  = GogEventTime.date (GogEvent.start desired))
  && bool_decide (GogEventTime.dateTime (GogEvent.end_ existing)
                  = GogEventTime.dateTime (GogEvent.end_ desired))
  && bool_decide (GogEventTime.date (GogEvent.end_ existing)
                  = GogEventTime.date (GogEvent.end_ desired)).

(** [decodeSourceRef(event.description)] is truthy. *)
Definition isManaged (event : GogEvent.t) : bool :=
  match decodeSourceRef (GogEvent.description event) with
  | Some _ => true
  | None => false
  end.

Fixpoint splitManaged (targetEvents : list GogEvent.t) : list GogEvent.t * list GogEvent.t :=
  match targetEvents with
  | [] => ([], [])
  | event :: rest =>
      let '(managed, unmanaged) := splitManaged rest in
      if isManaged event then (event :: managed, unmanaged)
      else (managed, event :: unmanaged)
  end.

(** The store of [planReconcile]. *)
Module PlanState.
Record t := mk {
  actions : list ReconcileAction;
  changes : Z;
  capped : bool
}.
Definition initial : t := mk [] 0 false.
End PlanState.

(** [actions: [...prev.actions, action]], the budget untouched. *)
Definition report (action : ReconcileAction) (state : PlanState.t) : PlanState.t :=
  PlanState.mk (PlanState.actions state ++ [action])
    (PlanState.changes state) (PlanState.capped state).

(** The gate in front of every create, update and delete:
    [if (changes >= maxChangesPerRun) capped = true; else push the action
    and count it]. *)
Definition mutate (maxChangesPerRun : Z) (action : ReconcileAction)
    (state : PlanState.t) : PlanState.t :=
  if PlanState.changes state >=? maxChangesPerRun
  then PlanState.mk (PlanState.actions state) (PlanState.changes state) true
  else PlanState.mk (PlanState.actions state ++ [action])
         (PlanState.changes state + 1) (PlanState.capped state).

(** The body of the first loop of [planReconcile], over [managed] sorted
    by id. *)
Definition groupManaged (managedByKey : gmap string (list GogEvent.t))
    (event : GogEvent.t) : gmap string (list GogEvent.t) :=
  match decodeSourceRef (GogEvent.description event) with
  | None => managedByKey
  | Some source =>
      let key := holdKey source in
      let list := default [] (managedByKey !! key) in
      <[key := list ++ [event]]> managedByKey
  end.

Definition indexDesired (desiredByKey : gmap string DesiredHold.t)
    (desired : DesiredHold.t) : gmap string DesiredHold.t :=
  <[holdKey (DesiredHold.source desired) := desired]> desiredByKey.

(** [[...map.keys()].sort()]: the keys of a map are pairwise different, so
    the sorted list does not depend on the order of [keys()]. *)
Definition sortedKeys {V} (map : gmap string V) : list string :=
  JsArray.sort Str.codeUnitCompare (map_to_list map).*1.

Section Planner.
Context `{Host}.

Definition compareIds (a b : GogEvent.t) : Z :=
  localeCompare (GogEvent.id a) (GogEvent.id b).

Definition managedIndex (managed : list GogEvent.t) : gmap string (list GogEvent.t) :=
  foldl groupManaged ∅ (JsArray.sort compareIds managed).

Definition desiredIndex (desiredHolds : list DesiredHold.t) : gmap string DesiredHold.t :=
  foldl indexDesired ∅ desiredHolds.

Section Loops.
Context (unmanaged : list GogEvent.t)
        (managedByKey : gmap string (list GogEvent.t))
        (desiredByKey : gmap string DesiredHold.t)
        (overlapPolicy : OverlapPolicy)
        (maxChangesPerRun : Z).

(** One turn of the loop over the sorted desired keys. *)
Definition planDesiredKey (state : PlanState.t) (key : string) : Result PlanState.t :=
  match desiredByKey !! key with
  | None => Ok state
  | Some desired =>
      match default [] (managedByKey !! key) with
      | [] =>
          do blocker <-
            match overlapPolicy with
            | skip =>
                JsArray.find
                  (λ candidate, isOverlap candidate (DesiredHold.event desired))
                  unmanaged
            | allow => Ok None
            end;
          match blocker with
          | Some blocker =>
              Ok (report (skip_overlap desired (GogEvent.id blocker)) state)
          | None => Ok (mutate maxChangesPerRun (create desired) state)
          end
      | primary :: duplicates =>
          let state :=
            if isEquivalent primary (DesiredHold.event desired) then state
            else mutate maxChangesPerRun (update primary desired) state in
          Ok (foldl (λ state duplicate, mutate maxChangesPerRun (delete duplicate) state)
                state duplicates)
      end
  end.

(** One turn of the loop over the sorted managed keys. *)
Definition planManagedKey (state : PlanState.t) (key : string) : PlanState.t :=
  match desiredByKey !! key with
  | Some _ => state
  | None =>
      foldl (λ state stale, mutate maxChangesPerRun (delete stale) state)
        state (default [] (managedByKey !! key))
  end.

End Loops.

Definition planReconcile (desiredHolds : list DesiredHold.t)
    (targetEvents : list GogEvent.t) (overlapPolicy : OverlapPolicy)
    (maxChangesPerRun : Z) : Result ReconcilePlan.t :=
  let '(managed, unmanaged) := splitManaged targetEvents in
  let managedByKey := managedIndex managed in
  let desiredByKey := desiredIndex desiredHolds in
  do state <-
    foldl (λ state key,
             do state <- state;
             planDesiredKey unmanaged managedByKey desiredByKey overlapPolicy
               maxChangesPerRun state key)
      (Ok PlanState.initial) (sortedKeys desiredByKey);
  let state :=
    foldl (planManagedKey managedByKey desiredByKey maxChangesPerRun)
      state (sortedKeys managedByKey) in
  Ok (ReconcilePlan.mk (PlanState.actions state) (length desiredHolds)
        (length managed) (PlanState.capped state)).

End Planner.

(** ** Vocabulary of the properties *)

(** The key under which a target event is managed, if it is. *)
Definition eventKey (event : GogEvent.t) : option string :=
  holdKey <$> decodeSourceRef (GogEvent.description event).

Definition hasKey (key : string) (event : GogEvent.t) : Prop :=
  eventKey event = Some key.

#[export] Instance hasKey_dec key event : Decision (hasKey key event).
Proof. unfold hasKey. apply _. Defined.

(** The actions that count against the budget. *)
Definition isMutation (action : ReconcileAction) : bool :=
  match action with
  | create _ | update _ _ | delete _ => true
  | skip_overlap _ _ => false
  end.

Definition mutations (actions : list ReconcileAction) : nat :=
  length (filter (λ a, isMutation a = true) actions).

(** The target event an action changes or removes. *)
Definition subject (action : ReconcileAction) : option GogEvent.t :=
  match action with
  | update existing _ | delete existing => Some existing
  | create _ | skip_overlap _ _ => None
  end.

Definition subjects (actions : list ReconcileAction) : list GogEvent.t :=
  omap subject actions.

(** *** The plan as a list of wanted actions passed through the budget *)

Definition gate (maxChangesPerRun : Z) (state : PlanState.t)
    (action : ReconcileAction) : PlanState.t :=
  if isMutation action then mutate maxChangesPerRun action state
  else report action state.

Definition run (maxChangesPerRun : Z) (wanted : list ReconcileAction)
    (state : PlanState.t) : PlanState.t :=
  foldl (gate maxChangesPerRun) state wanted.

(** The results of [f] on the elements of a list, appended; the first
    exception ends it. *)
Fixpoint collect {A B} (f : A → Result (list B)) (l : list A) : Result (list B) :=
  match l with
  | [] => Ok []
  | x :: rest =>
      do ys <- f x;
      do zs <- collect f rest;
      Ok (ys ++ zs)
  end.

Section Wanted.
Context `{Host}.

Section Keys.
Context (unmanaged : list GogEvent.t)
        (managedByKey : gmap string (list GogEvent.t))
        (desiredByKey : gmap string DesiredHold.t)
        (overlapPolicy : OverlapPolicy).

(** What the turn of a desired key wants to do. *)
Definition desiredKeyWanted (key : string) : Result (list ReconcileAction) :=
  match desiredByKey !! key with
  | None => Ok []
  | Some desired =>
      match default [] (managedByKey !! key) with
      | [] =>
          do blocker <-
            match overlapPolicy with
            | skip =>
                JsArray.find
                  (λ candidate, isOverlap candidate (DesiredHold.event desired))
                  unmanaged
            | allow => Ok None
            end;
          match blocker with
          | Some blocker => Ok [skip_overlap desired (GogEvent.id blocker)]
          | None => Ok [create desired]
          end
      | primary :: duplicates =>
          Ok ((if isEquivalent primary (DesiredHold.event desired) then []
               else [update primary desired])
              ++ map delete duplicates)
      end
  end.

(** What the turn of a managed key wants to do. *)
Definition managedKeyWanted (key : string) : list ReconcileAction :=
  match desiredByKey !! key with
  | Some _ => []
  | None => map delete (default [] (managedByKey !! key))
  end.
End Keys.

(** The actions that bring the target to the desired state: everything
    the two loops want, in their order. *)
Definition wantedActions (desiredHolds : list DesiredHold.t)
    (targetEvents : list GogEvent.t) (overlapPolicy : OverlapPolicy)
    : Result (list ReconcileAction) :=
  let '(managed, unmanaged) := splitManaged targetEvents in
  let managedByKey := managedIndex managed in
  let desiredByKey := desiredIndex desiredHolds in
  do first <-
    collect (desiredKeyWanted unmanaged managedByKey desiredByKey overlapPolicy)
      (sortedKeys desiredByKey);
  Ok (first ++ concat (map (managedKeyWanted managedByKey desiredByKey)
                        (sortedKeys managedByKey))).
End Wanted.

(** A comparator that [Array.prototype.sort] can rely on: ECMAScript calls
    it consistent. *)
Class Consistent {A} (compare : A → A → Z) : Prop := {
  consistent_total : ∀ a b, compare a b <= 0 ∨ compare b a <= 0;
  consistent_trans : ∀ a b c, compare a b <= 0 → compare b c <= 0 → compare a c <= 0
}.

(** The order a comparator sorts by. *)
Definition sortsBefore {A} (compare : A → A → Z) : relation A :=
  λ a b, compare a b <= 0.

(** The desired hold registered under a key: the last one with that key. *)
Definition desiredFor (key : string) (desiredHolds : list DesiredHold.t)
    : option DesiredHold.t :=
  last (filter (λ d, holdKey (DesiredHold.source d) = key) desiredHolds).

(** The event is managed under a key for which a hold is desired. *)
Definition keyDesired (desiredByKey : gmap string DesiredHold.t) (event : GogEvent.t) : Prop :=
  match eventKey event with
  | Some key => is_Some (desiredByKey !! key)
  | None => False
  end.

#[export] Instance keyDesired_dec desiredByKey event : Decision (keyDesired desiredByKey event).
Proof. unfold keyDesired. destruct (eventKey event); apply _. Defined.

(** *** The mutations required to converge

    Not part of the planner: the reading of "the mutations required to
    converge" in the budget property, counted from the inputs.  For a key
    under which no target event is managed, the hold desired for it has to be
    created, unless the policy is [skip] and an unmanaged target event
    overlaps it.  Where target events are managed under the key, the first of
    them in the order of their ids has to be updated unless it is equivalent
    to the desired event, and each of the others has to be deleted.  And
    every managed target event for whose key no hold is desired has to be
    deleted. *)

(** The keys for which a hold is desired, each once. *)
Definition desiredKeys (desiredHolds : list DesiredHold.t) : list string :=
  remove_dups ((λ d, holdKey (DesiredHold.source d)) <$> desiredHolds).

(** A managed target event for whose key no hold is desired. *)
Definition isStale (desiredHolds : list DesiredHold.t) (event : GogEvent.t) : bool :=
  match eventKey event with
  | Some key => bool_decide (desiredFor key desiredHolds = None)
  | None => false
  end.

Section Required.
Context `{Host}.

(** The target events managed under a key, in the order of their ids. *)
Definition managedUnder (key : string) (targetEvents : list GogEvent.t)
    : list GogEvent.t :=
  filter (hasKey key)
    (JsArray.sort compareIds (filter (λ e, isManaged e = true) targetEvents)).

(** An unmanaged target event overlaps the event. *)
Definition blocked (targetEvents : list GogEvent.t) (event : GogEvent.t) : bool :=
  existsb (λ candidate,
             match isOverlap candidate event with
             | Ok true => true
             | _ => false
             end)
    (filter (λ e, isManaged e ≠ true) targetEvents).

Definition requiredForKey (desiredHolds : list DesiredHold.t)
    (targetEvents : list GogEvent.t) (overlapPolicy : OverlapPolicy) (key : string)
    : nat :=
  match desiredFor key desiredHolds with
  | None => 0
  | Some desired =>
      match managedUnder key targetEvents with
      | [] =>
          match overlapPolicy with
          | skip => if blocked targetEvents (DesiredHold.event desired) then 0 else 1
          | allow => 1
          end
      | primary :: duplicates =>
          (if isEquivalent primary (DesiredHold.event desired) then 0 else 1)
          + length duplicates
      end
  end.

Definition requiredMutations (desiredHolds : list DesiredHold.t)
    (targetEvents : list GogEvent.t) (overlapPolicy : OverlapPolicy) : nat :=
  sum_list_with (requiredForKey desiredHolds targetEvents overlapPolicy)
    (desiredKeys desiredHolds)
  + length (filter (λ e, isStale desiredHolds e = true) targetEvents).

End Required.

(** The event has a complete timed pair or a complete all-day pair. *)
Definition hasCompleteRange (event : GogEvent.t) : bool :=
  (bool_decide (is_Some (truthy (GogEventTime.dateTime (GogEvent.start event))))
   && bool_decide (is_Some (truthy (GogEventTime.dateTime (GogEvent.end_ event)))))
  || (bool_decide (is_Some (truthy (GogEventTime.date (GogEvent.start event))))
      && bool_decide (is_Some (truthy (GogEventTime.date (GogEvent.end_ event))))).

(** The action changes or removes an event managed under the key. *)
Definition actsOnKey (key : string) (action : ReconcileAction) : Prop :=
  match subject action with
  | Some event => hasKey key event
  | None => False
  end.

#[export] Instance actsOnKey_dec key action : Decision (actsOnKey key action).
Proof. unfold actsOnKey. destruct (subject action); apply _. Defined.

(** A plan with the blocking event ids blanked. *)
Definition eraseBlocker (action : ReconcileAction) : ReconcileAction :=
  match action with
  | skip_overlap desired _ => skip_overlap desired ""
  | _ => action
  end.

Definition eraseBlockers (plan : ReconcilePlan.t) : ReconcilePlan.t :=
  ReconcilePlan.mk (eraseBlocker <$> ReconcilePlan.actions plan)
    (ReconcilePlan.desiredCount plan) (ReconcilePlan.existingManagedCount plan)
    (ReconcilePlan.capped plan).

(** *** The effects of a plan on the target calendar

    Not part of the planner: the reading of "the plan's effects applied"
    in the idempotence property.  A create adds the desired event, an update
    replaces the existing event by the desired event, a delete removes the
    existing event; the actions are applied in the order of the plan, each
    to the first target event equal to the one it names. *)

Fixpoint removeFirst (event : GogEvent.t) (events : list GogEvent.t) : list GogEvent.t :=
  match events with
  | [] => []
  | e :: rest => if decide (e = event) then rest else e :: removeFirst event rest
  end.

Fixpoint replaceFirst (event replacement : GogEvent.t) (events : list GogEvent.t)
    : list GogEvent.t :=
  match events with
  | [] => []
  | e :: rest =>
      if decide (e = event) then replacement :: rest
      else e :: replaceFirst event replacement rest
  end.

Definition applyAction (events : list GogEvent.t) (action : ReconcileAction)
    : list GogEvent.t :=
  match action with
  | create desired => events ++ [DesiredHold.event desired]
  | update existing desired => replaceFirst existing (DesiredHold.event desired) events
  | delete existing => removeFirst existing events
  | skip_overlap _ _ => events
  end.

Definition applyPlan (plan : ReconcilePlan.t) (targetEvents : list GogEvent.t)
    : list GogEvent.t :=
  foldl applyAction targetEvents (ReconcilePlan.actions plan).

(** The events an action adds, replaces or removes. *)
Definition actionEvents (action : ReconcileAction) : list GogEvent.t :=
  match action with
  | create desired => [DesiredHold.event desired]
  | update existing desired => [existing; DesiredHold.event desired]
  | delete existing => [existing]
  | skip_overlap _ _ => []
  end.

(** The description of the desired event carries the tag of the source of
    the hold (section 3 of the specification: the data model of a desired
    hold). *)
Definition carriesOwnTag (desired : DesiredHold.t) : Prop :=
  eventKey (DesiredHold.event desired) = Some (holdKey (DesiredHold.source desired)).


(** *** Vocabulary of the codec proofs *)

(** A sextet uses the six low bits only. *)
Definition isSextet (v : ascii) : Prop :=
  match v with Ascii _ _ _ _ _ _ b6 b7 => b6 = false ∧ b7 = false end.

(** The text of one member of an object, as [Json.stringify] writes it. *)
Definition memberText (kv : string * Json.value) : string :=
  Json.quote (fst kv) +:+ ":" +:+ Json.stringify (snd kv).

(** A member whose value is a string. *)
Definition stringMember (kv : string * string) : string * Json.value :=
  (fst kv, Json.Str (snd kv)).

(** * hold-sync-cli: configuration, command templates and the reconcile run

    The embedding of [packages/hold-sync-cli] (config.ts, gogClient.ts and
    the parts of index.ts that plan and run a reconciliation).  A text is the
    list of the bytes of its UTF-8 form.  What the command line tool reads
    from the [gog] backend is an input of the functions below, and so is what
    every program does that it starts to change a calendar; the calls it
    makes are their output. *)

From Stdlib Require Import DecimalString.

(** ** Exceptions of the command line tool *)

Inductive Exception :=
| Failure (message : string)
  (** [new Error(message)] *)
| SyntaxError (message : string).
  (** thrown by [new RegExp(pattern)] *)

Inductive Outcome (A : Type) :=
| Returns (a : A)
| Throws (e : Exception).
Arguments Returns {A} a.
Arguments Throws {A} e.

#[export] Instance Error_eq_dec : EqDecision Error.
Proof. solve_decision. Defined.
#[export] Instance Exception_eq_dec : EqDecision Exception.
Proof. solve_decision. Defined.
#[export] Instance Outcome_eq_dec {A} `{EqDecision A} : EqDecision (Outcome A).
Proof. solve_decision. Defined.

Definition andThen {A B} (r : Outcome A) (k : A → Outcome B) : Outcome B :=
  match r with
  | Returns a => k a
  | Throws e => Throws e
  end.

Notation "'let*' x ':=' r 'in' k" := (andThen r (fun x => k))
  (at level 10, x name, r at level 100, k at level 200).

(** The message of an exception of hold-sync-core. *)
Definition errorMessage (error : Error) : string :=
  match error with
  | InvalidDate value => "Invalid date value: " +:+ value
  | MissingRange eventId => "Event " +:+ eventId +:+ " is missing supported start/end fields"
  end.

(** A call of a function of hold-sync-core. *)
Definition ofCore {A} (r : Result A) : Outcome A :=
  match r with
  | Ok a => Returns a
  | Throw error => Throws (Failure (errorMessage error))
  end.

(** The regular expressions of the JavaScript engine. *)
Class RegExpEngine := {
  (** [new RegExp(pattern)]: [Some message] is the [SyntaxError] thrown. *)
  RegExp_error : string → option string;
  (** [new RegExp(pattern).test(input)], for a pattern that compiles. *)
  RegExp_test : string → string → bool
}.

(** What every object inherits from [Object.prototype]: [inherited name] is
    the text that [replaceAll] makes of the inherited property of that name
    ([constructor], [toString], [valueOf], ...), if there is one. *)
Class ObjectPrototype := {
  inherited : string → option string
}.

(** The UTF-16 code units of a character, counted at the bytes of its
    UTF-8 form: a byte that starts a character of up to three bytes counts
    one, a byte that starts a character of four bytes counts two, and a byte
    that continues a character counts nothing. *)
Definition codeUnits (byte : ascii) : nat :=
  let n := N_of_ascii byte in
  if (n <? 128)%N then 1
  else if (n <? 192)%N then 0
  else if (n <? 240)%N then 1
  else 2.

(** [text.length] *)
Fixpoint utf16Length (text : string) : nat :=
  match text with
  | EmptyString => 0
  | String byte rest => codeUnits byte + utf16Length rest
  end.

(** [`${value}`] for a value that can be [undefined]. *)
Definition interpolate (value : option string) : string := default "undefined" value.

(** [`${index}`] for an array index. *)
Definition indexText (index : nat) : string := NilZero.string_of_uint (Nat.to_uint index).

(** [a ?? b] *)
Definition orElse {A} (value fallback : option A) : option A :=
  match value with
  | Some v => Some v
  | None => fallback
  end.

(** [parts.join(separator)] *)
Fixpoint joinWith (separator : string) (parts : list string) : string :=
  match parts with
  | [] => ""
  | [p] => p
  | p :: rest => p +:+ separator +:+ joinWith separator rest
  end.

Definition newline : string := String "010"%char "".

(** ** config.ts

    A number is a [Z].  A required property that a configuration file
    leaves out is falsy like the empty string, and an array that is left out
    fails the same test as the empty array: the first is a [string], the
    second a [list].  An optional property that is [null] is not told from
    one that is absent.  The properties of [hold] and [metadata] that no
    function reads are left out. *)

Module Source.
Record t := mk {
  account : string;
  calendarId : string
}.
End Source.

Module Mapping.
Record t := mk {
  name : string;
  targetAccount : string;
  targetCalendarId : option string;
  sources : list Source.t;
  lookaheadDays : option Z;
  allDayMode : option string;
  overlapPolicy : option string
}.
End Mapping.

(** [Required<Mapping>] *)
Module NormalMapping.
Record t := mk {
  name : string;
  targetAccount : string;
  targetCalendarId : string;
  sources : list Source.t;
  lookaheadDays : Z;
  allDayMode : string;
  overlapPolicy : string
}.
End NormalMapping.

Module HoldConfig.
Record t := mk {
  summary : option string
}.
End HoldConfig.

Module Scheduling.
Record t := mk {
  reconcileCron : option string;
  daytimeCron : option string;
  driftWindowDays : option Z;
  watchIntervalSeconds : option Z
}.
End Scheduling.

Module Safety.
Record t := mk {
  dryRun : option bool;
  maxChangesPerRun : option Z;
  excludeIfSummaryMatches : option (list string);
  excludeIfDescriptionPrefix : option (list string)
}.
End Safety.

Inductive CommandKey := listEventsCmd | createEventCmd | updateEventCmd | deleteEventCmd.

Module Gog.
Record t := mk {
  allowCustomCommands : option bool;
  listEvents : option string;
  createEvent : option string;
  updateEvent : option string;
  deleteEvent : option string
}.

(** [gog[key]] *)
Definition command (gog : t) (key : CommandKey) : option string :=
  match key with
  | listEventsCmd => listEvents gog
  | createEventCmd => createEvent gog
  | updateEventCmd => updateEvent gog
  | deleteEventCmd => deleteEvent gog
  end.
End Gog.

Module Config.
Record t := mk {
  mappings : list Mapping.t;
  hold : option HoldConfig.t;
  scheduling : option Scheduling.t;
  safety : option Safety.t;
  gog : option Gog.t
}.
End Config.

Definition commandKeys : list CommandKey :=
  [listEventsCmd; createEventCmd; updateEventCmd; deleteEventCmd].

Definition commandName (key : CommandKey) : string :=
  match key with
  | listEventsCmd => "listEventsCmd"
  | createEventCmd => "createEventCmd"
  | updateEventCmd => "updateEventCmd"
  | deleteEventCmd => "deleteEventCmd"
  end.

(** [config.gog?.[key]] when it is truthy. *)
Definition override (config : Config.t) (key : CommandKey) : option string :=
  truthy (Config.gog config ≫= λ gog, Gog.command gog key).

(** [config.gog?.allowCustomCommands === true] *)
Definition customCommandsAllowed (config : Config.t) : bool :=
  bool_decide (Config.gog config ≫= Gog.allowCustomCommands = Some true).

(** [cmd.trim().startsWith("gog ")] *)
Definition startsWithGog (cmd : string) : bool := String.prefix "gog " (Str.trim cmd).

(** [config.hold?.summary ?? "Busy"] *)
Definition holdSummary (config : Config.t) : string :=
  default "Busy" (Config.hold config ≫= HoldConfig.summary).

(** [config.safety?.maxChangesPerRun ?? 100] *)
Definition changeBudget (config : Config.t) : Z :=
  default 100 (Config.safety config ≫= Safety.maxChangesPerRun).

(** [config.safety?.excludeIfSummaryMatches ?? []] *)
Definition summaryPatterns (config : Config.t) : list string :=
  default [] (Config.safety config ≫= Safety.excludeIfSummaryMatches).

(** [config.safety?.excludeIfDescriptionPrefix ?? []] *)
Definition descriptionPrefixes (config : Config.t) : list string :=
  default [] (Config.safety config ≫= Safety.excludeIfDescriptionPrefix).

(** The two checks of one source of a mapping. *)
Definition validateSource (index sourceIndex : nat) (source : Source.t) : list string :=
  (if Str.isEmpty (Source.account source)
   then ["mappings[" +:+ indexText index +:+ "].sources[" +:+ indexText sourceIndex
         +:+ "].account is required"]
   else [])
  ++ (if Str.isEmpty (Source.calendarId source)
      then ["mappings[" +:+ indexText index +:+ "].sources[" +:+ indexText sourceIndex
            +:+ "].calendarId is required"]
      else []).

(** The errors one turn of the loop over [config.mappings.entries()]
    pushes, in their order; [names] holds the names seen so far. *)
Definition mappingErrors (names : gset string) (index : nat) (mapping : Mapping.t)
    : list string :=
  let at_ := "mappings[" +:+ indexText index +:+ "]" in
  (if Str.isEmpty (Mapping.name mapping) then [at_ +:+ ".name is required"]
   else if bool_decide (Mapping.name mapping ∈ names)
   then [at_ +:+ ".name must be unique: " +:+ Mapping.name mapping]
   else [])
  ++ (if Str.isEmpty (Mapping.targetAccount mapping)
      then [at_ +:+ ".targetAccount is required"]
      else [])
  ++ match Mapping.sources mapping with
     | [] => [at_ +:+ ".sources must be a non-empty array"]
     | _ :: _ => concat (imap (validateSource index) (Mapping.sources mapping))
     end
  ++ match Mapping.lookaheadDays mapping with
     | Some days => if days <? 1 then [at_ +:+ ".lookaheadDays must be >= 1"] else []
     | None => []
     end
  ++ match truthy (Mapping.allDayMode mapping) with
     | Some mode =>
         if bool_decide (mode ∈ ["ignore"; "mirror"]) then []
         else [at_ +:+ ".allDayMode must be ignore|mirror"]
     | None => []
     end
  ++ match truthy (Mapping.overlapPolicy mapping) with
     | Some policy =>
         if bool_decide (policy ∈ ["skip"; "allow"]) then []
         else [at_ +:+ ".overlapPolicy must be skip|allow"]
     | None => []
     end.

(** One turn of that loop: the errors and the set [names]. *)
Definition validateMapping (state : list string * gset string)
    (entry : nat * Mapping.t) : list string * gset string :=
  let '(errors, names) := state in
  let '(index, mapping) := entry in
  (errors ++ mappingErrors names index mapping,
   if Str.isEmpty (Mapping.name mapping) || bool_decide (Mapping.name mapping ∈ names)
   then names
   else names ∪ {[Mapping.name mapping]}).

Section Validate.
Context `{RegExpEngine}.

(** One turn of the loop over the summary patterns. *)
Definition validatePattern (index : nat) (pattern : string) : list string :=
  if (512 <? utf16Length pattern)%nat
  then ["safety.excludeIfSummaryMatches[" +:+ indexText index +:+ "] exceeds max length (512)"]
  else match RegExp_error pattern with
       | Some message =>
           ["safety.excludeIfSummaryMatches[" +:+ indexText index +:+ "] is invalid regex: "
            +:+ message]
       | None => []
       end.

Definition validateConfig (config : Config.t) : list string :=
  match Config.mappings config with
  | [] => ["config.mappings must be a non-empty array"]
  | mappings =>
      fst (foldl validateMapping ([], ∅) (imap pair mappings))
      ++ match Config.safety config ≫= Safety.maxChangesPerRun with
         | Some budget =>
             if budget <? 1 then ["safety.maxChangesPerRun must be >= 1"] else []
         | None => []
         end
      ++ match Config.scheduling config ≫= Scheduling.watchIntervalSeconds with
         | Some seconds =>
             if seconds <? 5 then ["scheduling.watchIntervalSeconds must be >= 5"] else []
         | None => []
         end
      ++ concat (imap validatePattern (summaryPatterns config))
      ++ (if customCommandsAllowed config then []
          else concat (map (λ key,
                 match override config key with
                 | Some _ =>
                     ["gog." +:+ commandName key +:+ " requires gog.allowCustomCommands=true"]
                 | None => []
                 end) commandKeys))
      ++ (if customCommandsAllowed config
          then concat (map (λ key,
                 match override config key with
                 | Some cmd =>
                     if startsWithGog cmd then []
                     else ["gog." +:+ commandName key +:+ " must start with 'gog '"]
                 | None => []
                 end) commandKeys)
          else [])
  end.

End Validate.

(** ** gogClient.ts

    The revision of the client that passes the fields of an event as
    arguments of their own ([quoteArg], [normalizeEventTimes]). *)

(** A character of a placeholder name: [[a-zA-Z0-9_]]. *)
Definition isNameChar (c : ascii) : bool :=
  let n := N_of_ascii c in
  (((97 <=? n) && (n <=? 122)) || ((65 <=? n) && (n <=? 90))
   || ((48 <=? n) && (n <=? 57)) || (n =? 95))%N.

Section Template.
Context `{ObjectPrototype}.

(** [args[key] ?? ""] for an object literal with the properties listed: the
    property of the object itself, or else the one that every object
    inherits. *)
Fixpoint argument (args : list (string * string)) (key : string) : string :=
  match args with
  | [] => default "" (inherited key)
  | (k, v) :: rest => if String.eqb k key then v else argument rest key
  end.

(** [template.replaceAll(/\{([a-zA-Z0-9_]+)\}/g, (_, key) => args[key] ?? "")],
    read from the left.  [pending] holds the name characters read since an
    opening brace that can still become a placeholder. *)
Fixpoint applyFrom (args : list (string * string)) (pending : option string)
    (template : string) : string :=
  match template with
  | EmptyString =>
      match pending with
      | Some name => "{" +:+ name
      | None => ""
      end
  | String c rest =>
      match pending with
      | Some name =>
          if isNameChar c then applyFrom args (Some (name +:+ String c "")) rest
          else if Ascii.eqb c "}"%char && negb (Str.isEmpty name)
          then argument args name +:+ applyFrom args None rest
          else "{" +:+ name
               +:+ (if Ascii.eqb c "{"%char then applyFrom args (Some "") rest
                    else String c (applyFrom args None rest))
      | None =>
          if Ascii.eqb c "{"%char then applyFrom args (Some "") rest
          else String c (applyFrom args None rest)
      end
  end.

Definition applyTemplate (template : string) (args : list (string * string)) : string :=
  applyFrom args None template.

End Template.

Definition isQuote (c : ascii) : bool := Ascii.eqb c Json.dquote.

Fixpoint hasQuote (s : string) : bool :=
  match s with
  | EmptyString => false
  | String c rest => isQuote c || hasQuote rest
  end.

(** The white space of a regular expression, [\s]: the number of bytes of
    the white space character that the text starts with, and 0 when it starts
    with none.  TAB, LF, VT, FF, CR and SP take one byte, U+00A0 two, and
    U+1680, U+2000 to U+200A, U+2028, U+2029, U+202F, U+205F, U+3000 and
    U+FEFF three. *)
Definition spaceWidth (text : string) : nat :=
  match text with
  | EmptyString => 0
  | String c rest =>
      if Str.isSpace c then 1
      else
        let b := N_of_ascii c in
        match rest with
        | String d rest =>
            let d := N_of_ascii d in
            if ((b =? 194) && (d =? 160))%N then 2
            else
              match rest with
              | String e _ =>
                  let e := N_of_ascii e in
                  if ((b =? 225) && (d =? 154) && (e =? 128)
                      || (b =? 226) && (d =? 128)
                         && ((128 <=? e) && (e <=? 138)
                             || (e =? 168) || (e =? 169) || (e =? 175))
                      || (b =? 226) && (d =? 129) && (e =? 159)
                      || (b =? 227) && (d =? 128) && (e =? 128)
                      || (b =? 239) && (d =? 187) && (e =? 191))%N
                  then 3 else 0
              | EmptyString => 0
              end
        | EmptyString => 0
        end
  end.

(** [command.match(/(?:[^\s"]+|"[^"]*")+/g) ?? []], read from the left: the
    rest of the part that the text continues, if it continues one, and the
    parts after it.  A part is a run of characters that are neither white
    space nor quotes and of quoted stretches; a quote without a closing quote
    ends a part and belongs to none.  [quoted] says that the text starts
    inside a quoted stretch, [more] how many of its bytes still belong to a
    white space character. *)
Fixpoint matchParts (quoted : bool) (more : nat) (command : string)
    : option string * list string :=
  match command with
  | EmptyString => (None, [])
  | String c rest =>
      match more with
      | S more =>
          let '(part, parts) := matchParts false more rest in
          (None, option_list part ++ parts)
      | O =>
          if quoted then
            let '(part, parts) := matchParts (negb (isQuote c)) 0 rest in
            (Some (String c (default "" part)), parts)
          else if isQuote c then
            if hasQuote rest then
              let '(part, parts) := matchParts true 0 rest in
              (Some (String c (default "" part)), parts)
            else
              let '(part, parts) := matchParts false 0 rest in
              (None, option_list part ++ parts)
          else
            match spaceWidth command with
            | S width =>
                let '(part, parts) := matchParts false width rest in
                (None, option_list part ++ parts)
            | O =>
                let '(part, parts) := matchParts false 0 rest in
                (Some (String c (default "" part)), parts)
            end
      end
  end.

Fixpoint dropLastQuote (part : string) : string :=
  match part with
  | EmptyString => EmptyString
  | String c EmptyString => if isQuote c then EmptyString else part
  | String c rest => String c (dropLastQuote rest)
  end.

(** [part.replace(/^"|"$/g, "")] *)
Definition stripQuotes (part : string) : string :=
  dropLastQuote
    match part with
    | String c rest => if isQuote c then rest else part
    | EmptyString => EmptyString
    end.

(** The parts of a command in their order. *)
Definition matchAll (command : string) : list string :=
  let '(part, parts) := matchParts false 0 command in
  option_list part ++ parts.

(** The program and its arguments, as [execFile] gets them. *)
Definition splitCommand (command : string) : Outcome (string * list string) :=
  match map stripQuotes (matchAll command) with
  | bin :: args =>
      if Str.isEmpty bin then Throws (Failure ("Invalid command: " +:+ command))
      else Returns (bin, args)
  | [] => Throws (Failure ("Invalid command: " +:+ command))
  end.

(** What the programs do that the tool starts to change a calendar:
    [execFileAsync(bin, args)] and the reading of the output, for the [n]-th
    of these programs.  [Some message] is the error it ends with. *)
Definition Processes := nat → string → list string → option string.

(** [runJson(command)] for a call whose result is dropped. *)
Definition runJson (execFile : Processes) (n : nat) (command : string) : Outcome unit :=
  let* parts := splitCommand command in
  match execFile n (fst parts) (snd parts) with
  | Some message => Throws (Failure message)
  | None => Returns tt
  end.

Definition quoteArg (value : string) : string := Json.stringify (Json.Str value).

Module EventTimes.
Record t := mk {
  from : string;
  to : string;
  allDayFlag : string
}.
End EventTimes.

Definition normalizeEventTimes (event : GogEvent.t) : Outcome EventTimes.t :=
  match truthy (GogEventTime.dateTime (GogEvent.start event)),
        truthy (GogEventTime.dateTime (GogEvent.end_ event)) with
  | Some startDateTime, Some endDateTime =>
      Returns (EventTimes.mk startDateTime endDateTime "")
  | _, _ =>
      match truthy (GogEventTime.date (GogEvent.start event)),
            truthy (GogEventTime.date (GogEvent.end_ event)) with
      | Some startDate, Some endDate => Returns (EventTimes.mk startDate endDate "--all-day")
      | _, _ =>
          Throws (Failure ("Event " +:+ GogEvent.id event
                           +:+ " is missing supported start/end fields"))
      end
  end.

Definition DEFAULTS (name : CommandKey) : string :=
  match name with
  | listEventsCmd =>
      "gog calendar events {calendarId} --account {account} --from {timeMin} --to {timeMax} --json"
  | createEventCmd =>
      "gog calendar create {calendarId} --account {account} --summary {summary} --from {from} --to {to} --description {description} --visibility {visibility} --transparency {transparency} --send-updates none {allDayFlag} --json"
  | updateEventCmd =>
      "gog calendar update {calendarId} {eventId} --account {account} --summary {summary} --from {from} --to {to} --description {description} --visibility {visibility} --transparency {transparency} {allDayFlag} --json"
  | deleteEventCmd =>
      "gog calendar delete {calendarId} {eventId} --account {account} --force --json"
  end.

(** The class [GogClient]: its one field is the configuration. *)
Module GogClient.

Definition template (config : Config.t) (name : CommandKey) : Outcome string :=
  match override config name with
  | None => Returns (DEFAULTS name)
  | Some override =>
      if negb (customCommandsAllowed config)
      then Throws (Failure ("gog." +:+ commandName name
                            +:+ " override requires gog.allowCustomCommands=true"))
      else if negb (startsWithGog override)
      then Throws (Failure ("gog." +:+ commandName name +:+ " must start with 'gog '"))
      else Returns override
  end.

Section Commands.
Context `{ObjectPrototype}.

(** The command line of [listEvents], before [runJson] splits and runs it. *)
Definition listEventsCommand (config : Config.t) (account calendarId timeMin timeMax : string)
    : Outcome string :=
  let* template := template config listEventsCmd in
  Returns (applyTemplate template
             [("account", account); ("calendarId", calendarId);
              ("timeMin", timeMin); ("timeMax", timeMax)]).

(** The arguments [createEvent] and [updateEvent] give to their template. *)
Definition eventArguments (account calendarId : string) (event : GogEvent.t)
    (times : EventTimes.t) : list (string * string) :=
  [("summary", quoteArg (default "Busy" (GogEvent.summary event)));
   ("description", quoteArg (default "" (GogEvent.description event)));
   ("visibility", default "private" (GogEvent.visibility event));
   ("transparency", default "busy" (GogEvent.transparency event));
   ("from", EventTimes.from times);
   ("to", EventTimes.to times);
   ("allDayFlag", EventTimes.allDayFlag times)].

Definition createEventCommand (config : Config.t) (account calendarId : string)
    (event : GogEvent.t) : Outcome string :=
  let* times := normalizeEventTimes event in
  let* template := template config createEventCmd in
  Returns (applyTemplate template
             (("account", account) :: ("calendarId", calendarId)
              :: eventArguments account calendarId event times)).

Definition updateEventCommand (config : Config.t) (account calendarId eventId : string)
    (event : GogEvent.t) : Outcome string :=
  let* times := normalizeEventTimes event in
  let* template := template config updateEventCmd in
  Returns (applyTemplate template
             (("account", account) :: ("calendarId", calendarId) :: ("eventId", eventId)
              :: eventArguments account calendarId event times)).

Definition deleteEventCommand (config : Config.t) (account calendarId eventId : string)
    : Outcome string :=
  let* template := template config deleteEventCmd in
  Returns (applyTemplate template
             [("account", account); ("calendarId", calendarId); ("eventId", eventId)]).

Context (execFile : Processes).

(** The three calls that change a calendar; [n] counts the calls before. *)
Definition createEvent (config : Config.t) (n : nat) (account calendarId : string)
    (event : GogEvent.t) : Outcome unit :=
  let* command := createEventCommand config account calendarId event in
  runJson execFile n command.

Definition updateEvent (config : Config.t) (n : nat) (account calendarId eventId : string)
    (event : GogEvent.t) : Outcome unit :=
  let* command := updateEventCommand config account calendarId eventId event in
  runJson execFile n command.

Definition deleteEvent (config : Config.t) (n : nat) (account calendarId eventId : string)
    : Outcome unit :=
  let* command := deleteEventCommand config account calendarId eventId in
  runJson execFile n command.

End Commands.

End GogClient.

(** ** index.ts *)

Definition isAllDay (event : GogEvent.t) : bool :=
  bool_decide (is_Some (truthy (GogEventTime.date (GogEvent.start event))))
  && bool_decide (is_Some (truthy (GogEventTime.date (GogEvent.end_ event)))).

Section Safety.
Context `{RegExpEngine}.

(** [patterns.some((pattern) => new RegExp(pattern).test(input))] *)
Fixpoint matchesAnyPattern (input : string) (patterns : list string) : Outcome bool :=
  match patterns with
  | [] => Returns false
  | pattern :: rest =>
      match RegExp_error pattern with
      | Some message => Throws (SyntaxError message)
      | None =>
          if RegExp_test pattern input then Returns true
          else matchesAnyPattern input rest
      end
  end.

Definition excludedBySafety (event : GogEvent.t) (config : Config.t) : Outcome bool :=
  let summary := default "" (GogEvent.summary event) in
  let description := default "" (GogEvent.description event) in
  let* matched :=
    match summaryPatterns config with
    | [] => Returns false
    | patterns => matchesAnyPattern summary patterns
    end in
  if matched then Returns true
  else Returns (existsb (λ prefix, String.prefix prefix description)
                  (descriptionPrefixes config)).

End Safety.

Definition normalizeMapping (mapping : Mapping.t) : NormalMapping.t :=
  NormalMapping.mk (Mapping.name mapping) (Mapping.targetAccount mapping)
    (default "primary" (Mapping.targetCalendarId mapping))
    (Mapping.sources mapping)
    (default 30 (Mapping.lookaheadDays mapping))
    (default "ignore" (Mapping.allDayMode mapping))
    (default "skip" (Mapping.overlapPolicy mapping)).

(** The [start] and [end] of the provenance record of an event. *)
Definition instantOf (time : GogEventTime.t) : string :=
  default (interpolate (GogEventTime.date time) +:+ "T00:00:00.000Z")
    (GogEventTime.dateTime time).

Definition sourceRefOf (account calendar : string) (event : GogEvent.t) : SourceRef.t :=
  SourceRef.mk account calendar (GogEvent.id event)
    (instantOf (GogEvent.start event)) (instantOf (GogEvent.end_ event))
    (default "" (GogEvent.summary event)).

Definition desiredHoldFromSource (sourceAccount sourceCalendar : string)
    (sourceEvent : GogEvent.t) (config : Config.t) : DesiredHold.t :=
  let src := sourceRefOf sourceAccount sourceCalendar sourceEvent in
  DesiredHold.mk src
    (GogEvent.mk ("hold-" +:+ GogEvent.id sourceEvent) None None
       (Some (holdSummary config)) (Some (encodeSourceRef src)) None
       (Some "private") (Some "busy")
       (GogEvent.start sourceEvent) (GogEvent.end_ sourceEvent)
       (Some (Reminders.mk (Some false) (Some [])))).

Section Collect.
Context `{RegExpEngine}.
(** [client.listEvents] for the window of the run: the events the backend
    lists for an account and a calendar. *)
Context (listEvents : string → string → Outcome (list GogEvent.t)).

(** The three tests before an event of a source calendar is taken. *)
Definition taken (mapping : NormalMapping.t) (config : Config.t) (event : GogEvent.t)
    : Outcome bool :=
  if bool_decide (GogEvent.status event = Some "cancelled") then Returns false
  else if String.eqb (NormalMapping.allDayMode mapping) "ignore" && isAllDay event
  then Returns false
  else
    let* excluded := excludedBySafety event config in
    Returns (negb excluded).

(** The loop over the events of one source. *)
Fixpoint holdsOfEvents (mapping : NormalMapping.t) (config : Config.t) (source : Source.t)
    (events : list GogEvent.t) : Outcome (list DesiredHold.t) :=
  match events with
  | [] => Returns []
  | event :: rest =>
      let* keep := taken mapping config event in
      let* holds := holdsOfEvents mapping config source rest in
      Returns (if keep : bool
               then desiredHoldFromSource (Source.account source) (Source.calendarId source)
                      event config :: holds
               else holds)
  end.

(** The loop over the sources of the mapping. *)
Fixpoint holdsOfSources (mapping : NormalMapping.t) (config : Config.t)
    (sources : list Source.t) : Outcome (list DesiredHold.t) :=
  match sources with
  | [] => Returns []
  | source :: rest =>
      let* events := listEvents (Source.account source) (Source.calendarId source) in
      let* holds := holdsOfEvents mapping config source events in
      let* later := holdsOfSources mapping config rest in
      Returns (holds ++ later)
  end.

Definition collectDesiredHoldsInWindow (mapping : NormalMapping.t) (config : Config.t)
    : Outcome (list DesiredHold.t) :=
  holdsOfSources mapping config (NormalMapping.sources mapping).

End Collect.

Definition selectMappings (config : Config.t) (mappingName : option string) (all : bool)
    : Outcome (list NormalMapping.t) :=
  let normalized := map normalizeMapping (Config.mappings config) in
  if all then Returns normalized
  else match truthy mappingName with
       | None => Throws (Failure "Select one mapping with --mapping <name> or use --all")
       | Some mappingName =>
           match List.find (λ mapping, String.eqb (NormalMapping.name mapping) mappingName)
                   normalized with
           | None => Throws (Failure ("Unknown mapping: " +:+ mappingName))
           | Some found => Returns [found]
           end
       end.

(** The calls of [executePlan] and [backfill] that change the target
    calendar. *)
Inductive BackendCall :=
| CreateEvent (account calendarId : string) (event : GogEvent.t)
| UpdateEvent (account calendarId eventId : string) (event : GogEvent.t)
| DeleteEvent (account calendarId eventId : string).

Module Counters.
Record t := mk {
  creates : nat;
  updates : nat;
  deletes : nat;
  skipped : nat
}.
End Counters.

Module Report.
Record t := mk {
  counters : Counters.t;
  capped : bool
}.
End Report.

(** [overlapPolicy === "skip"], the one test [planReconcile] makes of the
    policy. *)
Definition policyOf (overlapPolicy : string) : OverlapPolicy :=
  if String.eqb overlapPolicy "skip" then skip else allow.

Section Calls.
Context `{ObjectPrototype}.
Context (execFile : Processes).

(** [await client.createEvent(...)], [client.updateEvent(...)] or
    [client.deleteEvent(...)] for the client of a configuration, after [n]
    calls. *)
Definition send (client : Config.t) (n : nat) (call : BackendCall) : Outcome unit :=
  match call with
  | CreateEvent account calendarId event =>
      GogClient.createEvent execFile client n account calendarId event
  | UpdateEvent account calendarId eventId event =>
      GogClient.updateEvent execFile client n account calendarId eventId event
  | DeleteEvent account calendarId eventId =>
      GogClient.deleteEvent execFile client n account calendarId eventId
  end.

(** One turn of the loop of [executePlan] over [plan.actions]: the
    counters and the calls made so far.  A counter is raised before the call
    is made; a call that fails ends the run with its exception. *)
Definition executeAction (client : Config.t) (mapping : NormalMapping.t) (dryRun : bool)
    (state : Counters.t * list BackendCall) (action : ReconcileAction)
    : Outcome (Counters.t * list BackendCall) :=
  let '(counters, calls) := state in
  let account := NormalMapping.targetAccount mapping in
  let calendarId := NormalMapping.targetCalendarId mapping in
  let issue (counters : Counters.t) (call : BackendCall) :=
    if dryRun then Returns (counters, calls)
    else
      let* done := send client (length calls) call in
      Returns (counters, calls ++ [call]) in
  match action with
  | skip_overlap _ _ =>
      Returns (Counters.mk (Counters.creates counters) (Counters.updates counters)
                 (Counters.deletes counters) (Counters.skipped counters + 1), calls)
  | create desired =>
      issue (Counters.mk (Counters.creates counters + 1) (Counters.updates counters)
               (Counters.deletes counters) (Counters.skipped counters))
        (CreateEvent account calendarId (DesiredHold.event desired))
  | update existing desired =>
      issue (Counters.mk (Counters.creates counters) (Counters.updates counters + 1)
               (Counters.deletes counters) (Counters.skipped counters))
        (UpdateEvent account calendarId (GogEvent.id existing) (DesiredHold.event desired))
  | delete existing =>
      issue (Counters.mk (Counters.creates counters) (Counters.updates counters)
               (Counters.deletes counters + 1) (Counters.skipped counters))
        (DeleteEvent account calendarId (GogEvent.id existing))
  end.

(** [executePlan], from the desired holds and the target events as the
    backend listed them: the report, and the calls that were made. *)
Definition executePlan `{Host} (client : Config.t) (mapping : NormalMapping.t)
    (config : Config.t) (dryRun : bool) (desired : list DesiredHold.t)
    (targetEvents : list GogEvent.t) : Outcome (Report.t * list BackendCall) :=
  let* plan :=
    ofCore (planReconcile desired targetEvents
              (policyOf (NormalMapping.overlapPolicy mapping)) (changeBudget config)) in
  let* state :=
    foldl (λ state action,
             let* state := state in
             executeAction client mapping dryRun state action)
      (Returns (Counters.mk 0 0 0 0, [])) (ReconcilePlan.actions plan) in
  Returns (Report.mk (fst state) (ReconcilePlan.capped plan), snd state).

End Calls.

(** An event of a source calendar, with the calendar it was listed for. *)
Module SourceEvent.
Record t := mk {
  account : string;
  calendarId : string;
  event : GogEvent.t
}.
End SourceEvent.

(** The key of [backfill] for the time range of an event. *)
Definition rangeKey (event : GogEvent.t) : string :=
  interpolate (orElse (GogEventTime.dateTime (GogEvent.start event))
                 (GogEventTime.date (GogEvent.start event)))
  +:+ "|"
  +:+ interpolate (orElse (GogEventTime.dateTime (GogEvent.end_ event))
                     (GogEventTime.date (GogEvent.end_ event))).

(** The body of the loop that fills [sourceByRange]. *)
Definition groupByRange (sourceByRange : gmap string (list SourceEvent.t))
    (src : SourceEvent.t) : gmap string (list SourceEvent.t) :=
  let key := rangeKey (SourceEvent.event src) in
  <[key := default [] (sourceByRange !! key) ++ [src]]> sourceByRange.

(** The target event with the tag and the fields of a hold:
    [{...target, description, visibility, transparency, reminders}]. *)
Definition adopted (target : GogEvent.t) (sourceRef : SourceRef.t) : GogEvent.t :=
  GogEvent.mk (GogEvent.id target) (GogEvent.etag target) (GogEvent.updated target)
    (GogEvent.summary target) (Some (encodeSourceRef sourceRef)) (GogEvent.status target)
    (Some "private") (Some "busy") (GogEvent.start target) (GogEvent.end_ target)
    (Some (Reminders.mk (Some false) (Some []))).

Section Backfill.
Context `{RegExpEngine} `{ObjectPrototype}.
Context (listEvents : string → string → Outcome (list GogEvent.t)).
Context (execFile : Processes).

(** The loop of [backfill] over the events of one source. *)
Fixpoint sourceEventsOfEvents (mapping : NormalMapping.t) (config : Config.t)
    (source : Source.t) (events : list GogEvent.t) : Outcome (list SourceEvent.t) :=
  match events with
  | [] => Returns []
  | event :: rest =>
      let* keep := taken mapping config event in
      let* later := sourceEventsOfEvents mapping config source rest in
      Returns (if keep : bool
               then SourceEvent.mk (Source.account source) (Source.calendarId source) event
                    :: later
               else later)
  end.

Fixpoint sourceEventsOfSources (mapping : NormalMapping.t) (config : Config.t)
    (sources : list Source.t) : Outcome (list SourceEvent.t) :=
  match sources with
  | [] => Returns []
  | source :: rest =>
      let* events := listEvents (Source.account source) (Source.calendarId source) in
      let* first := sourceEventsOfEvents mapping config source events in
      let* later := sourceEventsOfSources mapping config rest in
      Returns (first ++ later)
  end.

(** The six tests before [backfill] looks for the source of a target
    event. *)
Definition adoptable (config : Config.t) (target : GogEvent.t) : Outcome bool :=
  if isManaged target then Returns false
  else if negb (String.eqb (default "" (GogEvent.summary target)) (holdSummary config))
  then Returns false
  else
    let* excluded := excludedBySafety target config in
    if excluded : bool then Returns false
    else if negb (String.eqb (default "default" (GogEvent.visibility target)) "private")
    then Returns false
    else if negb (String.eqb (default "opaque" (GogEvent.transparency target)) "busy")
    then Returns false
    else match GogEvent.reminders target ≫= Reminders.overrides with
         | Some (_ :: _) => Returns false
         | _ => Returns true
         end.

(** The update [backfill] issues for a target event, if it issues one. *)
Definition adoption (mapping : NormalMapping.t) (config : Config.t)
    (sourceByRange : gmap string (list SourceEvent.t)) (target : GogEvent.t)
    : Outcome (option BackendCall) :=
  let* ok := adoptable config target in
  if negb ok then Returns None
  else match default [] (sourceByRange !! rangeKey target) with
       | [candidate] =>
           let sourceRef :=
             sourceRefOf (SourceEvent.account candidate) (SourceEvent.calendarId candidate)
               (SourceEvent.event candidate) in
           Returns (Some (UpdateEvent (NormalMapping.targetAccount mapping)
                            (NormalMapping.targetCalendarId mapping) (GogEvent.id target)
                            (adopted target sourceRef)))
       | _ => Returns None
       end.

(** One turn of the loop over the target events: the count [updated] and
    the calls made so far.  A call that fails ends the run with its
    exception. *)
Definition backfillTarget (client : Config.t) (mapping : NormalMapping.t)
    (config : Config.t) (dryRun : bool)
    (sourceByRange : gmap string (list SourceEvent.t))
    (state : Outcome (nat * list BackendCall)) (target : GogEvent.t)
    : Outcome (nat * list BackendCall) :=
  let* state := state in
  let* call := adoption mapping config sourceByRange target in
  match call with
  | None => Returns state
  | Some call =>
      if dryRun then Returns ((fst state + 1)%nat, snd state)
      else
        let* done := send execFile client (length (snd state)) call in
        Returns ((fst state + 1)%nat, snd state ++ [call])
  end.

Definition backfill (client : Config.t) (mapping : NormalMapping.t) (config : Config.t)
    (dryRun : bool) : Outcome (nat * list BackendCall) :=
  let* sourceEvents :=
    sourceEventsOfSources mapping config (NormalMapping.sources mapping) in
  let sourceByRange := foldl groupByRange ∅ sourceEvents in
  let* targetEvents :=
    listEvents (NormalMapping.targetAccount mapping)
      (NormalMapping.targetCalendarId mapping) in
  foldl (backfillTarget client mapping config dryRun sourceByRange) (Returns (0%nat, []))
    targetEvents.

End Backfill.

Definition eventFingerprint (event : GogEvent.t) : string :=
  let start :=
    default "" (orElse (GogEventTime.dateTime (GogEvent.start event))
                  (GogEventTime.date (GogEvent.start event))) in
  let end_ :=
    default "" (orElse (GogEventTime.dateTime (GogEvent.end_ event))
                  (GogEventTime.date (GogEvent.end_ event))) in
  joinWith "|"
    [GogEvent.id event; default "" (GogEvent.status event);
     default "" (GogEvent.updated event); default "" (GogEvent.etag event);
     start; end_; default "" (GogEvent.summary event)].

(** The line of one desired hold in the signature of [sourceSnapshot]. *)
Definition holdSignature (hold : DesiredHold.t) : string :=
  SourceRef.srcAccount (DesiredHold.source hold) +:+ "|"
  +:+ SourceRef.srcCalendar (DesiredHold.source hold) +:+ "|"
  +:+ eventFingerprint (DesiredHold.event hold).

(** The [signature] of [sourceSnapshot], from the desired holds collected. *)
Definition snapshotSignature (desiredHolds : list DesiredHold.t) : string :=
  joinWith newline (JsArray.sort Str.codeUnitCompare (map holdSignature desiredHolds)).

(** [sourceSnapshot]: the signature and the desired holds. *)
Definition sourceSnapshot `{RegExpEngine}
    (listEvents : string → string → Outcome (list GogEvent.t))
    (mapping : NormalMapping.t) (config : Config.t)
    : Outcome (string * list DesiredHold.t) :=
  let* desiredHolds := collectDesiredHoldsInWindow listEvents mapping config in
  Returns (snapshotSignature desiredHolds, desiredHolds).

(** *** Vocabulary of the further properties *)

(** The eight fields [isEquivalent] compares. *)
Definition comparedFields (event : GogEvent.t) :=
  (GogEvent.summary event, GogEvent.description event,
   GogEvent.visibility event, GogEvent.transparency event,
   GogEventTime.dateTime (GogEvent.start event), GogEventTime.date (GogEvent.start event),
   GogEventTime.dateTime (GogEvent.end_ event), GogEventTime.date (GogEvent.end_ event)).

(** The desired hold an action is about. *)
Definition planned (action : ReconcileAction) : option DesiredHold.t :=
  match action with
  | create desired | update _ desired | skip_overlap desired _ => Some desired
  | delete _ => None
  end.

(** The keys of the desired holds an action list is about. *)
Definition plannedKeys (actions : list ReconcileAction) : list string :=
  (λ d, holdKey (DesiredHold.source d)) <$> omap planned actions.

Definition isDelete (action : ReconcileAction) : bool :=
  match action with
  | delete _ => true
  | _ => false
  end.

(** *** What [validateConfig] asks of a configuration *)

Definition validSource (source : Source.t) : Prop :=
  Source.account source ≠ "" ∧ Source.calendarId source ≠ "".

(** An optional mode or policy passes when it is absent, empty or one of
    the allowed words. *)
Definition oneOf (allowed : list string) (value : option string) : Prop :=
  match truthy value with
  | Some word => word ∈ allowed
  | None => True
  end.

Definition validMapping (mapping : Mapping.t) : Prop :=
  Mapping.name mapping ≠ ""
  ∧ Mapping.targetAccount mapping ≠ ""
  ∧ Mapping.sources mapping ≠ []
  ∧ Forall validSource (Mapping.sources mapping)
  ∧ (∀ days, Mapping.lookaheadDays mapping = Some days → 1 <= days)
  ∧ oneOf ["ignore"; "mirror"] (Mapping.allDayMode mapping)
  ∧ oneOf ["skip"; "allow"] (Mapping.overlapPolicy mapping).

(** A command override passes when custom commands are allowed and it
    starts with the program [gog]. *)
Definition validCommand (config : Config.t) (key : CommandKey) : Prop :=
  match override config key with
  | Some cmd => customCommandsAllowed config = true ∧ startsWithGog cmd = true
  | None => True
  end.

Definition validConfiguration `{RegExpEngine} (config : Config.t) : Prop :=
  Config.mappings config ≠ []
  ∧ Forall validMapping (Config.mappings config)
  ∧ NoDup (Mapping.name <$> Config.mappings config)
  ∧ 1 <= changeBudget config
  ∧ (∀ seconds,
       Config.scheduling config ≫= Scheduling.watchIntervalSeconds = Some seconds →
       5 <= seconds)
  ∧ Forall (λ pattern, (utf16Length pattern <= 512)%nat ∧ RegExp_error pattern = None)
      (summaryPatterns config)
  ∧ (∀ key, validCommand config key).

Definition isCreate (action : ReconcileAction) : bool :=
  match action with
  | create _ => true
  | _ => false
  end.

Definition isUpdate (action : ReconcileAction) : bool :=
  match action with
  | update _ _ => true
  | _ => false
  end.

Definition isSkip (action : ReconcileAction) : bool :=
  match action with
  | skip_overlap _ _ => true
  | _ => false
  end.

(** The backend call of an action of a plan. *)
Definition callOf (mapping : NormalMapping.t) (action : ReconcileAction)
    : option BackendCall :=
  let account := NormalMapping.targetAccount mapping in
  let calendarId := NormalMapping.targetCalendarId mapping in
  match action with
  | create desired => Some (CreateEvent account calendarId (DesiredHold.event desired))
  | update existing desired =>
      Some (UpdateEvent account calendarId (GogEvent.id existing) (DesiredHold.event desired))
  | delete existing => Some (DeleteEvent account calendarId (GogEvent.id existing))
  | skip_overlap _ _ => None
  end.

(** The counters and the calls after a turn of the loop of [executePlan]
    in which the call, if one is made, does not fail. *)
Definition recordAction (mapping : NormalMapping.t) (dryRun : bool)
    (state : Counters.t * list BackendCall) (action : ReconcileAction)
    : Counters.t * list BackendCall :=
  let '(counters, calls) := state in
  (Counters.mk
     (Counters.creates counters + (if isCreate action then 1 else 0))
     (Counters.updates counters + (if isUpdate action then 1 else 0))
     (Counters.deletes counters + (if isDelete action then 1 else 0))
     (Counters.skipped counters + (if isSkip action then 1 else 0)),
   if dryRun then calls else calls ++ option_list (callOf mapping action)).

(** The first byte of a white space character of more than one byte. *)
Definition startsSpace (c : ascii) : bool :=
  let n := N_of_ascii c in
  ((n =? 194) || (n =? 225) || (n =? 226) || (n =? 227) || (n =? 239))%N.

(** A byte that a command line takes as it is, whatever follows it: not
    white space, not a quote, and not the first byte of a white space
    character of more than one byte. *)
Definition isPlain (c : ascii) : bool :=
  negb (Str.isSpace c) && negb (isQuote c) && negb (startsSpace c).

Fixpoint allChars (p : ascii → bool) (s : string) : bool :=
  match s with
  | EmptyString => true
  | String c rest => p c && allChars p rest
  end.

(** A word of a command line: not empty, and plain characters only. *)
Definition isWord (s : string) : bool := negb (Str.isEmpty s) && allChars isPlain s.

(** A character that [JSON.stringify] writes as it is and that is no quote
    and no backslash. *)
Definition isLiteral (c : ascii) : bool :=
  negb (N_of_ascii c <? 32)%N && negb (isQuote c) && negb (Ascii.eqb c Json.backslash).

(** The number of actions of a kind. *)
Definition countIf (kind : ReconcileAction → bool) (actions : list ReconcileAction) : nat :=
  length (filter (λ a, kind a = true) actions).

(** The changes a report counts. *)
Definition changesOf (counters : Counters.t) : nat :=
  (Counters.creates counters + Counters.updates counters + Counters.deletes counters)%nat.

(** A piece of a command line: text that is taken as it is, or a value
    that [quoteArg] puts into quotes. *)
Inductive Piece :=
| Plain (word : string)
| Quoted (value : string).

(** The text of a piece in the command line. *)
Definition pieceText (piece : Piece) : string :=
  match piece with
  | Plain word => word
  | Quoted value => quoteArg value
  end.

(** The argument a piece stands for. *)
Definition pieceValue (piece : Piece) : string :=
  match piece with
  | Plain word => word
  | Quoted value => value
  end.

(** Plain text without white space and quotes; a quoted value without
    quotes, backslashes and control characters. *)
Definition pieceClean (piece : Piece) : bool :=
  match piece with
  | Plain word => allChars isPlain word
  | Quoted value => allChars isLiteral value
  end.

(** Plain text that is empty leaves no argument. *)
Definition pieceCounts (piece : Piece) : bool :=
  match piece with
  | Plain word => negb (Str.isEmpty word)
  | Quoted _ => true
  end.

(** ** Hosts and inputs used in examples *)

(** Digits of a decimal field of an ISO instant. *)
Fixpoint decimal (digits : string) (acc : Z) : option Z :=
  match digits with
  | EmptyString => Some acc
  | String c rest =>
      let n := Z.of_N (N_of_ascii c) in
      if (48 <=? n) && (n <=? 57) then decimal rest (10 * acc + (n - 48)) else None
  end.

(** Days from 1970-01-01 to a date of the proleptic Gregorian calendar. *)
Definition daysFromCivil (y m d : Z) : Z :=
  let y := if m <=? 2 then y - 1 else y in
  let era := y / 400 in
  let yoe := y - era * 400 in
  let mp := (m + 9) mod 12 in
  let doy := (153 * mp + 2) / 5 + d - 1 in
  let doe := yoe * 365 + yoe / 4 - yoe / 100 + doy in
  era * 146097 + doe - 719468.

(** [Date.parse] on the one format the examples use,
    [YYYY-MM-DDTHH:mm:ss.sssZ]; every other text is [NaN]. *)
Definition parseInstant (value : string) : option Z :=
  if bool_decide (String.length value = 24%nat)
     && bool_decide (substring 4 1 value = "-") && bool_decide (substring 7 1 value = "-")
     && bool_decide (substring 10 1 value = "T") && bool_decide (substring 13 1 value = ":")
     && bool_decide (substring 16 1 value = ":") && bool_decide (substring 19 1 value = ".")
     && bool_decide (substring 23 1 value = "Z")
  then
    match decimal (substring 0 4 value) 0, decimal (substring 5 2 value) 0,
          decimal (substring 8 2 value) 0, decimal (substring 11 2 value) 0,
          decimal (substring 14 2 value) 0, decimal (substring 17 2 value) 0,
          decimal (substring 20 3 value) 0 with
    | Some y, Some m, Some d, Some hh, Some mm, Some ss, Some ms =>
        Some ((((daysFromCivil y m d * 24 + hh) * 60 + mm) * 60 + ss) * 1000 + ms)
    | _, _, _, _, _, _, _ => None
    end
  else None.

(** A host that compares ids by code units. *)
Definition codeUnitHost : Host :=
  {| localeCompare := Str.codeUnitCompare; Date_parse := parseInstant |}.

Definition keyLeft : SourceRef.t := SourceRef.mk "a::b" "c" "e" "s" "t" "x".
Definition keyRight : SourceRef.t := SourceRef.mk "a" "b::c" "e" "s" "t" "x".

Definition standup : SourceRef.t :=
  SourceRef.mk "source@example.com" "primary" "abc123"
    "2026-03-01T14:00:00.000Z" "2026-03-01T15:00:00.000Z" "Standup".
Definition standupRenamed : SourceRef.t :=
  SourceRef.mk "source@example.com" "primary" "abc123"
    "2026-03-01T14:00:00.000Z" "2026-03-01T15:00:00.000Z" "Daily".

(** The fixtures of reconcile.test.ts: [timedEvent(id, start, end)], and
    the fields the tests give to a hold that exists on the target. *)
Definition timedEvent (id start end_ : string) : GogEvent.t :=
  GogEvent.mk id None None None None None None None
    (GogEventTime.mk (Some start) None None) (GogEventTime.mk (Some end_) None None) None.

Definition held (description summary : string) (event : GogEvent.t) : GogEvent.t :=
  GogEvent.mk (GogEvent.id event) (GogEvent.etag event) (GogEvent.updated event)
    (Some summary) (Some description) (GogEvent.status event)
    (Some "private") (Some "busy")
    (GogEvent.start event) (GogEvent.end_ event) (GogEvent.reminders event).

Definition desiredHold (source : SourceRef.t) : DesiredHold.t :=
  DesiredHold.mk source
    (GogEvent.mk ("desired-" +:+ SourceRef.eventId source) None None (Some "Busy")
       (Some (encodeSourceRef source)) None (Some "private") (Some "busy")
       (GogEventTime.mk (Some (SourceRef.start source)) None None)
       (GogEventTime.mk (Some (SourceRef.end_ source)) None None)
       (Some (Reminders.mk (Some false) (Some [])))).

Definition fresh : SourceRef.t :=
  SourceRef.mk "source@example.com" "work" "fresh"
    "2026-03-01T12:00:00.000Z" "2026-03-01T12:30:00.000Z" "1:1".
Definition stale : SourceRef.t :=
  SourceRef.mk "source@example.com" "work" "stale"
    "2026-03-02T12:00:00.000Z" "2026-03-02T12:30:00.000Z" "Old".
Definition managedStale : GogEvent.t :=
  held (encodeSourceRef stale) "Busy"
    (timedEvent "managed-stale" (SourceRef.start stale) (SourceRef.end_ stale)).

Definition drifted : SourceRef.t :=
  SourceRef.mk "source@example.com" "work" "drifted"
    "2026-03-03T09:00:00.000Z" "2026-03-03T10:00:00.000Z" "Planning".
Definition driftedExisting : GogEvent.t :=
  held (encodeSourceRef drifted) "Not Busy"
    (timedEvent "managed-1" (SourceRef.start drifted) (SourceRef.end_ drifted)).

(** A desired hold whose event lost its description. *)
Definition untagged : DesiredHold.t :=
  DesiredHold.mk fresh
    (timedEvent "desired-fresh" (SourceRef.start fresh) (SourceRef.end_ fresh)).

(** An unmanaged event without any start or end value. *)
Definition broken : GogEvent.t :=
  GogEvent.mk "broken" None None (Some "Lunch") None None None None
    (GogEventTime.mk None None None) (GogEventTime.mk None None None) None.

(** Two unmanaged events that both overlap the hold for [fresh]. *)
Definition lunchA : GogEvent.t :=
  timedEvent "lunch-a" "2026-03-01T11:45:00.000Z" "2026-03-01T12:15:00.000Z".
Definition lunchB : GogEvent.t :=
  timedEvent "lunch-b" "2026-03-01T12:10:00.000Z" "2026-03-01T13:00:00.000Z".

(** Two managed events tagged for [fresh]; the first has drifted. *)
Definition dupA : GogEvent.t :=
  held (encodeSourceRef fresh) "Not Busy"
    (timedEvent "dup-a" (SourceRef.start fresh) (SourceRef.end_ fresh)).
Definition dupB : GogEvent.t :=
  held (encodeSourceRef fresh) "Busy"
    (timedEvent "dup-b" (SourceRef.start fresh) (SourceRef.end_ fresh)).

(** A host that collates the ids as the engines built on ICU do, on ids of
    ASCII letters and digits: letters in alphabetical order whatever their
    case, digits before letters, and a small letter before its capital when
    nothing else differs. *)
Definition foldCase (c : ascii) : ascii :=
  let n := N_of_ascii c in
  if ((65 <=? n) && (n <=? 90))%N then ascii_of_N (n + 32) else c.

Fixpoint foldCases (s : string) : string :=
  match s with
  | EmptyString => EmptyString
  | String c rest => String (foldCase c) (foldCases rest)
  end.

Definition collate (a b : string) : Z :=
  match String.compare (foldCases a) (foldCases b) with
  | Lt => -1
  | Gt => 1
  | Eq => Str.codeUnitCompare b a
  end.

Definition collatingHost : Host :=
  {| localeCompare := collate; Date_parse := parseInstant |}.

(** Two managed events tagged for [fresh] with the ids [B] and [a]. *)
Definition upperB : GogEvent.t :=
  held (encodeSourceRef fresh) "Not Busy"
    (timedEvent "B" (SourceRef.start fresh) (SourceRef.end_ fresh)).
Definition lowerA : GogEvent.t :=
  held (encodeSourceRef fresh) "Not Busy"
    (timedEvent "a" (SourceRef.start fresh) (SourceRef.end_ fresh)).

(** An engine for the examples: it knows the patterns [^text] of literal
    text and takes every other pattern for a syntax error. *)
Definition anchoredEngine : RegExpEngine :=
  {| RegExp_error pattern :=
       match pattern with
       | String "^" _ => None
       | _ => Some ("Invalid regular expression: /" +:+ pattern +:+ "/")
       end;
     RegExp_test pattern input := String.prefix (Str.drop 1 pattern) input |}.

(** The text of a built-in function, as Node prints it. *)
Definition nativeCode (name : string) : string :=
  "function " +:+ name +:+ "() { [native code] }".

(** The properties of [Object.prototype] in Node whose names a placeholder
    can hold. *)
Definition nodePrototype : ObjectPrototype :=
  {| inherited name :=
       if bool_decide (name ∈ ["hasOwnProperty"; "isPrototypeOf"; "propertyIsEnumerable";
                               "toLocaleString"; "toString"; "valueOf";
                               "__defineGetter__"; "__defineSetter__";
                               "__lookupGetter__"; "__lookupSetter__"])
       then Some (nativeCode name)
       else if String.eqb name "constructor" then Some (nativeCode "Object")
       else if String.eqb name "__proto__" then Some "[object Object]"
       else None |}.

(** The configuration of config.test.ts. *)
Definition m1 : Mapping.t :=
  Mapping.mk "m1" "target@example.com" (Some "primary")
    [Source.mk "src@example.com" "primary"] (Some 1) (Some "ignore") (Some "skip").

Definition validConfig : Config.t :=
  Config.mk [m1] None
    (Some (Scheduling.mk None None None (Some 900)))
    (Some (Safety.mk (Some true) (Some 10) (Some ["^OOO"]) (Some ["MANUAL:"])))
    None.

Definition withGog (gog : Gog.t) (config : Config.t) : Config.t :=
  Config.mk (Config.mappings config) (Config.hold config) (Config.scheduling config)
    (Config.safety config) (Some gog).

Definition withSafety (safety : Safety.t) (config : Config.t) : Config.t :=
  Config.mk (Config.mappings config) (Config.hold config) (Config.scheduling config)
    (Some safety) (Config.gog config).

Definition withScheduling (scheduling : Scheduling.t) (config : Config.t) : Config.t :=
  Config.mk (Config.mappings config) (Config.hold config) (Some scheduling)
    (Config.safety config) (Config.gog config).

(** A source event as the backend lists it. *)
Definition planning : GogEvent.t :=
  GogEvent.mk "evt-1" (Some "etag-1") (Some "2026-02-27T08:00:00.000Z") (Some "Planning")
    (Some "Quarterly planning") (Some "confirmed") None None
    (GogEventTime.mk (Some "2026-03-03T09:00:00.000Z") None (Some "Europe/Paris"))
    (GogEventTime.mk (Some "2026-03-03T10:00:00.000Z") None (Some "Europe/Paris")) None.

(** The same event after its title, etag and update time changed. *)
Definition planningRenamed : GogEvent.t :=
  GogEvent.mk "evt-1" (Some "etag-2") (Some "2026-02-28T08:00:00.000Z") (Some "Roadmap")
    (Some "Quarterly planning") (Some "confirmed") None None
    (GogEventTime.mk (Some "2026-03-03T09:00:00.000Z") None (Some "Europe/Paris"))
    (GogEventTime.mk (Some "2026-03-03T10:00:00.000Z") None (Some "Europe/Paris")) None.

(** An all-day event. *)
Definition offsite : GogEvent.t :=
  GogEvent.mk "evt-2" None None (Some "Offsite") None (Some "confirmed") None None
    (GogEventTime.mk None (Some "2026-03-05") None)
    (GogEventTime.mk None (Some "2026-03-06") None) None.

Definition cancelled : GogEvent.t :=
  GogEvent.mk "evt-3" None None (Some "Review") None (Some "cancelled") None None
    (GogEventTime.mk (Some "2026-03-04T09:00:00.000Z") None None)
    (GogEventTime.mk (Some "2026-03-04T10:00:00.000Z") None None) None.

(** A backend that lists three events for the source calendar of [m1]. *)
Definition listing (account calendarId : string) : Outcome (list GogEvent.t) :=
  if String.eqb account "src@example.com" && String.eqb calendarId "primary"
  then Returns [planning; offsite; cancelled]
  else Returns [].

(** The same backend after [planning] was renamed. *)
Definition listingRenamed (account calendarId : string) : Outcome (list GogEvent.t) :=
  if String.eqb account "src@example.com" && String.eqb calendarId "primary"
  then Returns [planningRenamed; offsite; cancelled]
  else Returns [].

(** A hold made by hand for [planning], before the tool ran. *)
Definition legacyHold : GogEvent.t :=
  GogEvent.mk "legacy-1" None None (Some "Busy") None None (Some "private") (Some "busy")
    (GogEventTime.mk (Some "2026-03-03T09:00:00.000Z") None None)
    (GogEventTime.mk (Some "2026-03-03T10:00:00.000Z") None None) None.

(** A backend with the source calendar of [m1] and its target calendar. *)
Definition calendars (account calendarId : string) : Outcome (list GogEvent.t) :=
  if String.eqb account "src@example.com" && String.eqb calendarId "primary"
  then Returns [planning; offsite; cancelled]
  else if String.eqb account "target@example.com" && String.eqb calendarId "primary"
  then Returns [legacyHold; lunchA]
  else Returns [].

(** U+00A0, the no-break space, in UTF-8. *)
Definition noBreakSpace : string := String "194" (String "160" "").

(** U+00E9, the letter e with an acute accent, in UTF-8. *)
Definition eAcute : string := String "195" (String "169" "").

Fixpoint repeated (n : nat) (text : string) : string :=
  match n with
  | O => ""
  | S n => text +:+ repeated n text
  end.

(** A pattern of 301 characters in 601 bytes. *)
Definition accentedPattern : string := "^" +:+ repeated 300 eAcute.

(** A mapping that lets holds overlap, and a hold without start and end. *)
Definition overlapping : NormalMapping.t :=
  NormalMapping.mk "m1" "target@example.com" "primary" [] 30 "ignore" "allow".

Definition rangeless : DesiredHold.t :=
  DesiredHold.mk fresh
    (GogEvent.mk "hold-fresh" None None (Some "Busy") (Some (encodeSourceRef fresh)) None
       (Some "private") (Some "busy")
       (GogEventTime.mk None None None) (GogEventTime.mk None None None) None).

(** * Properties of the metadata codec *)

#[local] Arguments String.append !_ _ / : simpl nomatch.

Section StringFacts.

Lemma append_assoc (a b c : string) : (a +:+ b) +:+ c = a +:+ (b +:+ c).
Proof. induction a as [|x a IH]; simpl; [reflexivity | by rewrite IH]. Qed.

Lemma append_nil_r (a : string) : a +:+ "" = a.
Proof. induction a as [|x a IH]; simpl; [reflexivity | by rewrite IH]. Qed.

Lemma length_append (a b : string) :
  String.length (a +:+ b) = (String.length a + String.length b)%nat.
Proof. induction a as [|x a IH]; simpl; [reflexivity | by rewrite IH]. Qed.

Lemma trimEnd_no_space (l : list ascii) :
  Forall (λ c, Str.isSpace c = false) l →
  Str.trimEnd (string_of_list_ascii l) = string_of_list_ascii l.
Proof.
  induction 1 as [|c l Hc _ IH]; simpl; [reflexivity |].
  by rewrite Hc, IH.
Qed.

Lemma trimStart_no_space (l : list ascii) :
  Forall (λ c, Str.isSpace c = false) l →
  Str.trimStart (string_of_list_ascii l) = string_of_list_ascii l.
Proof. destruct 1 as [|c l Hc _]; simpl; [reflexivity | by rewrite Hc]. Qed.

Lemma trim_no_space (l : list ascii) :
  Forall (λ c, Str.isSpace c = false) l →
  Str.trim (string_of_list_ascii l) = string_of_list_ascii l.
Proof.
  intros H. unfold Str.trim.
  by rewrite trimStart_no_space, trimEnd_no_space.
Qed.

End StringFacts.

Section Base64urlFacts.

Import Base64url.

Lemma list_ind3 {A} (P : list A → Prop) :
  P [] → (∀ a, P [a]) → (∀ a b, P [a; b]) →
  (∀ a b c l, P l → P (a :: b :: c :: l)) →
  ∀ l, P l.
Proof.
  intros H0 H1 H2 H3 l.
  cut (P l ∧ (∀ a, P (a :: l)) ∧ (∀ a b, P (a :: b :: l))); [tauto |].
  induction l as [|x l (IH0 & IH1 & IH2)]; [auto |].
  split; [apply IH1 |]. split; [intros a; apply IH2 |]. intros a b. by apply H3.
Qed.

Lemma unbase64_digit (v : ascii) : isSextet v → unbase64 (digit v) = Some v.
Proof.
  destruct v as [a b c d e f g h]. intros [-> ->].
  destruct a, b, c, d, e, f; reflexivity.
Qed.

Lemma digit_no_space (v : ascii) : isSextet v → Str.isSpace (digit v) = false.
Proof.
  destruct v as [a b c d e f g h]. intros [-> ->].
  destruct a, b, c, d, e, f; reflexivity.
Qed.

Lemma sextets_isSextet (bs : list ascii) : Forall isSextet (sextets bs).
Proof.
  induction bs as [| [] | [] [] | [] [] [] l IH] using list_ind3; simpl;
    repeat constructor; assumption.
Qed.

Lemma legal_digits (vs : list ascii) :
  Forall isSextet vs → legal (map digit vs) = vs.
Proof.
  induction 1 as [|v vs Hv _ IH]; simpl; [reflexivity |].
  by rewrite (unbase64_digit v Hv), IH.
Qed.

Lemma bytes_sextets (bs : list ascii) : bytes (sextets bs) = bs.
Proof.
  induction bs as [| [] | [] [] | [] [] [] l IH] using list_ind3; simpl;
    [reflexivity .. |]. by rewrite IH.
Qed.

Lemma decode_encode (s : string) : decode (encode s) = s.
Proof.
  unfold decode, encode.
  rewrite list_ascii_of_string_of_list_ascii.
  rewrite legal_digits by apply sextets_isSextet.
  by rewrite bytes_sextets, string_of_list_ascii_of_string.
Qed.

Lemma trim_encode (s : string) : Str.trim (encode s) = encode s.
Proof.
  unfold encode. apply trim_no_space.
  apply Forall_fmap. eapply Forall_impl; [apply sextets_isSextet |].
  intros v Hv. by apply digit_no_space.
Qed.

Lemma encode_not_empty (c : ascii) (s : string) :
  Str.isEmpty (encode (String c s)) = false.
Proof.
  unfold encode. simpl. destruct c.
  destruct (list_ascii_of_string s) as [| [] [| [] ?]]; reflexivity.
Qed.

End Base64urlFacts.

Section JsonFacts.

Import Json.

Lemma stringBody_escape (c : ascii) (tail : string) :
  stringBody (escape c +:+ tail) = prepend (String c "") (stringBody tail).
Proof.
  destruct c as [b0 b1 b2 b3 b4 b5 b6 b7].
  destruct b0, b1, b2, b3, b4, b5, b6, b7; reflexivity.
Qed.

Lemma stringBody_quoted (s rest : string) :
  stringBody (escapeAll s +:+ String dquote rest) = Some (s, rest).
Proof.
  induction s as [|c s IH]; simpl; [reflexivity |].
  by rewrite append_assoc, stringBody_escape, IH.
Qed.

Lemma quote_append (s rest : string) :
  quote s +:+ rest = String dquote (escapeAll s +:+ String dquote rest).
Proof. unfold quote. simpl. by rewrite append_assoc. Qed.

Lemma parseValue_quoted (fuel : nat) (s rest : string) :
  parseValue (S fuel) (quote s +:+ rest) = Some (Str s, rest).
Proof.
  rewrite quote_append. simpl. by rewrite stringBody_quoted.
Qed.

Lemma parseMembers_head (fuel : nat) (k v tail : string) :
  parseMembers (S (S fuel)) (memberText (stringMember (k, v)) +:+ tail) =
  match skipWs tail with
  | String ","%char rest =>
      match parseMembers (S fuel) rest with
      | Some (ms, rest') => Some ((k, Str v) :: ms, rest')
      | None => None
      end
  | String "}"%char rest => Some ([(k, Str v)], rest)
  | _ => None
  end.
Proof.
  unfold memberText, stringMember. cbn [fst snd stringify].
  rewrite !append_assoc, quote_append.
  cbn [parseMembers skipWs]. change (isWs dquote) with false. cbn iota.
  change (Ascii.eqb dquote dquote) with true. cbn iota.
  rewrite stringBody_quoted. cbn [skipWs append]. change (isWs ":") with false. cbn iota.
  rewrite parseValue_quoted. reflexivity.
Qed.

Lemma parseMembers_strings (ms : list (string * string)) :
  ms ≠ [] → ∀ fuel rest, (length ms < fuel)%nat →
  parseMembers fuel (join (map memberText (map stringMember ms)) +:+ String "}" rest) =
  Some (map stringMember ms, rest).
Proof.
  induction ms as [|[k v] ms IH]; [done |]. intros _ fuel rest Hfuel.
  destruct fuel as [|[|fuel]]; [simpl in Hfuel; lia .. |].
  destruct ms as [|kv ms].
  - cbn [map join]. rewrite parseMembers_head. reflexivity.
  - change (join (map memberText (map stringMember ((k, v) :: kv :: ms))))
      with (memberText (stringMember (k, v)) +:+ "," +:+
            join (map memberText (map stringMember (kv :: ms)))).
    rewrite !append_assoc, parseMembers_head.
    cbn [append skipWs]. change (isWs ",") with false. cbn iota.
    rewrite IH; [reflexivity | done | simpl in *; lia].
Qed.

Lemma join_length (parts : list string) :
  Forall (λ p, (1 <= String.length p)%nat) parts →
  (length parts <= String.length (join parts))%nat.
Proof.
  induction 1 as [|p parts Hp Hparts IH]; [simpl; lia |].
  destruct parts as [|q parts]; [simpl; lia |].
  change (join (p :: q :: parts)) with (p +:+ "," +:+ join (q :: parts)).
  rewrite !length_append. simpl in *. lia.
Qed.

Lemma parseValue_object (fuel : nat) (body rest : string) :
  parseValue (S fuel) ("{" +:+ String dquote body +:+ rest) =
  match parseMembers fuel (String dquote body +:+ rest) with
  | Some (ms, rest') => Some (Object ms, rest')
  | None => None
  end.
Proof. reflexivity. Qed.

Lemma memberTexts_quoted (ms : list (string * string)) :
  ms ≠ [] →
  ∃ body, join (map memberText (map stringMember ms)) = String dquote body.
Proof.
  destruct ms as [|[k v] [|kv ms]]; [done | |]; intros _; cbn [map join];
    unfold memberText, quote; simpl; eauto.
Qed.

Lemma parse_object_strings (ms : list (string * string)) :
  ms ≠ [] →
  parse (stringify (Object (map stringMember ms))) = Some (Object (map stringMember ms)).
Proof.
  intros Hms. unfold parse.
  change (stringify (Object (map stringMember ms)))
    with ("{" +:+ join (map memberText (map stringMember ms)) +:+ "}").
  assert (Hlen : (length ms <= String.length (join (map memberText (map stringMember ms))))%nat).
  { etrans; [| apply join_length].
    - by rewrite !length_map.
    - rewrite Forall_fmap, Forall_fmap. apply Forall_true. intros [k v].
      simpl. unfold memberText, quote. simpl. lia. }
  pose proof (parseMembers_strings ms Hms) as Hm.
  destruct (memberTexts_quoted ms Hms) as [body Hbody].
  rewrite Hbody in *.
  rewrite parseValue_object, Hm; [reflexivity |].
  cbn [append String.length]. rewrite length_append. cbn [String.length] in *. lia.
Qed.

End JsonFacts.

Section MetadataFacts.

Lemma sourceRefJson_members (source : SourceRef.t) :
  sourceRefJson source =
  Json.Object (map stringMember
    [("srcAccount", SourceRef.srcAccount source);
     ("srcCalendar", SourceRef.srcCalendar source);
     ("eventId", SourceRef.eventId source);
     ("start", SourceRef.start source);
     ("end", SourceRef.end_ source);
     ("title", SourceRef.title source)]).
Proof. reflexivity. Qed.

Lemma parse_sourceRefJson (source : SourceRef.t) :
  Json.parse (Json.stringify (sourceRefJson source)) = Some (sourceRefJson source).
Proof. rewrite sourceRefJson_members. by apply parse_object_strings. Qed.

Lemma decode_encodeSourceRef (source : SourceRef.t) :
  decodeSourceRef (Some (encodeSourceRef source)) = Some source.
Proof.
  unfold decodeSourceRef, encodeSourceRef.
  change (Str.isEmpty (METADATA_PREFIX +:+ _)) with false. cbn iota.
  change (Str.indexOf (METADATA_PREFIX +:+ ?x) METADATA_PREFIX) with 0.
  cbn [Z.ltb Z.compare].
  change (Str.slice (METADATA_PREFIX +:+ ?x) _) with x.
  rewrite trim_encode.
  change (Json.stringify (sourceRefJson source))
    with ("{" +:+ Json.join (map memberText
            (map stringMember
               [("srcAccount", SourceRef.srcAccount source);
                ("srcCalendar", SourceRef.srcCalendar source);
                ("eventId", SourceRef.eventId source);
                ("start", SourceRef.start source);
                ("end", SourceRef.end_ source);
                ("title", SourceRef.title source)]) ) +:+ "}") at 1.
  cbn [append]. rewrite encode_not_empty.
  change (String "{" ?x) with ("{" +:+ x).
  change ("{" +:+ _ +:+ "}") with (Json.stringify (sourceRefJson source)).
  rewrite decode_encode, parse_sourceRefJson.
  by destruct source.
Qed.

Lemma delimiterFree_tail (c : ascii) (s : string) :
  delimiterFree (String c s) = true → delimiterFree s = true.
Proof.
  simpl. destruct (Ascii.eqb c ":"); [| done].
  destruct s; [done |]. by intros [_ ?]%andb_prop.
Qed.

(** A clean field followed by the delimiter can be read back in one way. *)
Lemma delimiter_split (a a' r r' : string) :
  delimiterFree a = true → delimiterFree a' = true →
  a +:+ "::" +:+ r = a' +:+ "::" +:+ r' → a = a' ∧ r = r'.
Proof.
  revert a'. induction a as [|c a IH]; intros [|c' a'] Ha Ha' Heq; simpl in Heq.
  - by injection Heq as ->.
  - injection Heq as <- Heq. exfalso. simpl in Ha'.
    destruct a' as [|d a']; [done |]. simpl in Heq. injection Heq as <- _. done.
  - injection Heq as -> Heq. exfalso. simpl in Ha.
    destruct a as [|d a]; [done |]. simpl in Heq. injection Heq as -> _. done.
  - injection Heq as -> Heq.
    destruct (IH a' (delimiterFree_tail _ _ Ha) (delimiterFree_tail _ _ Ha') Heq) as [-> ->].
    done.
Qed.

End MetadataFacts.

(** C8.  The tag of a source record is the prefix [SYNCV1:] followed by the
    base64url text of its JSON text, the JSON text is the object of the six
    string properties, and decoding the tag gives the record back. *)
Theorem codec_round_trip (source : SourceRef.t) :
  encodeSourceRef source =
    "SYNCV1:" +:+ Base64url.encode (Json.stringify (sourceRefJson source))
  ∧ Json.parse (Json.stringify (sourceRefJson source)) = Some (sourceRefJson source)
  ∧ decodeSourceRef (Some (encodeSourceRef source)) = Some source.
Proof.
  split; [reflexivity |]. split.
  - apply parse_sourceRefJson.
  - apply decode_encodeSourceRef.
Qed.

(** C9, as stated, fails: a delimiter inside a field makes two records of
    different source events share a key. *)
Lemma holdKey_collision :
  holdKey keyLeft = holdKey keyRight ∧ ¬ sameOccurrence keyLeft keyRight.
Proof. split; [reflexivity |]. intros [H _]. discriminate H. Qed.

(** C9, amended.  Records that agree on account, calendar, event id, start
    and end have the same key, whatever their titles; and when the four
    fields that precede a delimiter are clean in both records, equal keys
    mean the same occurrence. *)
Theorem holdKey_same_occurrence (s1 s2 : SourceRef.t) :
  (sameOccurrence s1 s2 → holdKey s1 = holdKey s2) ∧
  (keyFieldsClean s1 → keyFieldsClean s2 →
   (holdKey s1 = holdKey s2 ↔ sameOccurrence s1 s2)).
Proof.
  assert (Hsame : sameOccurrence s1 s2 → holdKey s1 = holdKey s2).
  { intros (H1 & H2 & H3 & H4 & H5). unfold holdKey. congruence. }
  split; [exact Hsame |].
  intros (A1 & A2 & A3 & A4) (B1 & B2 & B3 & B4). split; [| exact Hsame].
  unfold holdKey. intros Heq.
  apply delimiter_split in Heq as [E1 Heq]; [| done ..].
  apply delimiter_split in Heq as [E2 Heq]; [| done ..].
  apply delimiter_split in Heq as [E3 Heq]; [| done ..].
  apply delimiter_split in Heq as [E4 E5]; [| done ..].
  by repeat split.
Qed.

Lemma holdKey_same_occurrence_witness :
  keyFieldsClean standup ∧ keyFieldsClean standupRenamed ∧
  (holdKey standup = holdKey standupRenamed ↔ sameOccurrence standup standupRenamed).
Proof.
  assert (H1 : keyFieldsClean standup) by (repeat split; reflexivity).
  assert (H2 : keyFieldsClean standupRenamed) by (repeat split; reflexivity).
  split; [exact H1 |]. split; [exact H2 |].
  exact (proj2 (holdKey_same_occurrence standup standupRenamed) H1 H2).
Defined.

(** * The tests of reconcile.test.ts, on the embedding *)

Example test_round_trip :
  String.prefix "SYNCV1:" (encodeSourceRef standup) = true ∧
  decodeSourceRef (Some (encodeSourceRef standup)) = Some standup.
Proof. split; by vm_compute. Qed.

Example test_tag_text :
  encodeSourceRef fresh =
  "SYNCV1:eyJzcmNBY2NvdW50Ijoic291cmNlQGV4YW1wbGUuY29tIiwic3JjQ2FsZW5kYXIiOiJ3b3JrIiwiZXZlbnRJZCI6ImZyZXNoIiwic3RhcnQiOiIyMDI2LTAzLTAxVDEyOjAwOjAwLjAwMFoiLCJlbmQiOiIyMDI2LTAzLTAxVDEyOjMwOjAwLjAwMFoiLCJ0aXRsZSI6IjE6MSJ9".
Proof. by vm_compute. Qed.

Example test_tag_inside_text :
  decodeSourceRef (Some ("Hold for " +:+ encodeSourceRef standup +:+ "  ")) = Some standup.
Proof. by vm_compute. Qed.

Example test_foreign_text : decodeSourceRef (Some "Lunch with Sam") = None.
Proof. by vm_compute. Qed.

Example test_partial_overlap :
  @isOverlap codeUnitHost
    (timedEvent "a" "2026-03-01T10:00:00.000Z" "2026-03-01T11:00:00.000Z")
    (timedEvent "b" "2026-03-01T10:30:00.000Z" "2026-03-01T11:30:00.000Z") = Ok true.
Proof. by vm_compute. Qed.

Example test_touching_boundaries :
  @isOverlap codeUnitHost
    (timedEvent "a" "2026-03-01T10:00:00.000Z" "2026-03-01T11:00:00.000Z")
    (timedEvent "b" "2026-03-01T11:00:00.000Z" "2026-03-01T12:00:00.000Z") = Ok false.
Proof. by vm_compute. Qed.

Example test_missing_range :
  @isOverlap codeUnitHost broken lunchA = Throw (MissingRange "broken").
Proof. by vm_compute. Qed.

Example test_updates_drifted :
  @planReconcile codeUnitHost [desiredHold drifted] [driftedExisting] allow 10 =
    Ok (ReconcilePlan.mk [update driftedExisting (desiredHold drifted)] 1 1 false)
  ∧ @planReconcile codeUnitHost [desiredHold drifted]
      [DesiredHold.event (desiredHold drifted)] allow 10 =
    Ok (ReconcilePlan.mk [] 1 1 false).
Proof. split; by vm_compute. Qed.

(** * Properties of the planner *)

Section ResultFacts.

Lemma bind_Ok {A B} (r : Result A) (k : A → Result B) (b : B) :
  bind r k = Ok b ↔ ∃ a, r = Ok a ∧ k a = Ok b.
Proof.
  destruct r as [a|e]; simpl.
  - split; [eauto |]. by intros (a' & [= <-] & Hk).
  - split; [done |]. intros (a' & ? & _); done.
Qed.

Lemma bind_Throw {A B} (r : Result A) (k : A → Result B) (e : Error) :
  bind r k = Throw e ↔ r = Throw e ∨ ∃ a, r = Ok a ∧ k a = Throw e.
Proof.
  destruct r as [a|e']; simpl.
  - split; [eauto |]. intros [Heq | (a' & [= <-] & Hk)]; [discriminate Heq | exact Hk].
  - split; [intros [= ->]; by left |].
    intros [[= ->] | (a' & Heq & _)]; [done | discriminate Heq].
Qed.

Lemma foldl_Throw {A K} (f : A → K → Result A) (e : Error) (keys : list K) :
  foldl (λ state key, do state <- state; f state key) (Throw e) keys = Throw e.
Proof. induction keys; simpl; auto. Qed.

End ResultFacts.

Section SplitFacts.

Lemma splitManaged_filter (targetEvents : list GogEvent.t) :
  splitManaged targetEvents =
  (filter (λ e, isManaged e = true) targetEvents,
   filter (λ e, isManaged e ≠ true) targetEvents).
Proof.
  induction targetEvents as [|e l IH]; simpl; [reflexivity |].
  rewrite IH, !filter_cons. destruct (isManaged e) eqn:He.
  - rewrite decide_True by done. rewrite decide_False by (intros ?; done). done.
  - rewrite decide_False by done. rewrite decide_True by done. done.
Qed.

Lemma isManaged_eventKey (e : GogEvent.t) :
  isManaged e = true ↔ is_Some (eventKey e).
Proof.
  unfold isManaged, eventKey. destruct (decodeSourceRef _); simpl; split;
    (done || eauto || by intros []).
Qed.

End SplitFacts.

Section GateFacts.
Context (maxChangesPerRun : Z).

Lemma run_app (w1 w2 : list ReconcileAction) (state : PlanState.t) :
  run maxChangesPerRun (w1 ++ w2) state =
  run maxChangesPerRun w2 (run maxChangesPerRun w1 state).
Proof. apply foldl_app. Qed.

Lemma run_deletes (events : list GogEvent.t) (state : PlanState.t) :
  foldl (λ state e, mutate maxChangesPerRun (delete e) state) state events =
  run maxChangesPerRun (map delete events) state.
Proof.
  revert state. induction events as [|e l IH]; intros state; simpl; [reflexivity |].
  by rewrite IH.
Qed.

End GateFacts.

Section WantedFacts.
Context `{Host}.
Context (unmanaged : list GogEvent.t)
        (managedByKey : gmap string (list GogEvent.t))
        (desiredByKey : gmap string DesiredHold.t)
        (overlapPolicy : OverlapPolicy)
        (maxChangesPerRun : Z).

Lemma planDesiredKey_wanted (state : PlanState.t) (key : string) :
  planDesiredKey unmanaged managedByKey desiredByKey overlapPolicy maxChangesPerRun
    state key =
  do wanted <- desiredKeyWanted unmanaged managedByKey desiredByKey overlapPolicy key;
  Ok (run maxChangesPerRun wanted state).
Proof.
  unfold planDesiredKey, desiredKeyWanted.
  destruct (desiredByKey !! key) as [desired|]; [| reflexivity].
  destruct (default [] (managedByKey !! key)) as [|primary duplicates].
  - destruct (match overlapPolicy with skip => _ | allow => _ end) as [[b|]|e];
      reflexivity.
  - simpl. rewrite run_deletes, run_app.
    by destruct (isEquivalent primary (DesiredHold.event desired)).
Qed.

Lemma planManagedKey_wanted (state : PlanState.t) (key : string) :
  planManagedKey managedByKey desiredByKey maxChangesPerRun state key =
  run maxChangesPerRun (managedKeyWanted managedByKey desiredByKey key) state.
Proof.
  unfold planManagedKey, managedKeyWanted.
  destruct (desiredByKey !! key); [reflexivity | apply run_deletes].
Qed.

Lemma desired_loop_wanted (keys : list string) (state : PlanState.t) :
  foldl (λ state key,
           do state <- state;
           planDesiredKey unmanaged managedByKey desiredByKey overlapPolicy
             maxChangesPerRun state key)
    (Ok state) keys =
  do wanted <- collect (desiredKeyWanted unmanaged managedByKey desiredByKey overlapPolicy) keys;
  Ok (run maxChangesPerRun wanted state).
Proof.
  revert state. induction keys as [|key keys IH]; intros state; simpl; [reflexivity |].
  rewrite planDesiredKey_wanted.
  destruct (desiredKeyWanted _ _ _ _ key) as [w|e]; simpl.
  - rewrite IH. destruct (collect _ keys); simpl; [| reflexivity].
    by rewrite run_app.
  - apply foldl_Throw.
Qed.

Lemma managed_loop_wanted (keys : list string) (state : PlanState.t) :
  foldl (planManagedKey managedByKey desiredByKey maxChangesPerRun) state keys =
  run maxChangesPerRun
    (concat (map (managedKeyWanted managedByKey desiredByKey) keys)) state.
Proof.
  revert state. induction keys as [|key keys IH]; intros state; simpl; [reflexivity |].
  by rewrite planManagedKey_wanted, IH, run_app.
Qed.

End WantedFacts.

Section PlanFacts.
Context `{Host}.

(** The planner is the budget applied to the wanted actions. *)
Lemma planReconcile_wanted desiredHolds targetEvents overlapPolicy maxChangesPerRun :
  planReconcile desiredHolds targetEvents overlapPolicy maxChangesPerRun =
  do wanted <- wantedActions desiredHolds targetEvents overlapPolicy;
  let state := run maxChangesPerRun wanted PlanState.initial in
  Ok (ReconcilePlan.mk (PlanState.actions state) (length desiredHolds)
        (length (filter (λ e, isManaged e = true) targetEvents))
        (PlanState.capped state)).
Proof.
  unfold planReconcile, wantedActions. rewrite splitManaged_filter.
  rewrite desired_loop_wanted.
  destruct (collect _ _) as [first|e]; simpl; [| reflexivity].
  by rewrite managed_loop_wanted, run_app.
Qed.

End PlanFacts.

Section SortFacts.
Context {A : Type} (compare : A → A → Z).

Lemma insert_Permutation (x : A) (l : list A) : JsArray.insert compare x l ≡ₚ x :: l.
Proof.
  induction l as [|y l IH]; simpl; [done |].
  destruct (compare x y <=? 0); [done |]. by rewrite IH, Permutation_swap.
Qed.

Lemma sort_Permutation (l : list A) : JsArray.sort compare l ≡ₚ l.
Proof.
  induction l as [|x l IH]; simpl; [done |]. by rewrite insert_Permutation, IH.
Qed.

Lemma elem_of_sort (x : A) (l : list A) : x ∈ JsArray.sort compare l ↔ x ∈ l.
Proof. by rewrite sort_Permutation. Qed.

Lemma length_sort (l : list A) : length (JsArray.sort compare l) = length l.
Proof. by rewrite sort_Permutation. Qed.

Context `{!Consistent compare}.

Lemma insert_sorted (x : A) (l : list A) :
  StronglySorted (sortsBefore compare) l →
  StronglySorted (sortsBefore compare) (JsArray.insert compare x l).
Proof.
  induction 1 as [|y l Hl IH Hy]; simpl; [repeat constructor |].
  destruct (Z.leb_spec (compare x y) 0) as [Hxy|Hxy].
  - constructor; [by constructor |]. constructor; [done |].
    eapply Forall_impl; [exact Hy |]. intros z Hz.
    by eapply consistent_trans.
  - constructor; [done |]. rewrite insert_Permutation. constructor; [| done].
    destruct (consistent_total (compare := compare) x y); [lia | done].
Qed.

Lemma sort_sorted (l : list A) : StronglySorted (sortsBefore compare) (JsArray.sort compare l).
Proof. induction l; simpl; [constructor | by apply insert_sorted]. Qed.

(** Where the comparator tells the elements apart, the result of the
    sort does not depend on the order of the input. *)
Lemma sort_unique (l1 l2 : list A) :
  (∀ x y, x ∈ l1 → y ∈ l1 → compare x y <= 0 → compare y x <= 0 → x = y) →
  l1 ≡ₚ l2 → JsArray.sort compare l1 = JsArray.sort compare l2.
Proof.
  intros Hanti Hperm.
  apply (StronglySorted_unique_strong (sortsBefore compare)); [| apply sort_sorted ..|].
  - intros x y Hx Hy. rewrite elem_of_sort in Hx.
    rewrite elem_of_sort, <- Hperm in Hy. by apply Hanti.
  - by rewrite !sort_Permutation.
Qed.

(** The sort is stable: elements that the comparator does not order keep
    the order they had. *)
Lemma insert_tied (e x : A) (l : list A) :
  filter (λ z, compare z e <= 0 ∧ compare e z <= 0) (JsArray.insert compare x l) =
  filter (λ z, compare z e <= 0 ∧ compare e z <= 0) (x :: l).
Proof.
  induction l as [|y l IH]; simpl; [done |].
  destruct (Z.leb_spec (compare x y) 0) as [Hxy|Hxy]; [done |].
  rewrite (filter_cons _ y), IH, !(filter_cons _ x), !(filter_cons _ y).
  destruct (decide (compare x e <= 0 ∧ compare e x <= 0)) as [[Hx1 Hx2]|Hx]; [| done].
  destruct (decide (compare y e <= 0 ∧ compare e y <= 0)) as [[Hy1 Hy2]|Hy]; [| done].
  pose proof (consistent_trans x e y Hx1 Hy2). lia.
Qed.

Lemma sort_stable (e : A) (l : list A) :
  filter (λ z, compare z e <= 0 ∧ compare e z <= 0) (JsArray.sort compare l) =
  filter (λ z, compare z e <= 0 ∧ compare e z <= 0) l.
Proof.
  induction l as [|x l IH]; simpl; [done |].
  by rewrite insert_tied, !filter_cons, IH.
Qed.

End SortFacts.

Section CodeUnitFacts.

Lemma codeUnitCompare_le (a b : string) :
  Str.codeUnitCompare a b <= 0 ↔ String.le a b.
Proof.
  unfold Str.codeUnitCompare, String.le, String.leb.
  destruct (String.compare a b); simpl; split; (done || lia).
Qed.

#[export] Instance codeUnitCompare_consistent : Consistent Str.codeUnitCompare.
Proof.
  split.
  - intros a b. rewrite !codeUnitCompare_le. apply total, _.
  - intros a b c. rewrite !codeUnitCompare_le. apply transitivity.
Qed.

Lemma codeUnitCompare_antisym (a b : string) :
  Str.codeUnitCompare a b <= 0 → Str.codeUnitCompare b a <= 0 → a = b.
Proof. rewrite !codeUnitCompare_le. apply anti_symm, _. Qed.

Lemma sortedKeys_Permutation {V} (m : gmap string V) :
  sortedKeys m ≡ₚ (map_to_list m).*1.
Proof. apply sort_Permutation. Qed.

Lemma elem_of_sortedKeys {V} (m : gmap string V) (key : string) :
  key ∈ sortedKeys m ↔ is_Some (m !! key).
Proof.
  rewrite sortedKeys_Permutation, list_elem_of_fmap. split.
  - intros [[k v] [-> Hkv]]. apply elem_of_map_to_list in Hkv. eauto.
  - intros [v Hv]. exists (key, v). split; [done |]. by apply elem_of_map_to_list.
Qed.

Lemma NoDup_sortedKeys {V} (m : gmap string V) : NoDup (sortedKeys m).
Proof. rewrite sortedKeys_Permutation. apply NoDup_fst_map_to_list. Qed.

(** The order in which the map hands out its keys does not matter. *)
Lemma sortedKeys_any_order {V} (m : gmap string V) (keys : list string) :
  keys ≡ₚ (map_to_list m).*1 → JsArray.sort Str.codeUnitCompare keys = sortedKeys m.
Proof.
  intros Hperm. apply sort_unique; [apply _ | | done].
  intros a b _ _. apply codeUnitCompare_antisym.
Qed.

Lemma sortedKeys_singleton {V} (key : string) (v : V) : sortedKeys {[key := v]} = [key].
Proof. unfold sortedKeys. by rewrite map_to_list_singleton. Qed.

End CodeUnitFacts.

Section IndexFacts.

Lemma groupManaged_lookup (events : list GogEvent.t) (key : string) :
  ∀ m : gmap string (list GogEvent.t),
  foldl groupManaged m events !! key =
  match filter (hasKey key) events with
  | [] => m !! key
  | found => Some (default [] (m !! key) ++ found)
  end.
Proof.
  induction events as [|e l IH]; intros m; simpl; [reflexivity |].
  rewrite IH, filter_cons.
  destruct (decide (hasKey key e)) as [Hk|Hk]; unfold hasKey, eventKey in Hk;
    unfold groupManaged;
    destruct (decodeSourceRef (GogEvent.description e)) as [source|]; simpl in Hk;
    try done.
  - injection Hk as <-. rewrite lookup_insert_eq. simpl.
    destruct (filter _ l); by rewrite <- ?app_assoc.
  - rewrite lookup_insert_ne by congruence. done.
Qed.

Context `{Host}.

(** The events under a key are the managed events of that key, in the
    order of their ids. *)
Lemma managedIndex_bucket (managed : list GogEvent.t) (key : string) :
  default [] (managedIndex managed !! key) =
  filter (hasKey key) (JsArray.sort compareIds managed).
Proof.
  unfold managedIndex. rewrite groupManaged_lookup, lookup_empty.
  by destruct (filter _ _).
Qed.

Lemma managedIndex_is_Some (managed : list GogEvent.t) (key : string) :
  is_Some (managedIndex managed !! key) ↔ ∃ e, e ∈ managed ∧ hasKey key e.
Proof.
  unfold managedIndex. rewrite groupManaged_lookup, lookup_empty.
  destruct (filter _ _) as [|e l] eqn:Hf.
  - split; [by intros [] |]. intros (e & He & Hk). exfalso.
    assert (e ∈ filter (hasKey key) (JsArray.sort compareIds managed)) as He'.
    { apply list_elem_of_filter. split; [done |]. by apply elem_of_sort. }
    rewrite Hf in He'. by apply not_elem_of_nil in He'.
  - split; [| eauto]. intros _. exists e.
    assert (e ∈ filter (hasKey key) (JsArray.sort compareIds managed)) as He'
      by (rewrite Hf; left).
    apply list_elem_of_filter in He' as [? He']. by apply elem_of_sort in He'.
Qed.

Lemma indexDesired_lookup (desiredHolds : list DesiredHold.t) (key : string) :
  ∀ m : gmap string DesiredHold.t,
  foldl indexDesired m desiredHolds !! key =
  match desiredFor key desiredHolds with
  | Some d => Some d
  | None => m !! key
  end.
Proof.
  unfold desiredFor.
  induction desiredHolds as [|d l IH]; intros m; simpl; [reflexivity |].
  rewrite IH, filter_cons.
  destruct (decide (holdKey (DesiredHold.source d) = key)) as [<-|Hne].
  - rewrite last_cons. destruct (last _); [done |].
    unfold indexDesired. by rewrite lookup_insert_eq.
  - destruct (last _); [done |]. unfold indexDesired. by rewrite lookup_insert_ne.
Qed.

Lemma desiredIndex_lookup (desiredHolds : list DesiredHold.t) (key : string) :
  desiredIndex desiredHolds !! key = desiredFor key desiredHolds.
Proof.
  unfold desiredIndex. rewrite indexDesired_lookup, lookup_empty.
  by destruct (desiredFor _ _).
Qed.

End IndexFacts.

Section RunFacts.
Context (maxChangesPerRun : Z).

#[local] Abbreviation run := (run maxChangesPerRun).

Lemma mutations_cons (a : ReconcileAction) (w : list ReconcileAction) :
  mutations (a :: w) = ((if isMutation a then 1 else 0) + mutations w)%nat.
Proof. unfold mutations. rewrite filter_cons. by destruct (isMutation a). Qed.

Lemma mutations_app (w1 w2 : list ReconcileAction) :
  mutations (w1 ++ w2) = (mutations w1 + mutations w2)%nat.
Proof. unfold mutations. by rewrite filter_app, length_app. Qed.

(** What a run keeps: a part of the wanted actions with every report in
    it, and as many mutations as it counted. *)
Lemma run_kept (wanted : list ReconcileAction) :
  ∀ state, ∃ kept,
    PlanState.actions (run wanted state) = PlanState.actions state ++ kept ∧
    sublist kept wanted ∧
    filter (λ a, isMutation a = false) kept = filter (λ a, isMutation a = false) wanted ∧
    PlanState.changes (run wanted state) =
      PlanState.changes state + Z.of_nat (mutations kept).
Proof.
  induction wanted as [|a w IH]; intros state.
  { exists []. simpl. rewrite app_nil_r. change (mutations []) with 0%nat.
    repeat split; [done | lia]. }
  destruct (IH (gate maxChangesPerRun state a)) as (kept & Hact & Hsub & Hrep & Hch).
  change (run (a :: w) state) with (run w (gate maxChangesPerRun state a)).
  unfold gate, mutate, report in *.
  destruct (isMutation a) eqn:Ha; [destruct (_ >=? _) |]; simpl in *.
  - exists kept. repeat split; try done.
    + by apply sublist_cons.
    + rewrite Hrep, (filter_cons _ a), decide_False; [done | by rewrite Ha].
  - exists (a :: kept). rewrite Hact, <- app_assoc. repeat split.
    + by apply sublist_skip.
    + by rewrite !filter_cons, Hrep.
    + rewrite Hch, mutations_cons, Ha. lia.
  - exists (a :: kept). rewrite Hact, <- app_assoc. repeat split.
    + by apply sublist_skip.
    + by rewrite !filter_cons, Hrep.
    + rewrite Hch, mutations_cons, Ha. lia.
Qed.

Lemma run_within (wanted : list ReconcileAction) :
  ∀ state, PlanState.changes state <= maxChangesPerRun →
  PlanState.changes (run wanted state) <= maxChangesPerRun.
Proof.
  induction wanted as [|a w IH]; intros state Hle; [done |].
  change (run (a :: w) state) with (run w (gate maxChangesPerRun state a)).
  apply IH. unfold gate, mutate, report.
  destruct (isMutation a); [| done].
  destruct (Z.geb_spec (PlanState.changes state) maxChangesPerRun); simpl; lia.
Qed.

(** A budget that suffices lets every wanted action through. *)
Lemma run_fits (wanted : list ReconcileAction) :
  ∀ state,
  PlanState.changes state + Z.of_nat (mutations wanted) <= maxChangesPerRun →
  run wanted state =
  PlanState.mk (PlanState.actions state ++ wanted)
    (PlanState.changes state + Z.of_nat (mutations wanted)) (PlanState.capped state).
Proof.
  induction wanted as [|a w IH]; intros state Hle.
  { destruct state. change (mutations []) with 0%nat. simpl.
    rewrite app_nil_r. f_equal. lia. }
  change (run (a :: w) state) with (run w (gate maxChangesPerRun state a)).
  rewrite mutations_cons in Hle |- *.
  unfold gate, mutate, report. destruct (isMutation a).
  - destruct (Z.geb_spec (PlanState.changes state) maxChangesPerRun); [lia |].
    rewrite IH; simpl; [| lia]. rewrite <- app_assoc. f_equal. lia.
  - rewrite IH; simpl; [| lia]. rewrite <- app_assoc. f_equal.
Qed.

Lemma run_capped_stays (wanted : list ReconcileAction) :
  ∀ state, PlanState.capped state = true → PlanState.capped (run wanted state) = true.
Proof.
  induction wanted as [|a w IH]; intros state Hc; [done |].
  change (run (a :: w) state) with (run w (gate maxChangesPerRun state a)).
  apply IH. unfold gate, mutate, report.
  destruct (isMutation a); [destruct (_ >=? _) |]; done.
Qed.

(** A budget that does not suffice is used up, and the plan says so. *)
Lemma run_exceeds (wanted : list ReconcileAction) :
  ∀ state,
  PlanState.changes state <= maxChangesPerRun →
  maxChangesPerRun < PlanState.changes state + Z.of_nat (mutations wanted) →
  PlanState.changes (run wanted state) = maxChangesPerRun ∧
  PlanState.capped (run wanted state) = true.
Proof.
  induction wanted as [|a w IH]; intros state Hle Hlt.
  { simpl in Hlt. change (mutations []) with 0%nat in Hlt. lia. }
  change (run (a :: w) state) with (run w (gate maxChangesPerRun state a)).
  rewrite mutations_cons in Hlt.
  unfold gate, mutate, report. destruct (isMutation a).
  - destruct (Z.geb_spec (PlanState.changes state) maxChangesPerRun) as [Hge|Hlt'].
    + split; [| by apply run_capped_stays].
      assert (PlanState.changes state = maxChangesPerRun) as Heq by lia.
      pose proof (run_within w (PlanState.mk (PlanState.actions state)
                    (PlanState.changes state) true) Hle) as Hw.
      destruct (run_kept w (PlanState.mk (PlanState.actions state)
                    (PlanState.changes state) true)) as (kept & _ & _ & _ & Hch).
      simpl in *. lia.
    + apply IH; simpl; lia.
  - apply IH; simpl; lia.
Qed.

End RunFacts.


Section SubjectFacts.

Lemma subjects_app (w1 w2 : list ReconcileAction) :
  subjects (w1 ++ w2) = subjects w1 ++ subjects w2.
Proof. apply omap_app. Qed.

Lemma subjects_deletes (events : list GogEvent.t) : subjects (map delete events) = events.
Proof.
  induction events as [|e l IH]; [done |].
  change (subjects (map delete (e :: l))) with (e :: subjects (map delete l)).
  by rewrite IH.
Qed.

Lemma subjects_concat (ws : list (list ReconcileAction)) :
  subjects (concat ws) = concat (map subjects ws).
Proof.
  induction ws as [|w ws IH]; [done |]. simpl. by rewrite subjects_app, IH.
Qed.

Lemma subjects_sublist (w1 w2 : list ReconcileAction) :
  sublist w1 w2 → sublist (subjects w1) (subjects w2).
Proof.
  induction 1 as [|a w1 w2 _ IH|a w1 w2 _ IH]; unfold subjects in *; simpl.
  - constructor.
  - destruct (subject a); [by constructor | done].
  - destruct (subject a); [by constructor | done].
Qed.

Lemma elem_of_concat_map {A K} (g : K → list A) (keys : list K) (a : A) :
  a ∈ concat (map g keys) ↔ ∃ k, k ∈ keys ∧ a ∈ g k.
Proof.
  induction keys as [|k keys IH]; simpl.
  - split; [by intros ?%elem_of_nil | by intros (k & ?%elem_of_nil & _)].
  - rewrite elem_of_app, IH. split.
    + intros [Ha | (k' & Hk' & Ha)]; [exists k; split; [left | done] |].
      exists k'. split; [by right | done].
    + intros (k' & [->|Hk']%elem_of_cons & Ha); [by left |]. right. eauto.
Qed.

Lemma hasKey_functional (k1 k2 : string) (e : GogEvent.t) :
  hasKey k1 e → hasKey k2 e → k1 = k2.
Proof. unfold hasKey. congruence. Qed.

(** Lists taken from the events of pairwise different keys fit together
    in the list of all events. *)
Lemma concat_buckets (g : string → list GogEvent.t) (keys : list string) :
  NoDup keys →
  ∀ events, (∀ k, k ∈ keys → g k ⊆+ filter (hasKey k) events) →
  concat (map g keys) ⊆+ events.
Proof.
  induction 1 as [|k keys Hk Hkeys IH]; intros events Hg; simpl.
  { apply submseteq_nil_l. }
  rewrite <- (filter_app_complement (hasKey k) events).
  apply submseteq_app; [apply Hg; left |].
  apply IH. intros k' Hk'. rewrite list_filter_filter.
  erewrite list_filter_iff; [apply Hg; by right |].
  intros e. split; [tauto |]. intros He. split; [done |].
  intros He'. apply Hk. by rewrite (hasKey_functional _ _ _ He' He).
Qed.

Lemma collect_Ok {A B} (f : A → Result (list B)) (l : list A) (ys : list B) :
  collect f l = Ok ys →
  ys = concat (map (λ x, match f x with Ok w => w | Throw _ => [] end) l) ∧
  Forall (λ x, ∃ w, f x = Ok w) l.
Proof.
  revert ys. induction l as [|x l IH]; intros ys; simpl.
  - intros [= <-]. by split.
  - destruct (f x) as [w|e] eqn:Hx; simpl; [| done].
    destruct (collect f l) as [zs|e]; simpl; [| done].
    intros [= <-]. destruct (IH zs eq_refl) as [-> Hl]. split; [done |].
    constructor; eauto.
Qed.

Context `{Host}.

Lemma desiredKeyWanted_subjects unmanaged managedByKey desiredByKey overlapPolicy key w :
  desiredKeyWanted unmanaged managedByKey desiredByKey overlapPolicy key = Ok w →
  sublist (subjects w) (default [] (managedByKey !! key)) ∧
  (desiredByKey !! key = None → w = []).
Proof.
  unfold desiredKeyWanted. destruct (desiredByKey !! key) as [desired|].
  2:{ intros [= <-]. split; [apply sublist_nil_l | done]. }
  destruct (default [] (managedByKey !! key)) as [|primary duplicates].
  - intros (blocker & _ & Hw)%bind_Ok. split; [| done].
    destruct blocker; injection Hw as <-; constructor.
  - intros [= <-]. split; [| done]. rewrite subjects_app, subjects_deletes.
    destruct (isEquivalent _ _); simpl; [by apply sublist_cons | done].
Qed.

(** Every event that a wanted action changes or removes is a managed
    target event, and no event is the subject of two wanted actions. *)
Lemma wantedActions_subjects desiredHolds targetEvents overlapPolicy wanted :
  wantedActions desiredHolds targetEvents overlapPolicy = Ok wanted →
  subjects wanted ⊆+ filter (λ e, isManaged e = true) targetEvents.
Proof.
  unfold wantedActions. rewrite splitManaged_filter.
  set (managed := filter (λ e, isManaged e = true) targetEvents).
  set (unmanaged := filter _ targetEvents).
  set (desiredByKey := desiredIndex desiredHolds).
  intros (first & Hfirst & [= <-])%bind_Ok.
  apply collect_Ok in Hfirst as [-> Hall].
  trans (JsArray.sort compareIds managed);
    [| apply Permutation_submseteq, sort_Permutation].
  pose (sorted := JsArray.sort compareIds managed). fold sorted.
  trans (filter (keyDesired desiredByKey) sorted
         ++ filter (λ e, ¬ keyDesired desiredByKey e) sorted);
    [| apply Permutation_submseteq, filter_app_complement].
  rewrite subjects_app, !subjects_concat, !map_map.
  apply submseteq_app.
  - apply concat_buckets; [apply NoDup_sortedKeys |].
    intros k Hk. apply elem_of_sortedKeys in Hk.
    rewrite list_filter_filter.
    rewrite (list_filter_iff (λ e, hasKey k e ∧ keyDesired desiredByKey e) (hasKey k)).
    2:{ intros e. split; [tauto |]. intros He. split; [done |].
        unfold keyDesired. by rewrite He. }
    destruct (desiredKeyWanted _ _ _ _ k) as [w|] eqn:Hw; [| apply submseteq_nil_l].
    apply desiredKeyWanted_subjects in Hw as [Hw _].
    rewrite managedIndex_bucket in Hw. by apply sublist_submseteq.
  - apply concat_buckets; [apply NoDup_sortedKeys |].
    intros k Hk. unfold managedKeyWanted.
    destruct (desiredByKey !! k) as [d|] eqn:Hd; [apply submseteq_nil_l |].
    rewrite subjects_deletes, managedIndex_bucket, list_filter_filter.
    rewrite (list_filter_iff (λ e, hasKey k e ∧ ¬ keyDesired desiredByKey e) (hasKey k));
      [done |].
    intros e. split; [tauto |]. intros He. split; [done |].
    unfold keyDesired. rewrite He, Hd. by intros [].
Qed.

Lemma plan_subjects desiredHolds targetEvents overlapPolicy maxChangesPerRun plan :
  planReconcile desiredHolds targetEvents overlapPolicy maxChangesPerRun = Ok plan →
  subjects (ReconcilePlan.actions plan) ⊆+ filter (λ e, isManaged e = true) targetEvents.
Proof.
  rewrite planReconcile_wanted. intros (wanted & Hwanted & [= <-])%bind_Ok. simpl.
  destruct (run_kept maxChangesPerRun wanted PlanState.initial) as (kept & -> & Hsub & _).
  simpl. etrans; [| by eapply wantedActions_subjects].
  by apply sublist_submseteq, subjects_sublist.
Qed.

Lemma find_hit {A} (p : A → Result bool) (l : list A) (x : A) :
  JsArray.find p l = Ok (Some x) → x ∈ l ∧ p x = Ok true.
Proof.
  induction l as [|y l IH]; simpl; [done |].
  intros ([] & Hy & Hl)%bind_Ok.
  - injection Hl as <-. split; [left | done].
  - destruct (IH Hl). split; [by right | done].
Qed.

(** A skip names an unmanaged target event that overlaps the desired
    event; only the policy [skip] produces one. *)
Lemma plan_skips desiredHolds targetEvents overlapPolicy maxChangesPerRun plan desired b :
  planReconcile desiredHolds targetEvents overlapPolicy maxChangesPerRun = Ok plan →
  skip_overlap desired b ∈ ReconcilePlan.actions plan →
  overlapPolicy = skip ∧
  ∃ blocker, blocker ∈ targetEvents ∧ isManaged blocker = false ∧
             GogEvent.id blocker = b ∧
             isOverlap blocker (DesiredHold.event desired) = Ok true.
Proof.
  rewrite planReconcile_wanted. intros (wanted & Hwanted & [= <-])%bind_Ok. simpl.
  destruct (run_kept maxChangesPerRun wanted PlanState.initial) as (kept & -> & Hsub & _).
  simpl. intros Hin. eapply elem_of_sublist in Hin; [| exact Hsub].
  unfold wantedActions in Hwanted. rewrite splitManaged_filter in Hwanted.
  apply bind_Ok in Hwanted as (first & Hfirst & [= <-]).
  apply elem_of_app in Hin as [Hin | Hin].
  - apply collect_Ok in Hfirst as [-> Hall].
    apply elem_of_concat_map in Hin as (key & Hkey & Hin).
    eapply Forall_forall in Hall as [w Hw]; [| exact Hkey].
    rewrite Hw in Hin. unfold desiredKeyWanted in Hw.
    destruct (desiredIndex desiredHolds !! key) as [d|];
      [| injection Hw as <-; by apply elem_of_nil in Hin].
    destruct (default [] _) as [|primary duplicates].
    + apply bind_Ok in Hw as (r & Hr & Hw).
      destruct r as [blocker|]; injection Hw as <-;
        apply list_elem_of_singleton in Hin; [| done].
      injection Hin as -> ->.
      destruct overlapPolicy; [| done]. split; [done |].
      apply find_hit in Hr as [[Hm Hb]%list_elem_of_filter Hp].
      exists blocker. repeat split; try done. by destruct (isManaged blocker).
    + injection Hw as <-. exfalso.
      apply elem_of_app in Hin as [Hin | Hin].
      * destruct (isEquivalent _ _); [by apply elem_of_nil in Hin |].
        by apply list_elem_of_singleton in Hin.
      * by apply list_elem_of_fmap in Hin as (x & [=] & _).
  - exfalso. apply elem_of_concat_map in Hin as (key & _ & Hin).
    unfold managedKeyWanted in Hin.
    destruct (desiredIndex desiredHolds !! key); [by apply elem_of_nil in Hin |].
    by apply list_elem_of_fmap in Hin as (x & [=] & _).
Qed.

End SubjectFacts.

(** C4.  An update or a delete of a plan names a target event whose
    description decodes to a source record.  An event whose description does
    not decode is put with the unmanaged events and is the subject of no
    action; the plan names such events only as the blocking event of a
    skip, which is an unmanaged target event overlapping the desired one.
    And a description that is absent, lacks the prefix, or carries a payload
    that is no JSON text or no object with the six string properties decodes
    to nothing. *)
Theorem unmanaged_untouched `{Host} (desiredHolds : list DesiredHold.t)
    (targetEvents : list GogEvent.t) (overlapPolicy : OverlapPolicy)
    (maxChangesPerRun : Z) (plan : ReconcilePlan.t) :
  planReconcile desiredHolds targetEvents overlapPolicy maxChangesPerRun = Ok plan →
  (∀ action existing,
     action ∈ ReconcilePlan.actions plan → subject action = Some existing →
     existing ∈ targetEvents ∧ is_Some (decodeSourceRef (GogEvent.description existing)))
  ∧ (∀ event action,
       decodeSourceRef (GogEvent.description event) = None →
       action ∈ ReconcilePlan.actions plan → subject action ≠ Some event)
  ∧ (∀ event,
       event ∈ targetEvents → decodeSourceRef (GogEvent.description event) = None →
       event ∈ snd (splitManaged targetEvents))
  ∧ (∀ desired blockingEventId,
       skip_overlap desired blockingEventId ∈ ReconcilePlan.actions plan →
       ∃ blocker, blocker ∈ targetEvents ∧
                  decodeSourceRef (GogEvent.description blocker) = None ∧
                  GogEvent.id blocker = blockingEventId ∧
                  isOverlap blocker (DesiredHold.event desired) = Ok true)
  ∧ decodeSourceRef None = None
  ∧ (∀ text, Str.indexOf text METADATA_PREFIX < 0 → decodeSourceRef (Some text) = None)
  ∧ (∀ text,
       Json.parse (Base64url.decode (Str.trim (Str.slice text
         (Str.indexOf text METADATA_PREFIX + Z.of_nat (String.length METADATA_PREFIX)))))
       = None →
       decodeSourceRef (Some text) = None)
  ∧ (∀ text parsed name,
       Json.parse (Base64url.decode (Str.trim (Str.slice text
         (Str.indexOf text METADATA_PREFIX + Z.of_nat (String.length METADATA_PREFIX)))))
       = Some parsed →
       name ∈ ["srcAccount"; "srcCalendar"; "eventId"; "start"; "end"; "title"] →
       stringProperty parsed name = None →
       decodeSourceRef (Some text) = None).
Proof.
  intros Hplan.
  assert (Hsubj : ∀ action existing,
     action ∈ ReconcilePlan.actions plan → subject action = Some existing →
     existing ∈ targetEvents ∧ is_Some (decodeSourceRef (GogEvent.description existing))).
  { intros action existing Ha Hs.
    assert (existing ∈ filter (λ e, isManaged e = true) targetEvents) as He.
    { eapply elem_of_submseteq; [| by eapply plan_subjects].
      apply list_elem_of_omap. eauto. }
    apply list_elem_of_filter in He as [Hm He]. split; [done |].
    unfold isManaged in Hm. by destruct (decodeSourceRef _). }
  split; [exact Hsubj |]. split; [| split; [| split; [| split; [| split; [| split]]]]].
  - intros event action Hnone Ha Hs.
    destruct (Hsubj action event Ha Hs) as [_ [s Hsome]]. congruence.
  - intros event Hevent Hnone. rewrite splitManaged_filter. simpl.
    apply list_elem_of_filter. split; [| done]. unfold isManaged. by rewrite Hnone.
  - intros desired b Hskip.
    destruct (plan_skips _ _ _ _ _ _ _ Hplan Hskip) as (_ & blocker & Hb & Hm & Hid & Ho).
    exists blocker. repeat split; try done.
    unfold isManaged in Hm. by destruct (decodeSourceRef _).
  - reflexivity.
  - intros text Hidx. unfold decodeSourceRef.
    destruct (Str.isEmpty text); [done |].
    by destruct (Z.ltb_spec (Str.indexOf text METADATA_PREFIX) 0); [| lia].
  - intros text Hparse. unfold decodeSourceRef.
    destruct (Str.isEmpty text); [done |]. destruct (_ <? 0); [done |].
    destruct (Str.isEmpty _); [done |]. by rewrite Hparse.
  - intros text parsed name Hparse Hname Hprop. unfold decodeSourceRef.
    destruct (Str.isEmpty text); [done |]. destruct (_ <? 0); [done |].
    destruct (Str.isEmpty _); [done |]. rewrite Hparse.
    rewrite !elem_of_cons, elem_of_nil in Hname.
    destruct Hname as [->|[->|[->|[->|[->|[->|[]]]]]]]; rewrite Hprop;
      repeat case_match; done.
Qed.

(** C10.  When the target events have pairwise different ids, the events
    that the updates and deletes of a plan name have pairwise different ids
    too: no event is the subject of two actions. *)
Theorem one_action_per_event `{Host} (desiredHolds : list DesiredHold.t)
    (targetEvents : list GogEvent.t) (overlapPolicy : OverlapPolicy)
    (maxChangesPerRun : Z) (plan : ReconcilePlan.t) :
  NoDup (GogEvent.id <$> targetEvents) →
  planReconcile desiredHolds targetEvents overlapPolicy maxChangesPerRun = Ok plan →
  NoDup (GogEvent.id <$> subjects (ReconcilePlan.actions plan)).
Proof.
  intros Hids Hplan.
  assert (Hsub : GogEvent.id <$> subjects (ReconcilePlan.actions plan) ⊆+
                 GogEvent.id <$> targetEvents).
  { apply fmap_submseteq. etrans; [by eapply plan_subjects |].
    apply sublist_submseteq, sublist_filter. }
  apply submseteq_sublist_l in Hsub as (l & Hl & Hperm).
  apply (sublist_NoDup _ l); [by rewrite Hperm | done].
Qed.

Section ScenarioFacts.
Context `{Host}.

Lemma run_not_capped (maxChangesPerRun : Z) (wanted : list ReconcileAction) :
  ∀ state, PlanState.capped (run maxChangesPerRun wanted state) = false →
  PlanState.actions (run maxChangesPerRun wanted state) = PlanState.actions state ++ wanted.
Proof.
  induction wanted as [|a w IH]; intros state Hc; simpl; [by rewrite app_nil_r |].
  change (run maxChangesPerRun (a :: w) state)
    with (run maxChangesPerRun w (gate maxChangesPerRun state a)) in *.
  rewrite IH by done. unfold gate, mutate, report in *.
  destruct (isMutation a); [| simpl; by rewrite <- app_assoc].
  destruct (_ >=? _); [| simpl; by rewrite <- app_assoc].
  by rewrite run_capped_stays in Hc.
Qed.

(** One desired hold, one managed event of another key: the hold is
    created in the loop over the desired keys, the event deleted in the
    loop over the managed keys that follows. *)
Lemma plan_fresh_stale (desired : DesiredHold.t) (existing : GogEvent.t)
    (key : string) (overlapPolicy : OverlapPolicy) (maxChangesPerRun : Z) :
  eventKey existing = Some key →
  key ≠ holdKey (DesiredHold.source desired) →
  2 <= maxChangesPerRun →
  planReconcile [desired] [existing] overlapPolicy maxChangesPerRun =
  Ok (ReconcilePlan.mk [create desired; delete existing] 1 1 false).
Proof.
  intros Hkey Hne Hmax.
  assert (Hm : isManaged existing = true).
  { apply isManaged_eventKey. rewrite Hkey. eauto. }
  assert (Hwanted : wantedActions [desired] [existing] overlapPolicy =
                    Ok [create desired; delete existing]).
  { unfold wantedActions. simpl. rewrite Hm.
    unfold managedIndex, desiredIndex. simpl.
    unfold groupManaged, indexDesired. unfold eventKey in Hkey.
    destruct (decodeSourceRef (GogEvent.description existing)) as [source|]; [| done].
    injection Hkey as Hkey. rewrite Hkey, lookup_empty, !insert_empty. simpl.
    rewrite !sortedKeys_singleton. simpl.
    unfold desiredKeyWanted, managedKeyWanted.
    rewrite lookup_singleton_eq, !lookup_singleton_ne by done.
    rewrite lookup_singleton_eq. simpl. by destruct overlapPolicy. }
  rewrite planReconcile_wanted, Hwanted. cbn [bind].
  rewrite filter_cons, decide_True by done. rewrite filter_nil.
  assert (Hcount : mutations [create desired; delete existing] = 2%nat) by done.
  rewrite run_fits by (rewrite Hcount; simpl; lia). done.
Qed.

End ScenarioFacts.

(** C6, as stated, fails on the fixture of the test: the plan is the
    create followed by the delete. *)
Lemma fresh_stale_order :
  @planReconcile codeUnitHost [desiredHold fresh] [managedStale] allow 10 =
    Ok (ReconcilePlan.mk [create (desiredHold fresh); delete managedStale] 1 1 false)
  ∧ [create (desiredHold fresh); delete managedStale]
    ≠ [delete managedStale; create (desiredHold fresh)].
Proof. split; [by vm_compute | done]. Qed.

(** C6, amended.  For one desired hold and one managed target event tagged
    for another source event, with a budget of at least two, the plan is
    the create of the hold followed by the delete of the event. *)
Theorem fresh_then_stale `{Host} (desired : DesiredHold.t) (existing : GogEvent.t)
    (source : SourceRef.t) (overlapPolicy : OverlapPolicy) (maxChangesPerRun : Z) :
  decodeSourceRef (GogEvent.description existing) = Some source →
  holdKey source ≠ holdKey (DesiredHold.source desired) →
  2 <= maxChangesPerRun →
  planReconcile [desired] [existing] overlapPolicy maxChangesPerRun =
  Ok (ReconcilePlan.mk [create desired; delete existing] 1 1 false).
Proof.
  intros Hsource Hne Hmax. apply (plan_fresh_stale _ _ (holdKey source)); [| done ..].
  unfold eventKey. by rewrite Hsource.
Qed.

Lemma fresh_then_stale_witness :
  @planReconcile codeUnitHost [desiredHold fresh] [managedStale] skip 10 =
  Ok (ReconcilePlan.mk [create (desiredHold fresh); delete managedStale] 1 1 false).
Proof.
  apply (@fresh_then_stale codeUnitHost _ _ stale).
  - apply decode_encodeSourceRef.
  - by vm_compute.
  - lia.
Defined.

Section ErrorFacts.
Context `{Host}.

Lemma parseIso_Throw (value : string) (err : Error) :
  parseIso value = Throw err → err = InvalidDate value.
Proof. unfold parseIso. destruct (Date_parse value); [done |]. by intros [= <-]. Qed.

Lemma parsed_range_Throw (first second : string) (err : Error) :
  (do startMs <- parseIso first; do endMs <- parseIso second; Ok (startMs, endMs))
  = Throw err → ∃ value, err = InvalidDate value.
Proof.
  intros [Hp | (a & _ & [Hp | (b & _ & Hp)]%bind_Throw)]%bind_Throw;
    [apply parseIso_Throw in Hp; eauto .. | done].
Qed.

(** The time normalization raises the validation error exactly for an
    event with neither pair, and names the event. *)
Lemma eventRange_missing (event : GogEvent.t) (eventId : string) :
  eventRange event = Throw (MissingRange eventId) ↔
  hasCompleteRange event = false ∧ eventId = GogEvent.id event.
Proof.
  unfold eventRange, hasCompleteRange.
  destruct (truthy (GogEventTime.dateTime (GogEvent.start event))) as [a|],
    (truthy (GogEventTime.dateTime (GogEvent.end_ event))) as [b|],
    (truthy (GogEventTime.date (GogEvent.start event))) as [c|],
    (truthy (GogEventTime.date (GogEvent.end_ event))) as [d|];
    (split; [intros Hr | intros [Hc ->]]);
    try (apply parsed_range_Throw in Hr as [? [=]]);
    try (injection Hr as <-);
    try done; try (by vm_compute in Hc).
Qed.







Lemma desiredFor_Some (key : string) (desiredHolds : list DesiredHold.t) (d : DesiredHold.t) :
  desiredFor key desiredHolds = Some d →
  d ∈ desiredHolds ∧ holdKey (DesiredHold.source d) = key.
Proof.
  unfold desiredFor. intros Hlast.
  assert (d ∈ filter (λ d, holdKey (DesiredHold.source d) = key) desiredHolds) as Hd.
  { apply last_Some in Hlast as [l ->]. apply elem_of_app. right. left. }
  apply list_elem_of_filter in Hd. tauto.
Qed.



End ErrorFacts.



Section DuplicateFacts.

Lemma StronglySorted_sublist {A} (R : relation A) (l1 l2 : list A) :
  sublist l1 l2 → StronglySorted R l2 → StronglySorted R l1.
Proof.
  induction 1 as [|x l1 l2 Hsub IH|x l1 l2 Hsub IH]; intros Hs; [done | |].
  - apply StronglySorted_cons in Hs as [Hx Hs]. constructor; [by apply IH |].
    eapply Forall_forall. intros y Hy. eapply Forall_forall in Hx; [exact Hx |].
    by eapply elem_of_sublist.
  - apply StronglySorted_cons in Hs as [_ Hs]. by apply IH.
Qed.

Lemma filter_concat_one {A K} (P : A → Prop) `{∀ x, Decision (P x)}
    (g : K → list A) (keys : list K) (key : K) :
  NoDup keys → key ∈ keys →
  (∀ k, k ∈ keys → k ≠ key → filter P (g k) = []) →
  filter P (g key) = g key →
  filter P (concat (map g keys)) = g key.
Proof.
  induction 1 as [|k keys Hk Hkeys IH]; intros Hin Hother Hkey; [by apply elem_of_nil in Hin |].
  simpl. rewrite filter_app. apply elem_of_cons in Hin as [->|Hin].
  - rewrite Hkey. clear IH.
    assert (filter P (concat (map g keys)) = []) as ->; [| by rewrite app_nil_r].
    induction keys as [|k' keys IH]; [done |]. simpl. rewrite filter_app.
    rewrite Hother; [| right; left | intros ->; apply Hk; left].
    apply IH.
    + intros Hk'. apply Hk. by right.
    + by apply NoDup_cons in Hkeys as [_ ?].
    + intros k'' Hk'' Hne. apply Hother; [| done].
      apply elem_of_cons in Hk'' as [->|Hk'']; [left | right; by right].
  - rewrite Hother; [| left | intros ->; by apply Hk]. simpl.
    apply IH; [done | | done]. intros k' Hk' Hne. apply Hother; [by right | done].
Qed.

Lemma filter_concat_none {A K} (P : A → Prop) `{∀ x, Decision (P x)}
    (g : K → list A) (keys : list K) :
  (∀ k, k ∈ keys → filter P (g k) = []) → filter P (concat (map g keys)) = [].
Proof.
  induction keys as [|k keys IH]; intros Hall; [done |]. simpl.
  rewrite filter_app, Hall by left. apply IH. intros k' Hk'. apply Hall. by right.
Qed.

Lemma actsOnKey_other (key key' : string) (w : list ReconcileAction) :
  key' ≠ key → (∀ e, e ∈ subjects w → hasKey key' e) → filter (actsOnKey key) w = [].
Proof.
  intros Hne. induction w as [|a w IH]; intros Hall; [done |].
  rewrite filter_cons, IH.
  2:{ intros e He. apply Hall. unfold subjects. simpl.
      destruct (subject a); [by right | done]. }
  rewrite decide_False; [done |]. unfold actsOnKey. intros Ha.
  destruct (subject a) as [e|] eqn:Hs; [| done]. apply Hne.
  apply (hasKey_functional _ _ e); [| done]. apply Hall.
  unfold subjects. simpl. rewrite Hs. left.
Qed.

(** The sort is stable: elements that already stand in the order of the
    comparator keep their places among themselves. *)
Lemma filter_insert_kept {A} (compare : A → A → Z) (P : A → Prop)
    `{∀ x, Decision (P x)} (x : A) (l : list A) :
  (P x → ∀ y, y ∈ l → P y → compare x y <= 0) →
  filter P (JsArray.insert compare x l) = filter P (x :: l).
Proof.
  induction l as [|y l IH]; intros Hx; simpl; [done |].
  destruct (Z.leb_spec (compare x y) 0) as [Hxy | Hxy]; [done |].
  rewrite (filter_cons _ y), IH, !(filter_cons _ x), (filter_cons _ y).
  - destruct (decide (P x)) as [Px|]; [| done].
    destruct (decide (P y)) as [Py|]; [| done].
    specialize (Hx Px y ltac:(left) Py). lia.
  - intros Px z Hz. apply Hx; [done | by right].
Qed.

Lemma filter_sort_kept {A} (compare : A → A → Z) (P : A → Prop)
    `{∀ x, Decision (P x)} (l : list A) :
  StronglySorted (sortsBefore compare) (filter P l) →
  filter P (JsArray.sort compare l) = filter P l.
Proof.
  induction l as [|x l IH]; simpl; [done |].
  rewrite filter_cons. intros Hs.
  rewrite filter_insert_kept.
  - rewrite filter_cons. destruct (decide (P x)).
    + apply StronglySorted_cons in Hs as [_ Hs]. by rewrite IH.
    + by rewrite IH.
  - intros Px y Hy Py. rewrite decide_True in Hs by done.
    apply StronglySorted_cons in Hs as [Hx _].
    eapply Forall_forall in Hx; [exact Hx |].
    apply list_elem_of_filter. split; [done |]. by apply elem_of_sort in Hy.
Qed.

Context `{Host}.

#[export] Instance compareIds_consistent `{!Consistent localeCompare} : Consistent compareIds.
Proof.
  split; unfold compareIds.
  - intros a b. apply consistent_total.
  - intros a b c. apply consistent_trans.
Qed.

Lemma bucket_hasKey (managed : list GogEvent.t) (key : string) (e : GogEvent.t) :
  e ∈ default [] (managedIndex managed !! key) → hasKey key e.
Proof. rewrite managedIndex_bucket. by intros [? _]%list_elem_of_filter. Qed.

Lemma bucket_Permutation (targetEvents : list GogEvent.t) (key : string) :
  default [] (managedIndex (filter (λ e, isManaged e = true) targetEvents) !! key)
  ≡ₚ filter (hasKey key) targetEvents.
Proof.
  rewrite managedIndex_bucket, sort_Permutation, list_filter_filter.
  erewrite list_filter_iff; [done |].
  intros e. split; [tauto |]. intros He. split; [done |].
  apply isManaged_eventKey. rewrite He. eauto.
Qed.

Lemma desiredKeyWanted_keyed unmanaged managed desiredByKey overlapPolicy key w e :
  desiredKeyWanted unmanaged (managedIndex managed) desiredByKey overlapPolicy key = Ok w →
  e ∈ subjects w → hasKey key e.
Proof.
  intros [Hsub _]%desiredKeyWanted_subjects He.
  apply (bucket_hasKey managed). by eapply elem_of_sublist.
Qed.

Lemma managedKeyWanted_keyed managed (desiredByKey : gmap string DesiredHold.t) key e :
  e ∈ subjects (managedKeyWanted (managedIndex managed) desiredByKey key) → hasKey key e.
Proof.
  unfold managedKeyWanted. destruct (desiredByKey !! key).
  - by intros ?%elem_of_nil.
  - rewrite subjects_deletes. apply bucket_hasKey.
Qed.

(** Of two events of a key, the bucket holds first the one whose id the
    comparison puts first, and the first of the input when it puts none
    first. *)
Lemma bucket_pair `{!Consistent localeCompare} (targetEvents : list GogEvent.t)
    (key : string) (first second : GogEvent.t) :
  filter (hasKey key) targetEvents = [first; second] →
  default [] (managedIndex (filter (λ e, isManaged e = true) targetEvents) !! key) =
  let chosen := if localeCompare (GogEvent.id first) (GogEvent.id second) <=? 0
                then (first, second) else (second, first) in
  [fst chosen; snd chosen].
Proof.
  intros Hpair.
  assert (Hmanaged : filter (hasKey key) (filter (λ e, isManaged e = true) targetEvents)
                     = [first; second]).
  { rewrite list_filter_filter, <- Hpair. apply list_filter_iff.
    intros e. split; [tauto |]. intros He. split; [done |].
    apply isManaged_eventKey. rewrite He. eauto. }
  rewrite managedIndex_bucket.
  destruct (Z.leb_spec (localeCompare (GogEvent.id first) (GogEvent.id second)) 0)
    as [Hle | Hgt]; cbn zeta; cbn [fst snd].
  - rewrite filter_sort_kept; [exact Hmanaged |]. rewrite Hmanaged.
    repeat constructor. exact Hle.
  - pose proof (sort_sorted compareIds (filter (λ e, isManaged e = true) targetEvents))
      as Hs.
    set (bucket := filter (hasKey key)
           (JsArray.sort compareIds (filter (λ e, isManaged e = true) targetEvents))).
    apply (StronglySorted_sublist _ bucket) in Hs; [| apply sublist_filter].
    assert (Hperm : bucket ≡ₚ [first; second]).
    { rewrite <- Hmanaged. apply filter_Permutation, sort_Permutation. }
    clearbody bucket.
    destruct bucket as [|x [|y [|? ?]]]; try (by apply Permutation_length in Hperm).
    apply StronglySorted_cons in Hs as [Hxy _]. apply Forall_cons in Hxy as [Hxy _].
    unfold sortsBefore, compareIds in Hxy.
    apply Permutation_length_2_inv in Hperm as [[= -> ->] | [= -> ->]]; [lia | done].
Qed.

End DuplicateFacts.

(** C5, as stated, fails: the planner sorts the ids with [localeCompare],
    which is not the order of their code units.  Of two managed events with
    the ids [B] and [a] of one key, the primary that is updated is the one
    with the id [a], and the one with the lexicographically first id [B] is
    deleted. *)
Lemma primary_follows_localeCompare :
  Str.codeUnitCompare (GogEvent.id upperB) (GogEvent.id lowerA) < 0 ∧
  @planReconcile collatingHost [desiredHold fresh] [upperB; lowerA] allow 10 =
    Ok (ReconcilePlan.mk [update lowerA (desiredHold fresh); delete upperB] 1 2 false).
Proof. split; by vm_compute. Qed.

(** C5, amended.  Two managed target events share a key, a hold is desired
    for the key, and the plan is not capped.  The primary is the one of the
    two whose id comes first under [localeCompare], the comparison the
    planner sorts the managed events by, and the one that comes first in
    [targetEvents] when the comparison does not order them.  The primary is
    updated, or left alone when it is equivalent to the desired event; the
    other is deleted; and the plan holds no other update or delete of an
    event of that key. *)
Theorem duplicate_collapse `{Host} `{!Consistent localeCompare}
    (desiredHolds : list DesiredHold.t) (targetEvents : list GogEvent.t)
    (overlapPolicy : OverlapPolicy) (maxChangesPerRun : Z) (plan : ReconcilePlan.t)
    (key : string) (first second : GogEvent.t) (desired : DesiredHold.t) :
  filter (hasKey key) targetEvents = [first; second] →
  desiredFor key desiredHolds = Some desired →
  planReconcile desiredHolds targetEvents overlapPolicy maxChangesPerRun = Ok plan →
  ReconcilePlan.capped plan = false →
  ∃ primary duplicate,
    (primary, duplicate)
    = (if localeCompare (GogEvent.id first) (GogEvent.id second) <=? 0
       then (first, second) else (second, first)) ∧
    filter (actsOnKey key) (ReconcilePlan.actions plan) =
      (if isEquivalent primary (DesiredHold.event desired) then []
       else [update primary desired])
      ++ [delete duplicate].
Proof.
  intros Hpair Hdesired Hplan Hcapped.
  rewrite planReconcile_wanted in Hplan.
  apply bind_Ok in Hplan as (wanted & Hwanted & [= <-]). simpl in Hcapped |- *.
  rewrite (run_not_capped _ _ _ Hcapped). simpl.
  unfold wantedActions in Hwanted. rewrite splitManaged_filter in Hwanted.
  set (managed := filter (λ e, isManaged e = true) targetEvents) in *.
  set (unmanaged := filter (λ e, isManaged e ≠ true) targetEvents) in *.
  apply bind_Ok in Hwanted as (firstLoop & Hfirst & [= <-]).
  apply collect_Ok in Hfirst as [-> Hall].
  pose proof (bucket_pair targetEvents key first second Hpair) as Hb.
  fold managed in Hb.
  set (chosen := if localeCompare (GogEvent.id first) (GogEvent.id second) <=? 0
                 then (first, second) else (second, first)) in *.
  exists (fst chosen), (snd chosen). split; [by destruct chosen |].
  assert (Hkey : desiredKeyWanted unmanaged (managedIndex managed)
                   (desiredIndex desiredHolds) overlapPolicy key =
                 Ok ((if isEquivalent (fst chosen) (DesiredHold.event desired) then []
                      else [update (fst chosen) desired]) ++ [delete (snd chosen)])).
  { unfold desiredKeyWanted. by rewrite desiredIndex_lookup, Hdesired, Hb. }
  rewrite filter_app.
  rewrite (filter_concat_one _ _ _ key).
  - rewrite Hkey, filter_concat_none; [by rewrite app_nil_r |].
    intros k _. destruct (decide (k = key)) as [->|Hne].
    + unfold managedKeyWanted. by rewrite desiredIndex_lookup, Hdesired.
    + apply (actsOnKey_other _ k); [done |]. apply managedKeyWanted_keyed.
  - apply NoDup_sortedKeys.
  - apply elem_of_sortedKeys. rewrite desiredIndex_lookup, Hdesired. eauto.
  - intros k _ Hne.
    destruct (desiredKeyWanted _ _ _ _ k) as [w|] eqn:Hw; [| done].
    apply (actsOnKey_other _ k); [done |]. intros e. by eapply desiredKeyWanted_keyed.
  - rewrite Hkey.
    assert (hasKey key (fst chosen) ∧ hasKey key (snd chosen)) as [Hp Hd].
    { split; apply (bucket_hasKey managed); rewrite Hb; [left | right; left]. }
    destruct (isEquivalent _ _); simpl; rewrite !filter_cons, filter_nil;
      rewrite ?decide_True by done; done.
Qed.

Section DeterminismFacts.

Lemma last_all_equal {A} (l l' : list A) :
  (∀ x y, x ∈ l → y ∈ l → x = y) → l ≡ₚ l' → last l = last l'.
Proof.
  intros Heq Hperm.
  destruct (last l) as [x|] eqn:Hx, (last l') as [y|] eqn:Hy.
  - f_equal. apply Heq; [by apply last_Some_elem_of |].
    rewrite Hperm. by apply last_Some_elem_of.
  - apply last_None in Hy. subst l'. apply Permutation_nil_r in Hperm. by subst l.
  - apply last_None in Hx. subst l. apply Permutation_nil_l in Hperm. by subst l'.
  - done.
Qed.

Lemma find_None {A} (p : A → Result bool) (l : list A) :
  JsArray.find p l = Ok None → ∀ x, x ∈ l → p x = Ok false.
Proof.
  induction l as [|y l IH]; simpl; [by intros _ x ?%elem_of_nil |].
  intros ([] & Hy & Hl)%bind_Ok; [done |].
  intros x [->|Hx]%elem_of_cons; [done | by apply IH].
Qed.

(** Whether the search finds a blocker does not depend on the order of
    the candidates; which one it finds does. *)
Lemma find_Permutation {A} (p : A → Result bool) (l l' : list A) (r r' : option A) :
  l ≡ₚ l' → JsArray.find p l = Ok r → JsArray.find p l' = Ok r' →
  is_Some r ↔ is_Some r'.
Proof.
  intros Hperm Hr Hr'. destruct r as [x|], r' as [y|]; [done | | | done].
  - exfalso. apply find_hit in Hr as [Hx Hp]. rewrite Hperm in Hx.
    pose proof (find_None _ _ Hr' x Hx). congruence.
  - exfalso. apply find_hit in Hr' as [Hx Hp]. rewrite <- Hperm in Hx.
    pose proof (find_None _ _ Hr y Hx). congruence.
Qed.

Lemma isMutation_erase (a : ReconcileAction) : isMutation (eraseBlocker a) = isMutation a.
Proof. by destruct a. Qed.

Lemma run_erase (maxChangesPerRun : Z) (wanted : list ReconcileAction) :
  ∀ state,
  run maxChangesPerRun (eraseBlocker <$> wanted)
    (PlanState.mk (eraseBlocker <$> PlanState.actions state)
       (PlanState.changes state) (PlanState.capped state)) =
  let final := run maxChangesPerRun wanted state in
  PlanState.mk (eraseBlocker <$> PlanState.actions final)
    (PlanState.changes final) (PlanState.capped final).
Proof.
  induction wanted as [|a w IH]; intros state; [done |].
  change (run maxChangesPerRun (a :: w) state)
    with (run maxChangesPerRun w (gate maxChangesPerRun state a)).
  rewrite <- IH. rewrite fmap_cons.
  change (run maxChangesPerRun (?b :: ?v) ?s)
    with (run maxChangesPerRun v (gate maxChangesPerRun s b)).
  f_equal. unfold gate, mutate, report. rewrite isMutation_erase. simpl.
  destruct (isMutation a); [destruct (_ >=? _) |]; simpl; by rewrite ?fmap_app.
Qed.

Lemma collect_erase {A} (f g : A → Result (list ReconcileAction)) (l : list A) ws ws' :
  (∀ x w w', x ∈ l → f x = Ok w → g x = Ok w' → eraseBlocker <$> w = eraseBlocker <$> w') →
  collect f l = Ok ws → collect g l = Ok ws' →
  eraseBlocker <$> ws = eraseBlocker <$> ws'.
Proof.
  revert ws ws'. induction l as [|x l IH]; intros ws ws' Hfg; simpl.
  - by intros [= <-] [= <-].
  - intros (w & Hw & (zs & Hzs & [= <-])%bind_Ok)%bind_Ok
           (w' & Hw' & (zs' & Hzs' & [= <-])%bind_Ok)%bind_Ok.
    rewrite !fmap_app. f_equal.
    + apply (Hfg x); [left | done ..].
    + apply IH; [| done ..]. intros y v v' Hy. apply Hfg. by right.
Qed.

Context `{Host} `{!Consistent localeCompare}.

Lemma desiredIndex_Permutation (desiredHolds desiredHolds' : list DesiredHold.t) :
  (∀ d d', d ∈ desiredHolds → d' ∈ desiredHolds →
     holdKey (DesiredHold.source d) = holdKey (DesiredHold.source d') → d = d') →
  desiredHolds ≡ₚ desiredHolds' →
  desiredIndex desiredHolds = desiredIndex desiredHolds'.
Proof.
  intros Hkeys Hperm. apply map_eq. intros key. rewrite !desiredIndex_lookup.
  unfold desiredFor. apply last_all_equal; [| by rewrite Hperm].
  intros d d' [Hd ?]%list_elem_of_filter [Hd' ?]%list_elem_of_filter.
  apply Hkeys; congruence.
Qed.

Lemma managedIndex_Permutation (targetEvents targetEvents' : list GogEvent.t) :
  (∀ a b, a ∈ targetEvents → b ∈ targetEvents →
     isManaged a = true → isManaged b = true →
     localeCompare (GogEvent.id a) (GogEvent.id b) <= 0 →
     localeCompare (GogEvent.id b) (GogEvent.id a) <= 0 → a = b) →
  targetEvents ≡ₚ targetEvents' →
  managedIndex (filter (λ e, isManaged e = true) targetEvents) =
  managedIndex (filter (λ e, isManaged e = true) targetEvents').
Proof.
  intros Hids Hperm. unfold managedIndex. f_equal.
  apply sort_unique; [apply _ | | by rewrite Hperm].
  intros a b [? Ha]%list_elem_of_filter [? Hb]%list_elem_of_filter. by apply Hids.
Qed.

Lemma desiredKeyWanted_erase unmanaged unmanaged' managedByKey desiredByKey
    overlapPolicy key w w' :
  unmanaged ≡ₚ unmanaged' →
  desiredKeyWanted unmanaged managedByKey desiredByKey overlapPolicy key = Ok w →
  desiredKeyWanted unmanaged' managedByKey desiredByKey overlapPolicy key = Ok w' →
  eraseBlocker <$> w = eraseBlocker <$> w'.
Proof.
  intros Hperm. unfold desiredKeyWanted.
  destruct (desiredByKey !! key) as [desired|]; [| congruence].
  destruct (default [] (managedByKey !! key)); [| congruence].
  intros (r & Hr & Hw)%bind_Ok (r' & Hr' & Hw')%bind_Ok.
  destruct overlapPolicy;
    [| injection Hr as <-; injection Hr' as <-; injection Hw as <-;
       by injection Hw' as <-].
  pose proof (find_Permutation _ _ _ _ _ Hperm Hr Hr') as Hiff.
  destruct r as [b|], r' as [b'|]; injection Hw as <-; injection Hw' as <-;
    [done | | | done]; exfalso.
  - assert (is_Some (@None GogEvent.t)) as [? [=]]. apply Hiff. eauto.
  - assert (is_Some (@None GogEvent.t)) as [? [=]]. apply Hiff. eauto.
Qed.

(** The parts of the input that the wanted actions are computed from. *)
Lemma wantedActions_eq desiredHolds targetEvents overlapPolicy :
  wantedActions desiredHolds targetEvents overlapPolicy =
  let managedByKey := managedIndex (filter (λ e, isManaged e = true) targetEvents) in
  let desiredByKey := desiredIndex desiredHolds in
  do first <-
    collect (desiredKeyWanted (filter (λ e, isManaged e ≠ true) targetEvents)
               managedByKey desiredByKey overlapPolicy)
      (sortedKeys desiredByKey);
  Ok (first ++ concat (map (managedKeyWanted managedByKey desiredByKey)
                        (sortedKeys managedByKey))).
Proof. unfold wantedActions. by rewrite splitManaged_filter. Qed.

Lemma desiredKeyWanted_allow unmanaged unmanaged' managedByKey desiredByKey key :
  desiredKeyWanted unmanaged managedByKey desiredByKey allow key =
  desiredKeyWanted unmanaged' managedByKey desiredByKey allow key.
Proof. reflexivity. Qed.

Lemma collect_ext {A B} (f g : A → Result (list B)) (l : list A) :
  (∀ x, f x = g x) → collect f l = collect g l.
Proof. intros Hfg. induction l as [|x l IH]; simpl; [done |]. by rewrite Hfg, IH. Qed.

(** The blocking event of a skip is the one the search finds: the first
    unmanaged target event that overlaps the desired event. *)
Lemma plan_blocker desiredHolds targetEvents overlapPolicy maxChangesPerRun plan desired b :
  planReconcile desiredHolds targetEvents overlapPolicy maxChangesPerRun = Ok plan →
  skip_overlap desired b ∈ ReconcilePlan.actions plan →
  ∃ blocker,
    JsArray.find (λ candidate, isOverlap candidate (DesiredHold.event desired))
      (filter (λ e, isManaged e ≠ true) targetEvents) = Ok (Some blocker)
    ∧ GogEvent.id blocker = b.
Proof.
  rewrite planReconcile_wanted. intros (wanted & Hwanted & [= <-])%bind_Ok. simpl.
  destruct (run_kept maxChangesPerRun wanted PlanState.initial) as (kept & -> & Hsub & _).
  simpl. intros Hin. eapply elem_of_sublist in Hin; [| exact Hsub].
  rewrite wantedActions_eq in Hwanted. cbn zeta in Hwanted.
  apply bind_Ok in Hwanted as (first & Hfirst & [= <-]).
  apply elem_of_app in Hin as [Hin | Hin].
  - apply collect_Ok in Hfirst as [-> Hall].
    apply elem_of_concat_map in Hin as (key & Hkey & Hin).
    eapply Forall_forall in Hall as [w Hw]; [| exact Hkey].
    rewrite Hw in Hin. unfold desiredKeyWanted in Hw.
    destruct (desiredIndex desiredHolds !! key) as [d|];
      [| injection Hw as <-; by apply elem_of_nil in Hin].
    destruct (default [] _) as [|primary duplicates].
    + apply bind_Ok in Hw as (r & Hr & Hw).
      destruct r as [blocker|]; injection Hw as <-;
        apply list_elem_of_singleton in Hin; [| done].
      injection Hin as -> ->.
      destruct overlapPolicy; [| done]. eauto.
    + injection Hw as <-. exfalso.
      apply elem_of_app in Hin as [Hin | Hin].
      * destruct (isEquivalent _ _); [by apply elem_of_nil in Hin |].
        by apply list_elem_of_singleton in Hin.
      * by apply list_elem_of_fmap in Hin as (x & [=] & _).
  - exfalso. apply elem_of_concat_map in Hin as (key & _ & Hin).
    unfold managedKeyWanted in Hin.
    destruct (desiredIndex desiredHolds !! key); [by apply elem_of_nil in Hin |].
    by apply list_elem_of_fmap in Hin as (x & [=] & _).
Qed.

End DeterminismFacts.

(** C2.  The plan depends on the order of [targetEvents]: with two
    unmanaged events that overlap a desired hold, the blocking event of the
    skip is the one that comes first in the input.  The planner sorts the
    managed events and the keys, and searches the unmanaged events as they
    come. *)
Lemma blocker_follows_order :
  [lunchA; lunchB] ≡ₚ [lunchB; lunchA] ∧
  @planReconcile codeUnitHost [desiredHold fresh] [lunchA; lunchB] skip 10 =
    Ok (ReconcilePlan.mk [skip_overlap (desiredHold fresh) "lunch-a"] 1 0 false) ∧
  @planReconcile codeUnitHost [desiredHold fresh] [lunchB; lunchA] skip 10 =
    Ok (ReconcilePlan.mk [skip_overlap (desiredHold fresh) "lunch-b"] 1 0 false).
Proof. split; [apply Permutation_swap |]. split; by vm_compute. Qed.

Section EffectFacts.

Lemma removeFirst_Permutation (x : GogEvent.t) (l l' : list GogEvent.t) :
  l ≡ₚ x :: l' → removeFirst x l ≡ₚ l'.
Proof.
  intros Hperm. apply (inj (x ::.)). rewrite <- Hperm.
  assert (x ∈ l) as Hx by (rewrite Hperm; left). clear Hperm.
  induction l as [|y l IH]; [by apply elem_of_nil in Hx |]. simpl.
  destruct (decide (y = x)) as [->|Hne]; [done |].
  apply elem_of_cons in Hx as [->|Hx]; [done |].
  by rewrite <- (IH Hx) at 2; rewrite Permutation_swap.
Qed.

Lemma replaceFirst_Permutation (x y : GogEvent.t) (l l' : list GogEvent.t) :
  l ≡ₚ x :: l' → replaceFirst x y l ≡ₚ y :: l'.
Proof.
  intros Hperm.
  assert (replaceFirst x y l ≡ₚ y :: removeFirst x l) as ->.
  { assert (x ∈ l) as Hx by (rewrite Hperm; left). clear Hperm.
    induction l as [|z l IH]; [by apply elem_of_nil in Hx |]. simpl.
    destruct (decide (z = x)) as [->|Hne]; [done |].
    apply elem_of_cons in Hx as [->|Hx]; [done |].
    by rewrite (IH Hx), Permutation_swap. }
  by rewrite (removeFirst_Permutation _ _ _ Hperm).
Qed.

Lemma remove_all (xs : list GogEvent.t) :
  ∀ l rest, l ≡ₚ xs ++ rest → foldl applyAction l (map delete xs) ≡ₚ rest.
Proof.
  induction xs as [|x xs IH]; intros l rest Hperm; simpl; [done |].
  apply IH. by apply removeFirst_Permutation.
Qed.

Lemma filter_iff_elem_of {A} (P1 P2 : A → Prop)
    `{!∀ x, Decision (P1 x), !∀ x, Decision (P2 x)} (l : list A) :
  (∀ x, x ∈ l → P1 x ↔ P2 x) → filter P1 l = filter P2 l.
Proof.
  induction l as [|a l IH]; intros Hiff; [done |].
  rewrite !filter_cons, IH by (intros x Hx; apply Hiff; by right).
  apply decide_ext, Hiff. left.
Qed.

Section Filter.
Context (P : GogEvent.t → Prop) `{∀ e, Decision (P e)}.

Lemma filter_removeFirst_in (x : GogEvent.t) (l : list GogEvent.t) :
  P x → filter P (removeFirst x l) = removeFirst x (filter P l).
Proof.
  intros Hx. induction l as [|y l IH]; [done |]. simpl.
  destruct (decide (y = x)) as [->|Hne].
  - rewrite filter_cons, decide_True by done. simpl. by rewrite decide_True.
  - rewrite !filter_cons. destruct (decide (P y)); [| done]. simpl.
    by rewrite decide_False, IH.
Qed.

Lemma filter_removeFirst_out (x : GogEvent.t) (l : list GogEvent.t) :
  ¬ P x → filter P (removeFirst x l) = filter P l.
Proof.
  intros Hx. induction l as [|y l IH]; [done |]. simpl.
  destruct (decide (y = x)) as [->|Hne].
  - by rewrite filter_cons, decide_False.
  - by rewrite !filter_cons, IH.
Qed.

Lemma filter_replaceFirst_in (x y : GogEvent.t) (l : list GogEvent.t) :
  P x → P y → filter P (replaceFirst x y l) = replaceFirst x y (filter P l).
Proof.
  intros Hx Hy. induction l as [|z l IH]; [done |]. simpl.
  destruct (decide (z = x)) as [->|Hne].
  - rewrite !filter_cons, !decide_True by done. simpl. by rewrite decide_True.
  - rewrite !filter_cons. destruct (decide (P z)); [| done]. simpl.
    by rewrite decide_False, IH.
Qed.

Lemma filter_replaceFirst_out (x y : GogEvent.t) (l : list GogEvent.t) :
  ¬ P x → ¬ P y → filter P (replaceFirst x y l) = filter P l.
Proof.
  intros Hx Hy. induction l as [|z l IH]; [done |]. simpl.
  destruct (decide (z = x)) as [->|Hne].
  - by rewrite !filter_cons, !decide_False.
  - by rewrite !filter_cons, IH.
Qed.

(** An action whose events all satisfy [P] acts on the events that
    satisfy [P]; one whose events all fail [P] leaves them alone. *)
Lemma filter_applyAction_in (a : ReconcileAction) (l : list GogEvent.t) :
  Forall P (actionEvents a) → filter P (applyAction l a) = applyAction (filter P l) a.
Proof.
  destruct a as [d|e d|e|d b]; simpl; intros Ha.
  - apply Forall_cons in Ha as [Hd _].
    by rewrite filter_app, filter_cons, decide_True.
  - apply Forall_cons in Ha as [He [Hd _]%Forall_cons].
    by apply filter_replaceFirst_in.
  - apply Forall_cons in Ha as [He _]. by apply filter_removeFirst_in.
  - done.
Qed.

Lemma filter_applyAction_out (a : ReconcileAction) (l : list GogEvent.t) :
  Forall (λ e, ¬ P e) (actionEvents a) → filter P (applyAction l a) = filter P l.
Proof.
  destruct a as [d|e d|e|d b]; simpl; intros Ha.
  - apply Forall_cons in Ha as [Hd _].
    by rewrite filter_app, filter_cons, decide_False, app_nil_r.
  - apply Forall_cons in Ha as [He [Hd _]%Forall_cons].
    by apply filter_replaceFirst_out.
  - apply Forall_cons in Ha as [He _]. by apply filter_removeFirst_out.
  - done.
Qed.

Lemma filter_applyActions (w : list ReconcileAction) :
  (∀ a, a ∈ w → Forall P (actionEvents a) ∨ Forall (λ e, ¬ P e) (actionEvents a)) →
  ∀ l,
  filter P (foldl applyAction l w) =
  foldl applyAction (filter P l)
    (filter (λ a, ¬ Forall (λ e, ¬ P e) (actionEvents a)) w).
Proof.
  induction w as [|a w IH]; intros Hw l; [done |]. simpl.
  rewrite IH by (intros b Hb; apply Hw; by right).
  rewrite filter_cons.
  destruct (decide (¬ Forall (λ e, ¬ P e) (actionEvents a))) as [Hin|Hout].
  - simpl. rewrite filter_applyAction_in; [done |].
    destruct (Hw a) as [? | ?]; [left | done | done].
  - apply dec_stable in Hout. by rewrite filter_applyAction_out.
Qed.

Lemma filter_touched (w : list ReconcileAction) :
  (∀ a e, a ∈ w → e ∈ actionEvents a → P e) →
  filter (λ a, ¬ Forall (λ e, ¬ P e) (actionEvents a)) w =
  filter (λ a, isMutation a = true) w.
Proof.
  intros Hw. apply filter_iff_elem_of. intros a Ha.
  pose proof (Hw a) as Ha'.
  destruct a as [d|e d|e|d b]; simpl in *; split; try done.
  - intros _ [Hd _]%Forall_cons. apply Hd, Ha'; [done | left].
  - intros _ [Hd _]%Forall_cons. apply Hd, Ha'; [done | left].
  - intros _ [Hd _]%Forall_cons. apply Hd, Ha'; [done | left].
  - intros Hn. exfalso. apply Hn. constructor.
Qed.

Lemma filter_untouched (w : list ReconcileAction) :
  (∀ a e, a ∈ w → e ∈ actionEvents a → ¬ P e) →
  filter (λ a, ¬ Forall (λ e, ¬ P e) (actionEvents a)) w = [].
Proof.
  intros Hw. induction w as [|a w IH]; [done |].
  rewrite filter_cons, decide_False, IH; [done | |].
  - intros b e Hb. apply Hw. by right.
  - intros Hn. apply Hn. apply Forall_forall. intros e He. apply (Hw a); [left | done].
Qed.

End Filter.

Lemma isEquivalent_refl (e : GogEvent.t) : isEquivalent e e = true.
Proof. unfold isEquivalent. by rewrite !bool_decide_eq_true_2. Qed.

End EffectFacts.

Section IdempotenceFacts.

Lemma filter_concat_key {A K} `{EqDecision K} (P : A → Prop) `{∀ x, Decision (P x)}
    (g : K → list A) (keys : list K) (key : K) :
  NoDup keys →
  (∀ k, k ∈ keys → k ≠ key → filter P (g k) = []) →
  filter P (concat (map g keys)) = if decide (key ∈ keys) then filter P (g key) else [].
Proof.
  intros Hnodup Hother. destruct (decide (key ∈ keys)) as [Hin|Hout].
  - induction Hnodup as [|k keys Hk Hkeys IH]; [by apply elem_of_nil in Hin |].
    simpl. rewrite filter_app. apply elem_of_cons in Hin as [->|Hin].
    + rewrite filter_concat_none; [by rewrite app_nil_r |].
      intros k' Hk'. apply Hother; [by right |]. intros ->. done.
    + rewrite Hother; [| left | intros ->; done]. simpl.
      apply IH; [| done]. intros k' Hk'. apply Hother. by right.
  - apply filter_concat_none. intros k Hk. apply Hother; [done |]. by intros ->.
Qed.

Lemma filter_concat_map {A K} (P : A → Prop) `{∀ x, Decision (P x)}
    (g : K → list A) (keys : list K) :
  filter P (concat (map g keys)) = concat (map (λ k, filter P (g k)) keys).
Proof.
  induction keys as [|k keys IH]; [done |]. simpl. by rewrite filter_app, IH.
Qed.

Lemma concat_nil {A K} (g : K → list A) (keys : list K) :
  (∀ k, k ∈ keys → g k = []) → concat (map g keys) = [].
Proof.
  induction keys as [|k keys IH]; intros Hall; [done |]. simpl.
  rewrite Hall by left. apply IH. intros k' Hk'. apply Hall. by right.
Qed.

Lemma collect_all {A B} (f : A → Result (list B)) (g : A → list B) (l : list A) :
  (∀ x, x ∈ l → f x = Ok (g x)) → collect f l = Ok (concat (map g l)).
Proof.
  induction l as [|x l IH]; intros Hall; [done |]. simpl.
  rewrite Hall by left. rewrite IH by (intros y Hy; apply Hall; by right). done.
Qed.

Lemma run_reports (maxChangesPerRun : Z) (w : list ReconcileAction) :
  Forall (λ a, isMutation a = false) w →
  ∀ state, run maxChangesPerRun w state =
           PlanState.mk (PlanState.actions state ++ w) (PlanState.changes state)
             (PlanState.capped state).
Proof.
  induction 1 as [|a w Ha _ IH]; intros state.
  { destruct state. simpl. by rewrite app_nil_r. }
  change (run maxChangesPerRun (a :: w) state)
    with (run maxChangesPerRun w (gate maxChangesPerRun state a)).
  rewrite IH. unfold gate, report. rewrite Ha. simpl. by rewrite <- app_assoc.
Qed.

Lemma filter_deletes_reports (events : list GogEvent.t) :
  filter (λ a, isMutation a = false) (map delete events) = [].
Proof. induction events as [|e l IH]; [done |]. simpl. by rewrite filter_cons, decide_False. Qed.

Lemma filter_deletes_mutations (events : list GogEvent.t) :
  filter (λ a, isMutation a = true) (map delete events) = map delete events.
Proof.
  induction events as [|e l IH]; [done |]. simpl.
  by rewrite filter_cons, decide_True, IH.
Qed.

Context `{Host}.
Context (desiredHolds : list DesiredHold.t) (targetEvents : list GogEvent.t)
        (overlapPolicy : OverlapPolicy).
Context (Htag : ∀ d, d ∈ desiredHolds → carriesOwnTag d).

Let managed := filter (λ e, isManaged e = true) targetEvents.
Let unmanaged := filter (λ e, isManaged e ≠ true) targetEvents.
Let M := managedIndex managed.
Let D := desiredIndex desiredHolds.

Let wantedFor (key : string) : list ReconcileAction :=
  match desiredKeyWanted unmanaged M D overlapPolicy key with
  | Ok w => w
  | Throw _ => []
  end.
Let staleFor (key : string) : list ReconcileAction := managedKeyWanted M D key.
Let W : list ReconcileAction :=
  concat (map wantedFor (sortedKeys D)) ++ concat (map staleFor (sortedKeys M)).

Lemma desired_event_key (key : string) (d : DesiredHold.t) :
  D !! key = Some d → hasKey key (DesiredHold.event d).
Proof.
  unfold D. rewrite desiredIndex_lookup. intros [Hd <-]%desiredFor_Some.
  by apply Htag.
Qed.

Lemma wantedFor_events (key : string) (a : ReconcileAction) (e : GogEvent.t) :
  a ∈ wantedFor key → e ∈ actionEvents a → hasKey key e.
Proof.
  unfold wantedFor, desiredKeyWanted.
  destruct (D !! key) as [d|] eqn:Hd; [| by intros ?%elem_of_nil].
  pose proof (desired_event_key _ _ Hd) as Hde.
  destruct (default [] (M !! key)) as [|p dups] eqn:Hb.
  - destruct (match overlapPolicy with skip => _ | allow => _ end) as [[b|]|err]; simpl.
    + intros ->%list_elem_of_singleton. by intros ?%elem_of_nil.
    + intros ->%list_elem_of_singleton. by intros ->%list_elem_of_singleton.
    + by intros ?%elem_of_nil.
  - assert (Hbucket : ∀ x, x ∈ p :: dups → hasKey key x).
    { intros x Hx. apply (bucket_hasKey managed). fold M. by rewrite Hb. }
    intros [Ha | Ha]%elem_of_app.
    + destruct (isEquivalent _ _); [by apply elem_of_nil in Ha |].
      apply list_elem_of_singleton in Ha as ->. simpl.
      intros [->|[->|[]%elem_of_nil]%elem_of_cons]%elem_of_cons; [| done].
      apply Hbucket. left.
    + apply list_elem_of_fmap in Ha as (x & -> & Hx). simpl.
      intros ->%list_elem_of_singleton. apply Hbucket. by right.
Qed.

Lemma staleFor_events (key : string) (a : ReconcileAction) (e : GogEvent.t) :
  a ∈ staleFor key → e ∈ actionEvents a → hasKey key e.
Proof.
  unfold staleFor, managedKeyWanted.
  destruct (D !! key); [by intros ?%elem_of_nil |].
  intros (x & -> & Hx)%list_elem_of_fmap. simpl.
  intros ->%list_elem_of_singleton. by apply (bucket_hasKey managed).
Qed.

Lemma W_events (a : ReconcileAction) :
  a ∈ W → ∃ key, ∀ e, e ∈ actionEvents a → hasKey key e.
Proof.
  unfold W. intros [Ha | Ha]%elem_of_app;
    apply elem_of_concat_map in Ha as (key & _ & Ha); exists key; intros e.
  - by apply wantedFor_events.
  - by apply staleFor_events.
Qed.

Lemma W_classified (key : string) (a : ReconcileAction) :
  a ∈ W →
  Forall (hasKey key) (actionEvents a) ∨ Forall (λ e, ¬ hasKey key e) (actionEvents a).
Proof.
  intros (k & Hk)%W_events. destruct (decide (k = key)) as [->|Hne].
  - left. by apply Forall_forall.
  - right. apply Forall_forall. intros e He Hkey. apply Hne.
    eapply hasKey_functional; eauto.
Qed.

(** The wanted actions that touch the events of a key are the
    mutations of the turn of that key. *)
Lemma W_touching (key : string) :
  filter (λ a, ¬ Forall (λ e, ¬ hasKey key e) (actionEvents a)) W =
  match D !! key with
  | Some _ => filter (λ a, isMutation a = true) (wantedFor key)
  | None => map delete (default [] (M !! key))
  end.
Proof.
  unfold W. rewrite filter_app.
  rewrite (filter_concat_key _ wantedFor _ key); [| apply NoDup_sortedKeys |].
  2:{ intros k _ Hne. apply filter_untouched. intros a e Ha He Hkey. apply Hne.
      eapply hasKey_functional; [| exact Hkey]. by eapply wantedFor_events. }
  rewrite (filter_concat_key _ staleFor _ key); [| apply NoDup_sortedKeys |].
  2:{ intros k _ Hne. apply filter_untouched. intros a e Ha He Hkey. apply Hne.
      eapply hasKey_functional; [| exact Hkey]. by eapply staleFor_events. }
  destruct (D !! key) as [d|] eqn:Hd.
  - rewrite decide_True by (apply elem_of_sortedKeys; rewrite Hd; eauto).
    rewrite (filter_touched _ (wantedFor key)) by (intros a e; apply wantedFor_events).
    assert (staleFor key = []) as ->; [by unfold staleFor, managedKeyWanted; rewrite Hd |].
    rewrite filter_nil. destruct (decide _); by rewrite app_nil_r.
  - rewrite decide_False by (rewrite elem_of_sortedKeys, Hd; by intros []). simpl.
    destruct (decide (key ∈ sortedKeys M)) as [Hin|Hout].
    + rewrite (filter_touched _ (staleFor key)) by (intros a e; apply staleFor_events).
      unfold staleFor, managedKeyWanted. rewrite Hd. apply filter_deletes_mutations.
    + rewrite elem_of_sortedKeys in Hout. destruct (M !! key); [| done].
      exfalso. apply Hout. eauto.
Qed.

Let after := foldl applyAction targetEvents W.

Lemma unmanaged_after : filter (λ e, isManaged e ≠ true) after = unmanaged.
Proof.
  assert (Hmanaged : ∀ a e, a ∈ W → e ∈ actionEvents a → ¬ isManaged e ≠ true).
  { intros a e (k & Hk)%W_events He Hun. apply Hun, isManaged_eventKey.
    rewrite (Hk e He). eauto. }
  unfold after. rewrite filter_applyActions.
  - by rewrite filter_untouched.
  - intros a Ha. right. apply Forall_forall. intros e He. by apply (Hmanaged a).
Qed.

Lemma bucket_after (key : string) :
  filter (hasKey key) after =
  foldl applyAction (filter (hasKey key) targetEvents)
    match D !! key with
    | Some _ => filter (λ a, isMutation a = true) (wantedFor key)
    | None => map delete (default [] (M !! key))
    end.
Proof.
  unfold after. rewrite filter_applyActions by (intros a; apply W_classified).
  by rewrite W_touching.
Qed.

(** After the plan, no event is left under a key without desired hold. *)
Lemma stale_bucket_after (key : string) :
  D !! key = None → filter (hasKey key) after = [].
Proof.
  intros Hd. rewrite bucket_after, Hd. apply Permutation_nil_r.
  apply remove_all. rewrite app_nil_r. symmetry. apply bucket_Permutation.
Qed.

(** After the plan, a desired key that was not skipped has one event,
    and that event is equivalent to the desired one. *)
Lemma desired_bucket_after (key : string) (d : DesiredHold.t) (w : list ReconcileAction) :
  D !! key = Some d →
  desiredKeyWanted unmanaged M D overlapPolicy key = Ok w →
  (default [] (M !! key) = [] ∧ filter (hasKey key) after = [] ∧
   ∃ b, w = [skip_overlap d b])
  ∨ (filter (λ a, isMutation a = false) w = [] ∧
     ∃ x, filter (hasKey key) after = [x] ∧
          isEquivalent x (DesiredHold.event d) = true).
Proof.
  intros Hd Hw. rewrite bucket_after, Hd. unfold wantedFor. rewrite Hw.
  pose proof (bucket_Permutation targetEvents key) as Hperm. fold managed M in Hperm.
  unfold desiredKeyWanted in Hw. rewrite Hd in Hw.
  destruct (default [] (M !! key)) as [|p dups] eqn:Hb.
  - apply Permutation_nil_l in Hperm. rewrite <- Hperm.
    apply bind_Ok in Hw as ([b|] & _ & [= <-]).
    + left. repeat split; eauto.
    + right. split; [done |]. exists (DesiredHold.event d).
      split; [done | apply isEquivalent_refl].
  - right. injection Hw as <-. rewrite !filter_app, filter_deletes_reports,
      filter_deletes_mutations.
    destruct (isEquivalent p (DesiredHold.event d)) eqn:Hequiv.
    + split; [done |]. exists p. split; [| done]. simpl.
      apply Permutation_singleton_r, remove_all.
      by rewrite <- Hperm, Permutation_app_comm.
    + split; [done |]. exists (DesiredHold.event d). split; [| apply isEquivalent_refl].
      simpl. apply Permutation_singleton_r, remove_all.
      rewrite (replaceFirst_Permutation _ _ _ dups) by done.
      apply Permutation_app_comm with (l := [_]).
Qed.

Let M' := managedIndex (filter (λ e, isManaged e = true) after).

Lemma bucket_small (key : string) (l : list GogEvent.t) :
  filter (hasKey key) after = l → (length l <= 1)%nat → default [] (M' !! key) = l.
Proof.
  intros Hl Hlen. pose proof (bucket_Permutation after key) as Hperm.
  fold M' in Hperm. rewrite Hl in Hperm.
  destruct l as [|x [|y l]]; [| | simpl in Hlen; lia].
  - by apply Permutation_nil_r.
  - by apply Permutation_singleton_r.
Qed.

Lemma replan_desired (key : string) :
  key ∈ sortedKeys D →
  (∃ w, desiredKeyWanted unmanaged M D overlapPolicy key = Ok w) →
  desiredKeyWanted unmanaged M' D overlapPolicy key =
  Ok (filter (λ a, isMutation a = false) (wantedFor key)).
Proof.
  intros [d Hd]%elem_of_sortedKeys [w Hw].
  unfold wantedFor. rewrite Hw.
  destruct (desired_bucket_after key d w Hd Hw)
    as [(Hb & Ha & b & ->) | (Hn & x & Ha & Hx)].
  - unfold desiredKeyWanted in Hw |- *. rewrite Hd in Hw |- *. rewrite Hb in Hw.
    by rewrite (bucket_small key [] Ha) by (simpl; lia).
  - unfold desiredKeyWanted. rewrite Hd, (bucket_small key [x] Ha) by (simpl; lia).
    by rewrite Hx, Hn.
Qed.

Lemma replan_stale (key : string) : managedKeyWanted M' D key = [].
Proof.
  unfold managedKeyWanted. destruct (D !! key) eqn:Hd; [done |].
  by rewrite (bucket_small key [] (stale_bucket_after key Hd)) by (simpl; lia).
Qed.

(** Planning again after the plan wants the skips of the plan and
    nothing else. *)
Lemma replan_wanted :
  Forall (λ k, ∃ w, desiredKeyWanted unmanaged M D overlapPolicy k = Ok w) (sortedKeys D) →
  wantedActions desiredHolds after overlapPolicy =
  Ok (filter (λ a, isMutation a = false) W).
Proof.
  intros Hall. rewrite wantedActions_eq. cbn zeta. rewrite unmanaged_after.
  fold M' D.
  rewrite (collect_all _ (λ k, filter (λ a, isMutation a = false) (wantedFor k))).
  2:{ intros k Hk. apply replan_desired; [done |].
      eapply Forall_forall in Hall; [exact Hall | done]. }
  cbn [bind]. rewrite (concat_nil (managedKeyWanted M' D)) by (intros; apply replan_stale).
  unfold W. rewrite filter_app, !filter_concat_map.
  rewrite (concat_nil (λ k, filter (λ a, isMutation a = false) (staleFor k))); [done |].
  intros k _. unfold staleFor, managedKeyWanted.
  destruct (D !! k); [done | apply filter_deletes_reports].
Qed.

Lemma wanted_is_W (wanted : list ReconcileAction) :
  wantedActions desiredHolds targetEvents overlapPolicy = Ok wanted →
  wanted = W ∧
  Forall (λ k, ∃ w, desiredKeyWanted unmanaged M D overlapPolicy k = Ok w) (sortedKeys D).
Proof.
  rewrite wantedActions_eq. cbn zeta. fold managed unmanaged M D.
  intros (first & Hfirst & [= <-])%bind_Ok.
  apply collect_Ok in Hfirst as [-> Hall]. done.
Qed.

End IdempotenceFacts.

(** C1, as stated, fails.  A capped plan leaves work for the next run: with
    a budget of one the stale event is still there after the create, and the
    next plan deletes it.  A skip changes nothing on the target, so the next
    plan skips again.  And a desired event without the tag of its source is
    not recognised once created, so the next plan creates it again. *)
Lemma replan_not_empty :
  (@planReconcile codeUnitHost [desiredHold fresh] [managedStale] allow 1 =
     Ok (ReconcilePlan.mk [create (desiredHold fresh)] 1 1 true)
   ∧ @planReconcile codeUnitHost [desiredHold fresh]
       (applyPlan (ReconcilePlan.mk [create (desiredHold fresh)] 1 1 true) [managedStale])
       allow 1 =
     Ok (ReconcilePlan.mk [delete managedStale] 1 2 false))
  ∧ (@planReconcile codeUnitHost [desiredHold fresh] [lunchA] skip 10 =
       Ok (ReconcilePlan.mk [skip_overlap (desiredHold fresh) "lunch-a"] 1 0 false)
     ∧ @planReconcile codeUnitHost [desiredHold fresh]
         (applyPlan (ReconcilePlan.mk [skip_overlap (desiredHold fresh) "lunch-a"] 1 0 false)
            [lunchA])
         skip 10 =
       Ok (ReconcilePlan.mk [skip_overlap (desiredHold fresh) "lunch-a"] 1 0 false))
  ∧ (@planReconcile codeUnitHost [untagged] [] allow 10 =
       Ok (ReconcilePlan.mk [create untagged] 1 0 false)
     ∧ @planReconcile codeUnitHost [untagged]
         (applyPlan (ReconcilePlan.mk [create untagged] 1 0 false) []) allow 10 =
       Ok (ReconcilePlan.mk [create untagged] 1 0 false)).
Proof. repeat split; by vm_compute. Qed.

(** C1, amended.  Every desired event carries the tag of its own source,
    and the plan is not capped.  Then planning again on the target with the
    effects of the plan applied returns a plan that is not capped and whose
    actions are the skips of the first plan, in their order: no create, no
    update, no delete; and no action at all when the first plan has no
    skip. *)
Theorem idempotence `{Host} (desiredHolds : list DesiredHold.t)
    (targetEvents : list GogEvent.t) (overlapPolicy : OverlapPolicy)
    (maxChangesPerRun : Z) (plan : ReconcilePlan.t) :
  (∀ d, d ∈ desiredHolds → carriesOwnTag d) →
  planReconcile desiredHolds targetEvents overlapPolicy maxChangesPerRun = Ok plan →
  ReconcilePlan.capped plan = false →
  ∃ plan',
    planReconcile desiredHolds (applyPlan plan targetEvents) overlapPolicy maxChangesPerRun
    = Ok plan' ∧
    ReconcilePlan.actions plan' =
      filter (λ a, isMutation a = false) (ReconcilePlan.actions plan) ∧
    ReconcilePlan.capped plan' = false ∧
    (Forall (λ a, isMutation a = true) (ReconcilePlan.actions plan) →
     ReconcilePlan.actions plan' = []).
Proof.
  intros Htag Hplan Hcapped. rewrite planReconcile_wanted in Hplan.
  apply bind_Ok in Hplan as (wanted & Hwanted & [= <-]). simpl in Hcapped.
  unfold applyPlan. cbn [ReconcilePlan.actions].
  rewrite (run_not_capped _ _ _ Hcapped). cbn [PlanState.actions PlanState.initial app].
  destruct (wanted_is_W _ _ _ _ Hwanted) as [-> Hall].
  rewrite planReconcile_wanted, (replan_wanted _ _ _ Htag Hall). cbn [bind].
  rewrite run_reports.
  2:{ apply Forall_forall. by intros a [? _]%list_elem_of_filter. }
  eexists. split; [reflexivity |]. cbn. split; [done |]. split; [done |].
  intros Hmut. clear -Hmut. induction Hmut as [|a w Ha _ IH]; [done |].
  rewrite filter_cons, decide_False; [exact IH | by rewrite Ha].
Qed.

(** * The theorems at concrete inputs *)

Lemma codeUnitHost_consistent : Consistent (@localeCompare codeUnitHost).
Proof. exact codeUnitCompare_consistent. Qed.

Lemma idempotence_witness :
  ∃ plan',
    @planReconcile codeUnitHost [desiredHold fresh]
      (applyPlan (ReconcilePlan.mk [create (desiredHold fresh); delete managedStale] 1 1 false)
         [managedStale])
      allow 10 = Ok plan' ∧
    ReconcilePlan.actions plan' = [].
Proof.
  destruct (@idempotence codeUnitHost [desiredHold fresh] [managedStale] allow 10
              (ReconcilePlan.mk [create (desiredHold fresh); delete managedStale] 1 1 false))
    as (plan' & Hplan' & _ & _ & Hempty).
  - intros d ->%list_elem_of_singleton. by vm_compute.
  - by vm_compute.
  - reflexivity.
  - exists plan'. split; [exact Hplan' |]. apply Hempty. by repeat constructor.
Defined.

Lemma unmanaged_untouched_witness :
  managedStale ∈ [managedStale; lunchA] ∧
  is_Some (decodeSourceRef (GogEvent.description managedStale)).
Proof.
  refine (proj1 (@unmanaged_untouched codeUnitHost [desiredHold fresh]
            [managedStale; lunchA] allow 10
            (ReconcilePlan.mk [create (desiredHold fresh); delete managedStale] 1 1 false) _)
            (delete managedStale) managedStale _ _).
  - by vm_compute.
  - right. left.
  - reflexivity.
Defined.

Lemma one_action_per_event_witness :
  NoDup (GogEvent.id <$>
           subjects [create (desiredHold fresh); delete managedStale]).
Proof.
  refine (@one_action_per_event codeUnitHost [desiredHold fresh]
            [managedStale; lunchA] allow 10
            (ReconcilePlan.mk [create (desiredHold fresh); delete managedStale] 1 1 false)
            _ _).
  - change (NoDup ["managed-stale"; "lunch-a"]). apply NoDup_cons.
    split; [by intros [=]%list_elem_of_singleton | apply NoDup_singleton].
  - by vm_compute.
Defined.

Lemma duplicate_collapse_witness :
  ∃ primary duplicate,
    (primary, duplicate)
    = (if Str.codeUnitCompare (GogEvent.id dupB) (GogEvent.id dupA) <=? 0
       then (dupB, dupA) else (dupA, dupB)) ∧
    filter (actsOnKey (holdKey fresh))
      [update dupA (desiredHold fresh); delete dupB] =
    (if isEquivalent primary (DesiredHold.event (desiredHold fresh)) then []
     else [update primary (desiredHold fresh)])
    ++ [delete duplicate].
Proof.
  refine (@duplicate_collapse codeUnitHost codeUnitHost_consistent
            [desiredHold fresh] [dupB; dupA] allow 10
            (ReconcilePlan.mk [update dupA (desiredHold fresh); delete dupB] 1 2 false)
            (holdKey fresh) dupB dupA (desiredHold fresh) _ _ _ _).
  - by vm_compute.
  - by vm_compute.
  - by vm_compute.
  - reflexivity.
Defined.


(** * Further properties of the overlap detector *)

Section OverlapFacts.
Context `{Host}.

Lemma isOverlap_ranges (a b : GogEvent.t) (x y : Z * Z) :
  eventRange a = Ok x → eventRange b = Ok y →
  isOverlap a b = Ok ((fst x <? snd y) && (fst y <? snd x)).
Proof. unfold isOverlap. by intros -> ->. Qed.

End OverlapFacts.

(** X1.  Two events whose ranges are not empty overlap exactly when some
    instant lies in both half-open ranges [start, end). *)
Theorem overlap_is_intersection `{Host} (a b : GogEvent.t) (sa ea sb eb : Z) :
  eventRange a = Ok (sa, ea) → eventRange b = Ok (sb, eb) →
  sa < ea → sb < eb →
  (isOverlap a b = Ok true ↔ ∃ t, (sa <= t < ea) ∧ (sb <= t < eb)).
Proof.
  intros Ha Hb Hna Hnb. rewrite (isOverlap_ranges _ _ _ _ Ha Hb). simpl. split.
  - intros [= [Hab Hba]%andb_prop]. apply Z.ltb_lt in Hab, Hba.
    exists (Z.max sa sb). lia.
  - intros (t & Hta & Htb). f_equal. apply andb_true_intro.
    split; apply Z.ltb_lt; lia.
Qed.

Lemma overlap_is_intersection_witness :
  @isOverlap codeUnitHost lunchA lunchB = Ok true ↔
  ∃ t, (1772365500000 <= t < 1772367300000) ∧ (1772367000000 <= t < 1772370000000).
Proof.
  apply (@overlap_is_intersection codeUnitHost lunchA lunchB);
    [reflexivity | reflexivity | lia | lia].
Defined.

(** X2.  The overlap test does not depend on the order of its two events,
    an event that ends when or before the other starts does not overlap it,
    and an event overlaps itself exactly when its range is not empty. *)
Theorem overlap_symmetric_half_open `{Host} (a b : GogEvent.t) (sa ea sb eb : Z) :
  eventRange a = Ok (sa, ea) → eventRange b = Ok (sb, eb) →
  isOverlap a b = isOverlap b a
  ∧ (ea <= sb → isOverlap a b = Ok false)
  ∧ isOverlap a a = Ok (sa <? ea).
Proof.
  intros Ha Hb.
  rewrite (isOverlap_ranges _ _ _ _ Ha Hb), (isOverlap_ranges _ _ _ _ Hb Ha),
    (isOverlap_ranges _ _ _ _ Ha Ha). simpl.
  split; [by rewrite andb_comm |]. split.
  - intros Hle. f_equal. apply andb_false_iff. right. apply Z.ltb_ge. lia.
  - by rewrite andb_diag.
Qed.

Lemma overlap_symmetric_half_open_witness :
  @isOverlap codeUnitHost lunchA lunchB = @isOverlap codeUnitHost lunchB lunchA.
Proof.
  apply (@overlap_symmetric_half_open codeUnitHost lunchA lunchB
           1772365500000 1772367300000 1772367000000 1772370000000);
    reflexivity.
Defined.

(** * Further properties of the metadata codec *)

Section TagFacts.

Lemma prefix_append (needle rest : string) : String.prefix needle (needle +:+ rest) = true.
Proof.
  induction needle as [|c needle IH]; simpl; [by destruct rest |].
  destruct (Ascii.ascii_dec c c); [exact IH | done].
Qed.

Lemma prefix_append_short (needle : string) :
  ∀ s rest, (String.length needle <= String.length s)%nat →
  String.prefix needle (s +:+ rest) = String.prefix needle s.
Proof.
  induction needle as [|c needle IH]; intros [|d s] rest Hlen; simpl in *;
    [by destruct rest | done | lia |].
  destruct (Ascii.ascii_dec c d); [apply IH; lia | done].
Qed.

Lemma indexOfFrom_here (needle rest : string) (i : Z) :
  Str.indexOfFrom needle (needle +:+ rest) i = i.
Proof.
  pose proof (prefix_append needle rest) as Hp.
  destruct (needle +:+ rest); cbn [Str.indexOfFrom]; by rewrite Hp.
Qed.

(** A first occurrence is not moved by text after it. *)
Lemma indexOfFrom_located (needle rest : string) (pre : string) :
  ∀ i, Str.indexOfFrom needle (pre +:+ needle) i = i + Z.of_nat (String.length pre) →
  Str.indexOfFrom needle ((pre +:+ needle) +:+ rest) i = i + Z.of_nat (String.length pre).
Proof.
  induction pre as [|c pre IH]; intros i Hfirst.
  - cbn [append String.length]. rewrite indexOfFrom_here. lia.
  - cbn [append Str.indexOfFrom String.length] in *.
    change (String c ((pre +:+ needle) +:+ rest)) with (String c (pre +:+ needle) +:+ rest).
    destruct (String.prefix needle (String c (pre +:+ needle))) eqn:Hp; [lia |].
    rewrite prefix_append_short, Hp.
    + rewrite IH; lia.
    + simpl. rewrite length_append. lia.
Qed.

Lemma drop_append (a b : string) : Str.drop (String.length a) (a +:+ b) = b.
Proof. induction a as [|c a IH]; simpl; [by destruct b | exact IH]. Qed.

Lemma trimStart_head (s : string) (c : ascii) (t : string) :
  Str.trimStart s = String c t → Str.isSpace c = false.
Proof.
  induction s as [|d s IH]; simpl; [done |].
  destruct (Str.isSpace d) eqn:Hd; [exact IH | by intros [= <- <-]].
Qed.

Lemma trim_empty (s : string) : Str.trim s = "" → Str.trimStart s = "".
Proof.
  unfold Str.trim. destruct (Str.trimStart s) as [|c t] eqn:Hs; [done |].
  simpl. by rewrite (trimStart_head _ _ _ Hs).
Qed.

Lemma trimEnd_space (s : string) : Str.trimStart s = "" → Str.trimEnd s = "".
Proof.
  induction s as [|c s IH]; simpl; [done |].
  destruct (Str.isSpace c); [| done]. intros Hs. by rewrite (IH Hs).
Qed.

Lemma trimEnd_append_space (a post : string) :
  Str.trimStart post = "" → Str.trimEnd (a +:+ post) = Str.trimEnd a.
Proof.
  intros Hpost. induction a as [|c a IH]; simpl.
  - by apply trimEnd_space.
  - by rewrite IH.
Qed.

Lemma trim_encode_space (s post : string) :
  Str.trim post = "" →
  Str.trim (Base64url.encode s +:+ post) = Base64url.encode s.
Proof.
  intros Hpost%trim_empty. rewrite <- (trim_encode s) at 2.
  unfold Str.trim. destruct s as [|c s].
  - simpl. rewrite Hpost. reflexivity.
  - pose proof (encode_not_empty c s) as Hne.
    pose proof (trim_encode (String c s)) as Htrim. unfold Str.trim in Htrim.
    destruct (Base64url.encode (String c s)) as [|d e] eqn:He; [done |].
    simpl in *. destruct (Str.isSpace d) eqn:Hd.
    + exfalso. revert Htrim. rewrite <- He.
      unfold Base64url.encode.
      pose proof (sextets_isSextet (list_ascii_of_string (String c s))) as Hs.
      revert He. unfold Base64url.encode.
      destruct (Base64url.sextets (list_ascii_of_string (String c s))) as [|v vs];
        [done |]. simpl. intros [= <- _].
      apply Forall_cons in Hs as [Hv _]. by rewrite (digit_no_space v Hv) in Hd.
    + simpl. rewrite Hd. simpl. by rewrite trimEnd_append_space.
Qed.

(** Only the text after the first occurrence of the prefix is read. *)
Lemma decodeSourceRef_located (pre text : string) :
  Str.indexOf (pre +:+ METADATA_PREFIX) METADATA_PREFIX = Z.of_nat (String.length pre) →
  decodeSourceRef (Some (pre +:+ METADATA_PREFIX +:+ text)) =
  decodeSourceRef (Some (METADATA_PREFIX +:+ text)).
Proof.
  intros Hfirst. unfold decodeSourceRef.
  assert (Str.isEmpty (pre +:+ METADATA_PREFIX +:+ text) = false) as -> by (by destruct pre).
  change (Str.isEmpty (METADATA_PREFIX +:+ text)) with false. cbn iota.
  unfold Str.indexOf in *.
  rewrite <- (append_assoc pre).
  rewrite (indexOfFrom_located METADATA_PREFIX text pre 0 Hfirst).
  rewrite indexOfFrom_here.
  assert ((0 + Z.of_nat (String.length pre) <? 0) = false) as -> by (apply Z.ltb_ge; lia).
  change (0 <? 0) with false. cbn iota.
  assert (Str.slice ((pre +:+ METADATA_PREFIX) +:+ text)
            (0 + Z.of_nat (String.length pre) + Z.of_nat (String.length METADATA_PREFIX))
          = text) as ->.
  { unfold Str.slice.
    assert ((0 + Z.of_nat (String.length pre) + Z.of_nat (String.length METADATA_PREFIX) <? 0)
            = false) as -> by (apply Z.ltb_ge; lia).
    replace (Z.to_nat _) with (String.length (pre +:+ METADATA_PREFIX))
      by (rewrite length_append; lia).
    apply drop_append. }
  reflexivity.
Qed.

(** Decoding a tag: the prefix, then the base64url text of a JSON text that
    is not empty. *)
Lemma decodeSourceRef_tag (c : ascii) (json post : string) :
  Str.trim post = "" →
  decodeSourceRef (Some (METADATA_PREFIX +:+ Base64url.encode (String c json) +:+ post)) =
  match Json.parse (String c json) with
  | None => None
  | Some parsed =>
      match stringProperty parsed "srcAccount", stringProperty parsed "srcCalendar",
            stringProperty parsed "eventId", stringProperty parsed "start",
            stringProperty parsed "end", stringProperty parsed "title" with
      | Some srcAccount, Some srcCalendar, Some eventId, Some start, Some end_, Some title =>
          Some (SourceRef.mk srcAccount srcCalendar eventId start end_ title)
      | _, _, _, _, _, _ => None
      end
  end.
Proof.
  intros Hpost. unfold decodeSourceRef.
  change (Str.isEmpty (METADATA_PREFIX +:+ _)) with false. cbn iota.
  unfold Str.indexOf. rewrite indexOfFrom_here.
  cbn [Z.ltb Z.compare].
  change (Str.slice (METADATA_PREFIX +:+ ?x) _) with x.
  rewrite (trim_encode_space _ _ Hpost), encode_not_empty, decode_encode.
  reflexivity.
Qed.

Lemma property_absent (name : string) (ms : list (string * string)) :
  name ∉ ms.*1 → Json.property name (map stringMember ms) = None.
Proof.
  induction ms as [|[k v] ms IH]; simpl; [done |].
  intros [Hk Hms]%not_elem_of_cons. rewrite (IH Hms).
  destruct (String.eqb k name) eqn:Heq; [| done].
  apply String.eqb_eq in Heq. by subst.
Qed.

Lemma property_present (name value : string) (ms : list (string * string)) :
  NoDup ms.*1 → (name, value) ∈ ms →
  Json.property name (map stringMember ms) = Some (Json.Str value).
Proof.
  induction ms as [|[k v] ms IH]; simpl; [by intros _ ?%elem_of_nil |].
  intros [Hk Hms]%NoDup_cons [[= <- <-] | Hin]%elem_of_cons.
  - rewrite (property_absent _ _ Hk). by rewrite String.eqb_refl.
  - by rewrite (IH Hms Hin).
Qed.

End TagFacts.

(** X3.  A tag is found inside other text: text before the first
    occurrence of the prefix and white space after the base64url text do
    not change what is decoded. *)
Theorem tag_inside_text (source : SourceRef.t) (pre post : string) :
  Str.indexOf (pre +:+ METADATA_PREFIX) METADATA_PREFIX = Z.of_nat (String.length pre) →
  Str.trim post = "" →
  decodeSourceRef (Some (pre +:+ encodeSourceRef source +:+ post)) = Some source.
Proof.
  intros Hfirst Hpost. unfold encodeSourceRef.
  rewrite (append_assoc METADATA_PREFIX).
  rewrite (decodeSourceRef_located _ _ Hfirst).
  change (Json.stringify (sourceRefJson source))
    with (String "{" (Json.join (map memberText
            (map stringMember
               [("srcAccount", SourceRef.srcAccount source);
                ("srcCalendar", SourceRef.srcCalendar source);
                ("eventId", SourceRef.eventId source);
                ("start", SourceRef.start source);
                ("end", SourceRef.end_ source);
                ("title", SourceRef.title source)]) ) +:+ "}")) at 1.
  rewrite (decodeSourceRef_tag _ _ _ Hpost).
  change (String "{" ?x) with ("{" +:+ x).
  change ("{" +:+ _ +:+ "}") with (Json.stringify (sourceRefJson source)).
  rewrite parse_sourceRefJson. by destruct source.
Qed.

Lemma tag_inside_text_witness :
  decodeSourceRef (Some ("Hold for Sam, " +:+ encodeSourceRef standup +:+ "  ")) = Some standup.
Proof. apply (tag_inside_text standup "Hold for Sam, " "  "); reflexivity. Defined.

(** X4.  The decoder does not depend on the order of the members of the
    JSON object, and further members with string values are ignored: an
    object that holds the six fields once each decodes to the record. *)
Theorem tag_any_member_order (source : SourceRef.t) (members : list (string * string)) :
  NoDup members.*1 →
  [("srcAccount", SourceRef.srcAccount source);
   ("srcCalendar", SourceRef.srcCalendar source);
   ("eventId", SourceRef.eventId source);
   ("start", SourceRef.start source);
   ("end", SourceRef.end_ source);
   ("title", SourceRef.title source)] ⊆ members →
  decodeSourceRef
    (Some (METADATA_PREFIX
           +:+ Base64url.encode (Json.stringify (Json.Object (map stringMember members)))))
  = Some source.
Proof.
  intros Hnodup Hsub.
  assert (members ≠ []) as Hne.
  { intros ->. specialize (Hsub _ (list_elem_of_here _ _)). by apply elem_of_nil in Hsub. }
  pose proof (parse_object_strings members Hne) as Hparse.
  rewrite <- (append_nil_r (Base64url.encode _)).
  revert Hparse.
  change (Json.stringify (Json.Object (map stringMember members)))
    with (String "{" (Json.join (map memberText (map stringMember members)) +:+ "}")).
  intros Hparse. rewrite decodeSourceRef_tag, Hparse by reflexivity.
  assert (∀ name value,
            (name, value) ∈ [("srcAccount", SourceRef.srcAccount source);
                             ("srcCalendar", SourceRef.srcCalendar source);
                             ("eventId", SourceRef.eventId source);
                             ("start", SourceRef.start source);
                             ("end", SourceRef.end_ source);
                             ("title", SourceRef.title source)] →
            Json.property name (map stringMember members) = Some (Json.Str value)) as Hp.
  { intros name value Hin. apply property_present; [done | by apply Hsub]. }
  unfold stringProperty.
  rewrite (Hp "srcAccount" (SourceRef.srcAccount source)) by set_solver.
  rewrite (Hp "srcCalendar" (SourceRef.srcCalendar source)) by set_solver.
  rewrite (Hp "eventId" (SourceRef.eventId source)) by set_solver.
  rewrite (Hp "start" (SourceRef.start source)) by set_solver.
  rewrite (Hp "end" (SourceRef.end_ source)) by set_solver.
  rewrite (Hp "title" (SourceRef.title source)) by set_solver.
  by destruct source.
Qed.

Lemma tag_any_member_order_witness :
  decodeSourceRef
    (Some (METADATA_PREFIX
           +:+ Base64url.encode (Json.stringify (Json.Object (map stringMember
                 [("title", "Standup"); ("end", "2026-03-01T15:00:00.000Z");
                  ("start", "2026-03-01T14:00:00.000Z"); ("eventId", "abc123");
                  ("tool", "other"); ("srcCalendar", "primary");
                  ("srcAccount", "source@example.com")])))))
  = Some standup.
Proof.
  apply (tag_any_member_order standup).
  - apply (bool_decide_unpack _). by vm_compute.
  - apply (bool_decide_unpack _). by vm_compute.
Defined.

(** * Further properties of the reconcile planner *)

Section AnatomyFacts.
Context `{Host}.
Context (desiredHolds : list DesiredHold.t) (targetEvents : list GogEvent.t)
        (overlapPolicy : OverlapPolicy).

Let managed := filter (λ e, isManaged e = true) targetEvents.
Let unmanaged := filter (λ e, isManaged e ≠ true) targetEvents.
Let M := managedIndex managed.
Let D := desiredIndex desiredHolds.

(** Every wanted action comes from the turn of one key. *)
Lemma wanted_origin (wanted : list ReconcileAction) (a : ReconcileAction) :
  wantedActions desiredHolds targetEvents overlapPolicy = Ok wanted →
  a ∈ wanted →
  ∃ key,
    (∃ w, desiredKeyWanted unmanaged M D overlapPolicy key = Ok w ∧ a ∈ w)
    ∨ a ∈ managedKeyWanted M D key.
Proof.
  rewrite wantedActions_eq. simpl. fold managed unmanaged M D.
  intros (first & Hfirst & [= <-])%bind_Ok [Hin | Hin]%elem_of_app.
  - apply collect_Ok in Hfirst as [-> Hall].
    apply elem_of_concat_map in Hin as (key & Hkey & Hin).
    eapply Forall_forall in Hall as [w Hw]; [| exact Hkey].
    rewrite Hw in Hin. exists key. left. eauto.
  - apply elem_of_concat_map in Hin as (key & _ & Hin). exists key. by right.
Qed.

Lemma registered_key (key : string) (d : DesiredHold.t) :
  D !! key = Some d →
  desiredFor (holdKey (DesiredHold.source d)) desiredHolds = Some d
  ∧ holdKey (DesiredHold.source d) = key.
Proof.
  unfold D. rewrite desiredIndex_lookup. intros Hd.
  destruct (desiredFor_Some _ _ _ Hd) as [_ ->]. done.
Qed.

Lemma bucket_empty (key : string) :
  default [] (M !! key) = [] → ∀ e, e ∈ targetEvents → ¬ hasKey key e.
Proof.
  intros Hb e He Hk. pose proof (bucket_Permutation targetEvents key) as Hp.
  fold managed M in Hp. rewrite Hb in Hp. apply Permutation_nil_l in Hp.
  assert (e ∈ filter (hasKey key) targetEvents) as Hin by by apply list_elem_of_filter.
  rewrite <- Hp in Hin. by apply elem_of_nil in Hin.
Qed.

Lemma bucket_member (key : string) (e : GogEvent.t) :
  e ∈ default [] (M !! key) → e ∈ targetEvents ∧ hasKey key e.
Proof.
  pose proof (bucket_Permutation targetEvents key) as Hp. fold managed M in Hp.
  rewrite Hp. intros [? ?]%list_elem_of_filter. done.
Qed.

Lemma bucket_length (key : string) :
  length (default [] (M !! key)) = length (filter (hasKey key) targetEvents).
Proof. apply Permutation_length, bucket_Permutation. Qed.

Lemma unmanaged_member (e : GogEvent.t) :
  e ∈ unmanaged ↔ e ∈ targetEvents ∧ isManaged e = false.
Proof.
  unfold unmanaged. rewrite list_elem_of_filter.
  destruct (isManaged e); split; intros [? ?]; done.
Qed.

(** The keys the wanted actions of one turn are about. *)
Lemma desiredKeyWanted_plannedKeys (key : string) (w : list ReconcileAction) :
  desiredKeyWanted unmanaged M D overlapPolicy key = Ok w →
  sublist (plannedKeys w) [key].
Proof.
  unfold desiredKeyWanted. destruct (D !! key) as [d|] eqn:Hd.
  2:{ intros [= <-]. apply sublist_nil_l. }
  apply registered_key in Hd as [_ Hkey].
  destruct (default [] (M !! key)) as [|primary duplicates].
  - intros (blocker & _ & Hw)%bind_Ok.
    destruct blocker; injection Hw as <-; unfold plannedKeys; simpl; by rewrite Hkey.
  - intros [= <-]. unfold plannedKeys. rewrite omap_app, fmap_app.
    assert (omap planned (map delete duplicates) = []) as ->.
    { clear. by induction duplicates. }
    rewrite app_nil_r.
    destruct (isEquivalent _ _); simpl; [apply sublist_nil_l | by rewrite Hkey].
Qed.

Lemma managedKeyWanted_plannedKeys (key : string) :
  plannedKeys (managedKeyWanted M D key) = [].
Proof.
  unfold managedKeyWanted, plannedKeys. destruct (D !! key); [done |].
  generalize (default [] (M !! key)). intros l. by induction l.
Qed.

Lemma plannedKeys_app (w1 w2 : list ReconcileAction) :
  plannedKeys (w1 ++ w2) = plannedKeys w1 ++ plannedKeys w2.
Proof. unfold plannedKeys. by rewrite omap_app, fmap_app. Qed.

Lemma plannedKeys_sublist (w1 w2 : list ReconcileAction) :
  sublist w1 w2 → sublist (plannedKeys w1) (plannedKeys w2).
Proof.
  unfold plannedKeys. induction 1 as [|a w1 w2 _ IH|a w1 w2 _ IH]; simpl; [done | |].
  - destruct (planned a); simpl; [by apply sublist_skip | done].
  - destruct (planned a); simpl; [by apply sublist_cons | done].
Qed.

Lemma plannedKeys_concat (g : string → list ReconcileAction) (keys : list string) :
  (∀ k, k ∈ keys → sublist (plannedKeys (g k)) [k]) →
  sublist (plannedKeys (concat (map g keys))) keys.
Proof.
  induction keys as [|k keys IH]; intros Hg; simpl; [done |].
  rewrite plannedKeys_app. change (k :: keys) with ([k] ++ keys).
  apply sublist_app; [apply Hg; left |]. apply IH. intros k' Hk'. apply Hg. by right.
Qed.

Lemma plannedKeys_none (g : string → list ReconcileAction) (keys : list string) :
  (∀ k, plannedKeys (g k) = []) → plannedKeys (concat (map g keys)) = [].
Proof.
  intros Hg. induction keys as [|k keys IH]; simpl; [done |].
  by rewrite plannedKeys_app, Hg, IH.
Qed.

Lemma wanted_plannedKeys (wanted : list ReconcileAction) :
  wantedActions desiredHolds targetEvents overlapPolicy = Ok wanted →
  sublist (plannedKeys wanted) (sortedKeys D).
Proof.
  rewrite wantedActions_eq. simpl. fold managed unmanaged M D.
  intros (first & Hfirst & [= <-])%bind_Ok.
  apply collect_Ok in Hfirst as [-> Hall].
  rewrite plannedKeys_app, (plannedKeys_none (managedKeyWanted M D)), app_nil_r
    by apply managedKeyWanted_plannedKeys.
  apply plannedKeys_concat. intros k Hk.
  eapply Forall_forall in Hall as [w Hw]; [| exact Hk].
  rewrite Hw. by apply desiredKeyWanted_plannedKeys.
Qed.

(** What one wanted action of the turn of a desired key says about the
    inputs. *)
Lemma desiredKeyWanted_justified (key : string) (w : list ReconcileAction)
    (a : ReconcileAction) :
  desiredKeyWanted unmanaged M D overlapPolicy key = Ok w → a ∈ w →
  ∃ d, desiredFor key desiredHolds = Some d ∧ holdKey (DesiredHold.source d) = key ∧
    ((a = create d ∧ default [] (M !! key) = [] ∧
      (overlapPolicy = skip →
       ∀ u, u ∈ unmanaged → isOverlap u (DesiredHold.event d) = Ok false))
     ∨ (∃ b, a = skip_overlap d b ∧ default [] (M !! key) = [])
     ∨ (∃ primary duplicates,
          default [] (M !! key) = primary :: duplicates ∧
          (a = update primary d ∧ isEquivalent primary (DesiredHold.event d) = false
           ∨ ∃ duplicate, duplicate ∈ duplicates ∧ a = delete duplicate))).
Proof.
  unfold desiredKeyWanted. destruct (D !! key) as [d|] eqn:Hd.
  2:{ intros [= <-] Hin. by apply elem_of_nil in Hin. }
  pose proof Hd as Hfor. unfold D in Hfor. rewrite desiredIndex_lookup in Hfor.
  apply registered_key in Hd as [_ Hkey].
  intros Hw Hin. exists d. split; [done |]. split; [done |].
  destruct (default [] (M !! key)) as [|primary duplicates].
  - apply bind_Ok in Hw as (blocker & Hfind & Hw).
    destruct blocker as [blocker|]; injection Hw as <-;
      apply list_elem_of_singleton in Hin as ->.
    + right. left. eauto.
    + left. split; [done |]. split; [done |]. intros ->.
      intros u Hu. by eapply find_None in Hfind.
  - injection Hw as <-. right. right. exists primary, duplicates. split; [done |].
    apply elem_of_app in Hin as [Hin | Hin].
    + destruct (isEquivalent _ _) eqn:Heq; [by apply elem_of_nil in Hin |].
      apply list_elem_of_singleton in Hin as ->. by left.
    + apply list_elem_of_fmap in Hin as (x & -> & Hx). right. eauto.
Qed.

Lemma managedKeyWanted_justified (key : string) (a : ReconcileAction) :
  a ∈ managedKeyWanted M D key →
  desiredFor key desiredHolds = None ∧
  ∃ stale, a = delete stale ∧ stale ∈ default [] (M !! key).
Proof.
  unfold managedKeyWanted. destruct (D !! key) as [d|] eqn:Hd.
  { by intros ?%elem_of_nil. }
  unfold D in Hd. rewrite desiredIndex_lookup in Hd.
  intros (x & -> & Hx)%list_elem_of_fmap. eauto.
Qed.

(** The buckets of the index, appended in any order of the keys, are the
    managed events. *)
Lemma buckets_Permutation (g : string → list GogEvent.t) (keys : list string) :
  NoDup keys →
  ∀ events, (∀ e, e ∈ events → ∃ k, k ∈ keys ∧ hasKey k e) →
  (∀ k, k ∈ keys → g k ≡ₚ filter (hasKey k) events) →
  concat (map g keys) ≡ₚ events.
Proof.
  induction 1 as [|k keys Hk Hkeys IH]; intros events Hall Hg; simpl.
  { destruct events as [|e events]; [done |].
    destruct (Hall e) as (k & Hk & _); [left |]. by apply elem_of_nil in Hk. }
  rewrite <- (filter_app_complement (hasKey k) events).
  apply Permutation_app; [apply Hg; left |].
  apply IH.
  - intros e [Hne He]%list_elem_of_filter.
    destruct (Hall e He) as (k' & [-> | Hk']%elem_of_cons & Hkey); [done | eauto].
  - intros k' Hk'. rewrite list_filter_filter.
    erewrite list_filter_iff; [apply Hg; by right |].
    intros e. split; [tauto |]. intros He. split; [done |].
    intros He'. apply Hk. by rewrite (hasKey_functional _ _ _ He' He).
Qed.

Lemma stale_buckets :
  concat (map (λ key, default [] (M !! key)) (sortedKeys M)) ≡ₚ managed.
Proof.
  apply buckets_Permutation; [apply NoDup_sortedKeys | |].
  - intros e He. pose proof He as [Hm _]%list_elem_of_filter.
    apply isManaged_eventKey in Hm as [k Hk]. exists k. split; [| done].
    apply elem_of_sortedKeys, managedIndex_is_Some. eauto.
  - intros k _. unfold M. rewrite managedIndex_bucket. by rewrite sort_Permutation.
Qed.

End AnatomyFacts.

Section ClosedBudget.
Context (maxChangesPerRun : Z).

(** Once the budget is used up, a run only reports. *)
Lemma run_closed (wanted : list ReconcileAction) :
  ∀ state, maxChangesPerRun <= PlanState.changes state →
  run maxChangesPerRun wanted state =
  PlanState.mk
    (PlanState.actions state ++ filter (λ a, isMutation a = false) wanted)
    (PlanState.changes state)
    (PlanState.capped state || bool_decide (mutations wanted ≠ 0%nat)).
Proof.
  induction wanted as [|a w IH]; intros [actions changes capped] Hfull; simpl in *.
  { by rewrite app_nil_r, orb_false_r. }
  change (run maxChangesPerRun (a :: w) ?st)
    with (run maxChangesPerRun w (gate maxChangesPerRun st a)).
  rewrite mutations_cons, filter_cons. unfold gate, mutate, report. simpl.
  destruct (isMutation a) eqn:Ha.
  - assert ((changes >=? maxChangesPerRun) = true) as -> by (apply Z.geb_le; lia).
    rewrite IH by done. cbn [PlanState.actions PlanState.changes PlanState.capped].
    rewrite decide_False by done.
    rewrite (bool_decide_true ((1 + _)%nat ≠ _)) by done.
    by rewrite orb_true_r.
  - rewrite IH by done. cbn [PlanState.actions PlanState.changes PlanState.capped].
    rewrite decide_True by done.
    by rewrite <- app_assoc.
Qed.

End ClosedBudget.

Lemma isEquivalent_fields (a b : GogEvent.t) :
  isEquivalent a b = true ↔ comparedFields a = comparedFields b.
Proof.
  unfold isEquivalent, comparedFields. rewrite !andb_true_iff, !bool_decide_eq_true.
  split.
  - intros [[[[[[[-> ->] ->] ->] ->] ->] ->] ->]. done.
  - intros [= -> -> -> -> -> -> -> ->]. done.
Qed.

(** X5.  Every create, update and delete of a plan is called for by the
    inputs.  A create is for the hold registered under its key, no target
    event is managed under that key and, under the policy skip, no unmanaged
    target event overlaps the hold.  An update is of a target event managed
    under the key of the registered hold that differs from the desired event
    in a compared field.  A delete is of a managed target event whose key is
    not desired or is shared with another managed target event. *)
Theorem actions_justified `{Host} (desiredHolds : list DesiredHold.t)
    (targetEvents : list GogEvent.t) (overlapPolicy : OverlapPolicy)
    (maxChangesPerRun : Z) (plan : ReconcilePlan.t) :
  planReconcile desiredHolds targetEvents overlapPolicy maxChangesPerRun = Ok plan →
  (∀ desired, create desired ∈ ReconcilePlan.actions plan →
     desiredFor (holdKey (DesiredHold.source desired)) desiredHolds = Some desired
     ∧ (∀ e, e ∈ targetEvents → ¬ hasKey (holdKey (DesiredHold.source desired)) e)
     ∧ (overlapPolicy = skip →
        ∀ e, e ∈ targetEvents → isManaged e = false →
             isOverlap e (DesiredHold.event desired) = Ok false))
  ∧ (∀ existing desired, update existing desired ∈ ReconcilePlan.actions plan →
       desiredFor (holdKey (DesiredHold.source desired)) desiredHolds = Some desired
       ∧ existing ∈ targetEvents
       ∧ hasKey (holdKey (DesiredHold.source desired)) existing
       ∧ isEquivalent existing (DesiredHold.event desired) = false)
  ∧ (∀ existing, delete existing ∈ ReconcilePlan.actions plan →
       existing ∈ targetEvents
       ∧ ∃ key, hasKey key existing
                ∧ (desiredFor key desiredHolds = None
                   ∨ (2 <= length (filter (hasKey key) targetEvents))%nat)).
Proof.
  rewrite planReconcile_wanted. intros (wanted & Hwanted & [= <-])%bind_Ok. simpl.
  destruct (run_kept maxChangesPerRun wanted PlanState.initial) as (kept & -> & Hsub & _).
  simpl.
  assert (Horigin : ∀ a, a ∈ kept → ∃ key, _) by
    (intros a Ha; eapply (wanted_origin _ _ _ wanted a);
     [exact Hwanted | by eapply elem_of_sublist]).
  split; [| split].
  - intros desired (key & [(w & Hw & Hin) | Hin])%Horigin.
    + apply (desiredKeyWanted_justified _ _ _ _ _ _ Hw) in Hin
        as (d & Hfor & Hkey & [(Heq & Hb & Hclear) | [(b & Heq & _) |
            (p & ds & _ & [[Heq _] | (x & _ & Heq)])]]); try discriminate Heq.
      injection Heq as ->. rewrite Hkey. split; [done |]. split.
      * by apply bucket_empty.
      * intros Hskip e He Hm. apply (Hclear Hskip). by apply unmanaged_member.
    + by apply managedKeyWanted_justified in Hin as (_ & x & [=] & _).
  - intros existing desired (key & [(w & Hw & Hin) | Hin])%Horigin.
    + apply (desiredKeyWanted_justified _ _ _ _ _ _ Hw) in Hin
        as (d & Hfor & Hkey & [(Heq & _) | [(b & Heq & _) |
            (p & ds & Hb & [[Heq Hne] | (x & _ & Heq)])]]); try discriminate Heq.
      injection Heq as -> ->. rewrite Hkey. split; [done |].
      destruct (bucket_member targetEvents key p) as [Hp Hk]; [rewrite Hb; left |].
      done.
    + by apply managedKeyWanted_justified in Hin as (_ & x & [=] & _).
  - intros existing (key & [(w & Hw & Hin) | Hin])%Horigin.
    + apply (desiredKeyWanted_justified _ _ _ _ _ _ Hw) in Hin
        as (d & Hfor & Hkey & [(Heq & _) | [(b & Heq & _) |
            (p & ds & Hb & [[Heq _] | (x & Hx & Heq)])]]); try discriminate Heq.
      injection Heq as ->.
      destruct (bucket_member targetEvents key x) as [Hp Hk]; [rewrite Hb; by right |].
      split; [done |]. exists key. split; [done |]. right.
      rewrite <- bucket_length, Hb. destruct ds; [by apply elem_of_nil in Hx | simpl; lia].
    + apply managedKeyWanted_justified in Hin as (Hnone & x & [= ->] & Hx).
      destruct (bucket_member targetEvents key x Hx) as [Hp Hk].
      split; [done |]. exists key. auto.
Qed.

Lemma actions_justified_witness :
  desiredFor (holdKey fresh) [desiredHold fresh] = Some (desiredHold fresh)
  ∧ ¬ hasKey (holdKey fresh) managedStale.
Proof.
  destruct (proj1 (@actions_justified codeUnitHost [desiredHold fresh]
                     [managedStale; lunchA] allow 10
                     (ReconcilePlan.mk [create (desiredHold fresh); delete managedStale]
                        1 1 false)
                     ltac:(by vm_compute))
              (desiredHold fresh) ltac:(left)) as (Hfor & Hvacant & _).
  split; [exact Hfor |]. apply Hvacant. left.
Defined.

(** X6.  A plan holds at most one create, update or skip for a key, however
    many desired holds share the key, and only for keys of desired holds. *)
Theorem one_action_per_desired_key `{Host} (desiredHolds : list DesiredHold.t)
    (targetEvents : list GogEvent.t) (overlapPolicy : OverlapPolicy)
    (maxChangesPerRun : Z) (plan : ReconcilePlan.t) :
  planReconcile desiredHolds targetEvents overlapPolicy maxChangesPerRun = Ok plan →
  NoDup (plannedKeys (ReconcilePlan.actions plan))
  ∧ ∀ key, key ∈ plannedKeys (ReconcilePlan.actions plan) →
           is_Some (desiredFor key desiredHolds).
Proof.
  rewrite planReconcile_wanted. intros (wanted & Hwanted & [= <-])%bind_Ok. simpl.
  destruct (run_kept maxChangesPerRun wanted PlanState.initial) as (kept & -> & Hsub & _).
  simpl.
  assert (sublist (plannedKeys kept) (sortedKeys (desiredIndex desiredHolds))) as Hkeys.
  { etrans; [by apply plannedKeys_sublist |]. by eapply wanted_plannedKeys. }
  split.
  - eapply sublist_NoDup; [| exact Hkeys]. apply NoDup_sortedKeys.
  - intros key Hkey. eapply elem_of_sublist in Hkey; [| exact Hkeys].
    apply elem_of_sortedKeys in Hkey. by rewrite desiredIndex_lookup in Hkey.
Qed.

Lemma one_action_per_desired_key_witness :
  NoDup (plannedKeys [update dupA (desiredHold fresh); delete dupB]).
Proof.
  refine (proj1 (@one_action_per_desired_key codeUnitHost
            [desiredHold fresh; desiredHold fresh] [dupA; dupB] skip 10
            (ReconcilePlan.mk [update dupA (desiredHold fresh); delete dupB] 2 2 false) _)).
  by vm_compute.
Defined.

(** X7.  A key with one managed target event that agrees with the desired
    event of the key in the eight compared fields gets no action, whatever
    the id, etag, updated, status, reminders and time zones of the event
    are. *)
Theorem settled_key `{Host} (desiredHolds : list DesiredHold.t)
    (targetEvents : list GogEvent.t) (overlapPolicy : OverlapPolicy)
    (maxChangesPerRun : Z) (plan : ReconcilePlan.t)
    (key : string) (existing : GogEvent.t) (desired : DesiredHold.t) :
  filter (hasKey key) targetEvents = [existing] →
  desiredFor key desiredHolds = Some desired →
  comparedFields existing = comparedFields (DesiredHold.event desired) →
  planReconcile desiredHolds targetEvents overlapPolicy maxChangesPerRun = Ok plan →
  (key ∉ plannedKeys (ReconcilePlan.actions plan))
  ∧ (∀ action, action ∈ ReconcilePlan.actions plan → subject action ≠ Some existing).
Proof.
  intros Hone Hfor Hfields%isEquivalent_fields.
  rewrite planReconcile_wanted. intros (wanted & Hwanted & [= <-])%bind_Ok. simpl.
  destruct (run_kept maxChangesPerRun wanted PlanState.initial) as (kept & -> & Hsub & _).
  simpl.
  pose proof (bucket_Permutation targetEvents key) as Hbucket.
  rewrite Hone in Hbucket. apply Permutation_singleton_r in Hbucket.
  assert (Hturn : desiredKeyWanted (filter (λ e, isManaged e ≠ true) targetEvents)
                    (managedIndex (filter (λ e, isManaged e = true) targetEvents))
                    (desiredIndex desiredHolds) overlapPolicy key = Ok []).
  { unfold desiredKeyWanted. by rewrite desiredIndex_lookup, Hfor, Hbucket, Hfields. }
  assert (Hkeyed : hasKey key existing).
  { assert (existing ∈ filter (hasKey key) targetEvents) as Hin by (rewrite Hone; left).
    by apply list_elem_of_filter in Hin as [? _]. }
  assert (Hnone : ∀ a, a ∈ wanted →
            planned a ≠ None → holdKey (DesiredHold.source (default desired (planned a))) ≠ key).
  { intros a (k & [(w & Hw & Hin) | Hin])%(wanted_origin _ _ _ _ _ Hwanted) Hp Hk.
    - pose proof (desiredKeyWanted_plannedKeys _ _ _ _ _ Hw) as Hks.
      assert (key ∈ plannedKeys w) as Hkw.
      { unfold plannedKeys. apply list_elem_of_fmap.
        destruct (planned a) as [d|] eqn:Hd; [| done]. exists d. split; [done |].
        apply list_elem_of_omap. eauto. }
      eapply elem_of_sublist in Hkw; [| exact Hks].
      apply list_elem_of_singleton in Hkw as ->.
      rewrite Hturn in Hw. injection Hw as <-. by apply elem_of_nil in Hin.
    - apply managedKeyWanted_justified in Hin as (_ & x & -> & _). done. }
  split.
  - intros (d & Hd & (a & Ha & Hp)%list_elem_of_omap)%list_elem_of_fmap.
    eapply elem_of_sublist in Ha; [| exact Hsub].
    apply (Hnone a Ha); rewrite Hp; done.
  - intros a Ha Hs. eapply elem_of_sublist in Ha; [| exact Hsub].
    apply (wanted_origin _ _ _ _ _ Hwanted) in Ha as (k & [(w & Hw & Hin) | Hin]).
    + assert (hasKey k existing) as Hk.
      { eapply desiredKeyWanted_keyed; [exact Hw |].
        apply list_elem_of_omap. eauto. }
      rewrite (hasKey_functional _ _ _ Hk Hkeyed) in Hw.
      rewrite Hturn in Hw. injection Hw as <-. by apply elem_of_nil in Hin.
    + pose proof Hin as (Hstale & _)%managedKeyWanted_justified.
      assert (hasKey k existing) as Hk.
      { eapply managedKeyWanted_keyed. apply list_elem_of_omap. eauto. }
      rewrite (hasKey_functional _ _ _ Hk Hkeyed) in Hstale. congruence.
Qed.

Lemma settled_key_witness :
  holdKey fresh ∉ plannedKeys [delete managedStale].
Proof.
  refine (proj1 (@settled_key codeUnitHost [desiredHold fresh] [dupB; managedStale] skip 10
            (ReconcilePlan.mk [delete managedStale] 1 2 false)
            (holdKey fresh) dupB (desiredHold fresh) _ _ _ _)).
  - by vm_compute.
  - by vm_compute.
  - reflexivity.
  - by vm_compute.
Defined.

(** X8.  With no desired hold the planner never fails and plans nothing
    but deletes of managed target events; when the budget allows as many
    changes as there are managed events, every one of them is deleted. *)
Theorem nothing_desired `{Host} (targetEvents : list GogEvent.t)
    (overlapPolicy : OverlapPolicy) (maxChangesPerRun : Z) :
  ∃ plan,
    planReconcile [] targetEvents overlapPolicy maxChangesPerRun = Ok plan
    ∧ Forall (λ a, isDelete a = true) (ReconcilePlan.actions plan)
    ∧ subjects (ReconcilePlan.actions plan) ⊆+ filter (λ e, isManaged e = true) targetEvents
    ∧ (Z.of_nat (length (filter (λ e, isManaged e = true) targetEvents)) <= maxChangesPerRun →
       subjects (ReconcilePlan.actions plan) ≡ₚ filter (λ e, isManaged e = true) targetEvents
       ∧ ReconcilePlan.capped plan = false).
Proof.
  rewrite planReconcile_wanted, wantedActions_eq. simpl.
  set (managed := filter (λ e, isManaged e = true) targetEvents).
  set (M := managedIndex managed).
  change (desiredIndex []) with (∅ : gmap string DesiredHold.t).
  assert (sortedKeys (∅ : gmap string DesiredHold.t) = []) as ->.
  { unfold sortedKeys. by rewrite map_to_list_empty. }
  simpl.
  set (wanted := concat (map (managedKeyWanted M ∅) (sortedKeys M))).
  assert (wanted = map delete (concat (map (λ key, default [] (M !! key)) (sortedKeys M))))
    as Hwanted.
  { unfold wanted. generalize (sortedKeys M). intros keys.
    induction keys as [|k keys IH]; simpl; [done |].
    rewrite map_app, <- IH. unfold managedKeyWanted at 1. by rewrite lookup_empty. }
  pose proof (stale_buckets targetEvents) as Hall. fold managed M in Hall.
  eexists. split; [reflexivity |]. simpl.
  destruct (run_kept maxChangesPerRun wanted PlanState.initial)
    as (kept & Hkept & Hsub & _). simpl in Hkept.
  split; [| split].
  - rewrite Hkept. apply Forall_forall. intros a Ha.
    eapply elem_of_sublist in Ha; [| exact Hsub]. rewrite Hwanted in Ha.
    by apply list_elem_of_fmap in Ha as (x & -> & _).
  - rewrite Hkept. etrans; [apply sublist_submseteq, subjects_sublist, Hsub |].
    rewrite Hwanted, subjects_deletes. by rewrite Hall.
  - intros Hfits. rewrite run_fits.
    + simpl. by rewrite Hwanted, subjects_deletes.
    + simpl. rewrite Hwanted. unfold mutations.
      rewrite filter_deletes_mutations, length_map, Hall. lia.
Qed.

(** X9.  With a budget of zero or less a plan holds no create, update or
    delete.  It holds the skips of the plan for any positive budget, and it
    is flagged as capped exactly when that plan holds a change. *)
Theorem closed_budget `{Host} (desiredHolds : list DesiredHold.t)
    (targetEvents : list GogEvent.t) (overlapPolicy : OverlapPolicy)
    (maxChangesPerRun N : Z) (plan plan' : ReconcilePlan.t) :
  maxChangesPerRun <= 0 → 1 <= N →
  planReconcile desiredHolds targetEvents overlapPolicy maxChangesPerRun = Ok plan →
  planReconcile desiredHolds targetEvents overlapPolicy N = Ok plan' →
  Forall (λ a, isMutation a = false) (ReconcilePlan.actions plan)
  ∧ ReconcilePlan.actions plan =
      filter (λ a, isMutation a = false) (ReconcilePlan.actions plan')
  ∧ (ReconcilePlan.capped plan = true ↔ mutations (ReconcilePlan.actions plan') ≠ 0%nat).
Proof.
  intros Hclosed Hopen. rewrite !planReconcile_wanted.
  intros (wanted & Hwanted & [= <-])%bind_Ok. rewrite Hwanted. simpl.
  intros [= <-]. simpl.
  rewrite run_closed by (simpl; lia). simpl.
  destruct (run_kept N wanted PlanState.initial) as (kept & -> & Hsub & Hreports & Hcount).
  simpl in *. rewrite Hreports. split; [| split; [done |]].
  - apply Forall_forall. by intros a [? _]%list_elem_of_filter.
  - rewrite bool_decide_eq_true.
    destruct (decide (Z.of_nat (mutations wanted) <= N)) as [Hfits | Hover].
    + rewrite run_fits in Hcount by (simpl; lia). simpl in Hcount.
      by replace (mutations kept) with (mutations wanted) by lia.
    + destruct (run_exceeds N wanted PlanState.initial) as [Hn _]; [simpl; lia .. |].
      rewrite Hcount in Hn. split; lia.
Qed.

Lemma closed_budget_witness :
  ReconcilePlan.capped (ReconcilePlan.mk [] 1 1 true) = true ↔
  mutations [create (desiredHold fresh)] ≠ 0%nat.
Proof.
  refine (proj2 (proj2 (@closed_budget codeUnitHost [desiredHold fresh] [managedStale] allow
            0 1 (ReconcilePlan.mk [] 1 1 true)
            (ReconcilePlan.mk [create (desiredHold fresh)] 1 1 true) _ _ _ _))).
  - lia.
  - lia.
  - by vm_compute.
  - by vm_compute.
Defined.

(** * The configuration and the command templates *)

Section ConfigFacts.

Lemma isEmpty_false (s : string) : Str.isEmpty s = false ↔ s ≠ "".
Proof. by destruct s. Qed.

Lemma concat_nil_iff {A} (ls : list (list A)) : concat ls = [] ↔ Forall (λ l, l = []) ls.
Proof.
  induction ls as [|l ls IH]; simpl; [by split |].
  rewrite app_nil, IH, Forall_cons. done.
Qed.

Lemma concat_imap_nil {A B} (l : list A) :
  ∀ f : nat → A → list B,
  concat (imap f l) = [] ↔ ∀ i x, l !! i = Some x → f i x = [].
Proof.
  induction l as [|a l IH]; intros f; simpl.
  - split; [by intros _ i x [=] | done].
  - rewrite app_nil, IH. split.
    + intros [Ha Hl] [|i] x; simpl; [by intros [= <-] | apply Hl].
    + intros Hall. split; [by apply (Hall 0%nat) |]. intros i x Hx. by apply (Hall (S i)).
Qed.

Lemma imap_pair_snd {A} (l : list A) : ∀ g : nat → nat, (imap (λ i x, (g i, x)) l).*2 = l.
Proof.
  induction l as [|a l IH]; intros g; simpl; [done |]. f_equal.
  apply (IH (g ∘ S)).
Qed.

Lemma validateSources_nil (index : nat) (sources : list Source.t) :
  concat (imap (validateSource index) sources) = [] ↔ Forall validSource sources.
Proof.
  rewrite concat_imap_nil, Forall_lookup. unfold validateSource, validSource.
  split; intros Hall i source Hi; specialize (Hall i source Hi).
  - apply app_nil in Hall as [Ha Hc].
    destruct (Source.account source), (Source.calendarId source); done.
  - destruct Hall as [Ha Hc].
    destruct (Source.account source), (Source.calendarId source); done.
Qed.

Lemma oneOf_nil (allowed : list string) (value : option string) (message : string) :
  match truthy value with
  | Some word => if bool_decide (word ∈ allowed) then [] else [message]
  | None => []
  end = [] ↔ oneOf allowed value.
Proof.
  unfold oneOf. destruct (truthy value) as [word|]; [| done].
  destruct (bool_decide_reflect (word ∈ allowed)); split; done.
Qed.

Lemma sourcesErrors_nil (index : nat) (sources : list Source.t) (message : string) :
  match sources with
  | [] => [message]
  | _ :: _ => concat (imap (validateSource index) sources)
  end = [] ↔ sources ≠ [] ∧ Forall validSource sources.
Proof.
  destruct sources as [|s ss]; [by split; [| intros []] |].
  rewrite validateSources_nil. split; [by intros ? | by intros []].
Qed.

Lemma atLeast_nil (bound : Z) (value : option Z) (message : string) :
  match value with
  | Some number => if number <? bound then [message] else []
  | None => []
  end = [] ↔ ∀ number, value = Some number → bound <= number.
Proof.
  destruct value as [number|]; [| by split].
  destruct (Z.ltb_spec number bound); split; try done.
  - intros Hall. specialize (Hall number eq_refl). lia.
  - intros _ ? [= <-]. lia.
Qed.

Lemma nameErrors_nil (names : gset string) (name required unique : string) :
  (if Str.isEmpty name then [required]
   else if bool_decide (name ∈ names) then [unique] else []) = [] ↔
  name ≠ "" ∧ name ∉ names.
Proof.
  destruct name as [|c name]; simpl; [by split; [| intros [[] _]] |].
  destruct (bool_decide_reflect (String c name ∈ names)); split; try done.
  by intros [_ []].
Qed.

Lemma required_nil (value message : string) :
  (if Str.isEmpty value then [message] else []) = [] ↔ value ≠ "".
Proof. destruct value; simpl; split; done. Qed.

Lemma mappingErrors_nil (names : gset string) (index : nat) (mapping : Mapping.t) :
  mappingErrors names index mapping = [] ↔
  validMapping mapping ∧ Mapping.name mapping ∉ names.
Proof.
  unfold mappingErrors, validMapping. cbv zeta.
  rewrite !app_nil, !oneOf_nil, nameErrors_nil, required_nil, sourcesErrors_nil, atLeast_nil.
  tauto.
Qed.

Lemma validateMappings_nil (entries : list (nat * Mapping.t)) :
  ∀ errors names,
  fst (foldl validateMapping (errors, names) entries) = [] ↔
  errors = [] ∧ Forall validMapping entries.*2
  ∧ NoDup (Mapping.name <$> entries.*2)
  ∧ ∀ mapping, mapping ∈ entries.*2 → Mapping.name mapping ∉ names.
Proof.
  induction entries as [|[index mapping] entries IH]; intros errors names; simpl.
  { split; [intros ->; repeat split; [constructor .. |] | by intros [? _]].
    by intros ? ?%elem_of_nil. }
  rewrite IH, app_nil, mappingErrors_nil, Forall_cons, NoDup_cons. split.
  - intros ((-> & Hvalid & Hfresh) & Hrest & Hnodup & Hnames).
    pose proof Hvalid as (Hname%isEmpty_false & _).
    rewrite Hname, (bool_decide_false _ Hfresh) in Hnames. simpl in Hnames.
    refine (conj eq_refl (conj (conj Hvalid Hrest) (conj (conj _ Hnodup) _))).
    + intros (m & Heq & Hm)%list_elem_of_fmap. apply (Hnames m Hm).
      apply elem_of_union. right. by apply elem_of_singleton.
    + intros m [-> | Hm]%elem_of_cons; [done |]. intros Hin. apply (Hnames m Hm).
      apply elem_of_union. by left.
  - intros (-> & [Hvalid Hrest] & [Hfirst Hnodup] & Hnames).
    assert (Mapping.name mapping ∉ names) as Hfresh by (apply Hnames; left).
    pose proof Hvalid as (Hname%isEmpty_false & _).
    rewrite Hname, (bool_decide_false _ Hfresh). simpl.
    refine (conj (conj eq_refl (conj Hvalid Hfresh)) (conj Hrest (conj Hnodup _))).
    intros m Hm. apply not_elem_of_union. split; [apply Hnames; by right |].
    intros Heq%elem_of_singleton. apply Hfirst. apply list_elem_of_fmap. eauto.
Qed.

Context `{RegExpEngine}.

Lemma validatePatterns_nil (patterns : list string) :
  concat (imap validatePattern patterns) = [] ↔
  Forall (λ pattern, (utf16Length pattern <= 512)%nat ∧ RegExp_error pattern = None)
    patterns.
Proof.
  rewrite concat_imap_nil, Forall_lookup. unfold validatePattern.
  split; intros Hall i pattern Hi; specialize (Hall i pattern Hi).
  - destruct (Nat.ltb_spec 512 (utf16Length pattern)); [done |].
    destruct (RegExp_error pattern); [done |]. split; [lia | done].
  - destruct Hall as [Hl ->].
    destruct (Nat.ltb_spec 512 (utf16Length pattern)); [lia | done].
Qed.

Lemma validateCommands_nil (config : Config.t) :
  (if customCommandsAllowed config then []
   else concat (map (λ key,
          match override config key with
          | Some _ =>
              ["gog." +:+ commandName key +:+ " requires gog.allowCustomCommands=true"]
          | None => []
          end) commandKeys)) = []
  ∧ (if customCommandsAllowed config
     then concat (map (λ key,
            match override config key with
            | Some cmd =>
                if startsWithGog cmd then []
                else ["gog." +:+ commandName key +:+ " must start with 'gog '"]
            | None => []
            end) commandKeys)
     else []) = []
  ↔ ∀ key, validCommand config key.
Proof.
  unfold validCommand.
  destruct (customCommandsAllowed config); rewrite concat_nil_iff, Forall_fmap, Forall_forall.
  - split.
    + intros [_ Hall] key. specialize (Hall key). simpl in Hall.
      destruct (override config key) as [cmd|]; [| done].
      destruct (startsWithGog cmd); [done |]. by destruct key; discriminate Hall; set_solver.
    + intros Hall. split; [done |]. intros key _. simpl. specialize (Hall key).
      destruct (override config key) as [cmd|]; [| done]. by destruct Hall as [_ ->].
  - split.
    + intros [Hall _] key. specialize (Hall key). simpl in Hall.
      destruct (override config key) as [cmd|]; [| done].
      by destruct key; discriminate Hall; set_solver.
    + intros Hall. split; [| done]. intros key _. simpl. specialize (Hall key).
      destruct (override config key) as [cmd|]; [| done]. by destruct Hall as [[=] _].
Qed.

Lemma validateConfig_nil (config : Config.t) :
  validateConfig config = [] ↔ validConfiguration config.
Proof.
  unfold validateConfig, validConfiguration.
  destruct (Config.mappings config) as [|m ms] eqn:Hms.
  { split; [done | by intros [[] _]]. }
  assert (Config.mappings config ≠ []) as Hne by by rewrite Hms.
  rewrite <- Hms. clear m ms Hms.
  rewrite !app_nil.
  rewrite validateMappings_nil, validatePatterns_nil, validateCommands_nil.
  unfold imap. rewrite (imap_pair_snd _ id).
  assert (match Config.safety config ≫= Safety.maxChangesPerRun with
          | Some budget =>
              if budget <? 1 then ["safety.maxChangesPerRun must be >= 1"] else []
          | None => []
          end = [] ↔ 1 <= changeBudget config) as ->.
  { unfold changeBudget.
    destruct (Config.safety config ≫= Safety.maxChangesPerRun) as [budget|]; simpl;
      [| by split].
    destruct (Z.ltb_spec budget 1); split; try done; lia. }
  assert (match Config.scheduling config ≫= Scheduling.watchIntervalSeconds with
          | Some seconds =>
              if seconds <? 5 then ["scheduling.watchIntervalSeconds must be >= 5"] else []
          | None => []
          end = [] ↔
          ∀ seconds,
            Config.scheduling config ≫= Scheduling.watchIntervalSeconds = Some seconds →
            5 <= seconds) as ->.
  { destruct (Config.scheduling config ≫= Scheduling.watchIntervalSeconds) as [seconds|];
      [| by split].
    destruct (Z.ltb_spec seconds 5); split; try done.
    - intros Hall. specialize (Hall seconds eq_refl). lia.
    - intros _ ? [= <-]. lia. }
  split.
  - intros ((_ & Hvalid & Hnodup & _) & Hbudget & Hwatch & Hpatterns & Hcommands).
    done.
  - intros (_ & Hvalid & Hnodup & Hbudget & Hwatch & Hpatterns & Hcommands).
    refine (conj (conj eq_refl (conj Hvalid (conj Hnodup _))) _); [| done].
    intros mapping _. apply not_elem_of_empty.
Qed.

End ConfigFacts.

(** * The guards of a run *)

Section OutcomeFacts.

Lemma andThen_Returns {A B} (r : Outcome A) (k : A → Outcome B) (b : B) :
  andThen r k = Returns b ↔ ∃ a, r = Returns a ∧ k a = Returns b.
Proof.
  destruct r as [a|e]; simpl; split.
  - eauto.
  - by intros (a' & [= ->] & Hk).
  - done.
  - by intros (a' & [=] & _).
Qed.

Lemma foldl_Throws {A K} (f : A → K → Outcome A) (e : Exception) (l : list K) :
  foldl (λ state x, let* state := state in f state x) (Throws e) l = Throws e.
Proof. by induction l. Qed.

Lemma ofCore_Returns {A} (r : Result A) (a : A) : ofCore r = Returns a ↔ r = Ok a.
Proof. destruct r; simpl; split; congruence. Qed.

End OutcomeFacts.

Section GuardFacts.
Context `{RegExpEngine}.

Lemma DEFAULTS_gog (name : CommandKey) : startsWithGog (DEFAULTS name) = true.
Proof. by destruct name. Qed.

Lemma template_Returns (config : Config.t) (name : CommandKey) (cmd : string) :
  GogClient.template config name = Returns cmd →
  startsWithGog cmd = true
  ∧ (override config name = None ∧ cmd = DEFAULTS name
     ∨ override config name = Some cmd ∧ customCommandsAllowed config = true).
Proof.
  unfold GogClient.template. destruct (override config name) as [custom|].
  - destruct (customCommandsAllowed config); simpl; [| done].
    destruct (startsWithGog custom) eqn:Hgog; simpl; [| done].
    intros [= <-]. auto.
  - intros [= <-]. split; [apply DEFAULTS_gog | auto].
Qed.

Lemma template_valid (config : Config.t) (name : CommandKey) :
  validCommand config name → ∃ cmd, GogClient.template config name = Returns cmd.
Proof.
  unfold validCommand, GogClient.template.
  destruct (override config name) as [custom|]; [| eauto].
  intros [-> ->]. simpl. eauto.
Qed.

Lemma matchesAnyPattern_total (input : string) (patterns : list string) :
  Forall (λ pattern, RegExp_error pattern = None) patterns →
  ∃ matched, matchesAnyPattern input patterns = Returns matched.
Proof.
  induction 1 as [|pattern patterns Hp _ IH]; simpl; [eauto |].
  rewrite Hp. destruct (RegExp_test pattern input); eauto.
Qed.

Lemma excludedBySafety_total (event : GogEvent.t) (config : Config.t) :
  Forall (λ pattern, RegExp_error pattern = None) (summaryPatterns config) →
  ∃ excluded, excludedBySafety event config = Returns excluded.
Proof.
  intros Hall. unfold excludedBySafety.
  destruct (matchesAnyPattern_total (default "" (GogEvent.summary event)) _ Hall)
    as [matched Hm].
  destruct (summaryPatterns config) as [|p ps].
  - simpl. eauto.
  - rewrite Hm. simpl. destruct matched; eauto.
Qed.

Lemma find_unique (name : string) (mapping : Mapping.t) (mappings : list Mapping.t) :
  NoDup (Mapping.name <$> mappings) → mapping ∈ mappings → Mapping.name mapping = name →
  List.find (λ m, String.eqb (NormalMapping.name m) name) (map normalizeMapping mappings)
  = Some (normalizeMapping mapping).
Proof.
  intros Hnodup Hin <-. induction mappings as [|m ms IH]; [by apply elem_of_nil in Hin |].
  simpl in *. apply NoDup_cons in Hnodup as [Hm Hms].
  destruct (String.eqb_spec (Mapping.name m) (Mapping.name mapping)) as [Heq | Hne].
  - apply elem_of_cons in Hin as [-> | Hin]; [done |].
    exfalso. apply Hm. rewrite Heq. apply list_elem_of_fmap. eauto.
  - apply elem_of_cons in Hin as [-> | Hin]; [done |]. by apply IH.
Qed.

End GuardFacts.

(** X10.  For a configuration without mappings [validateConfig] returns
    the one error that asks for them and checks nothing else.  It returns no
    error exactly for the configurations with at least one mapping, in which every mapping has a name, a target
    account and at least one source with account and calendar, a look-ahead
    of at least one day if any, and a known all-day mode and overlap policy
    if any; in which the names of the mappings differ; the change budget is
    at least 1 and the watch interval at least 5; every summary pattern has
    at most 512 UTF-16 code units and compiles; and every command override
    is allowed and starts with [gog]. *)
Theorem validateConfig_accepts `{RegExpEngine} (config : Config.t) :
  (Config.mappings config = [] →
   validateConfig config = ["config.mappings must be a non-empty array"])
  ∧ (validateConfig config = [] ↔ validConfiguration config).
Proof.
  split; [| apply validateConfig_nil].
  unfold validateConfig. by intros ->.
Qed.

Lemma validateConfig_accepts_witness :
  @validateConfig anchoredEngine (Config.mk [] None None None None)
  = ["config.mappings must be a non-empty array"].
Proof.
  apply (proj1 (@validateConfig_accepts anchoredEngine (Config.mk [] None None None None))).
  reflexivity.
Defined.

(** X11.  The client never returns a command template that does not start
    with the program [gog], and returns an override only when custom
    commands are allowed; for a configuration that [validateConfig]
    accepts it returns a template for each of the four commands. *)
Theorem template_guard `{RegExpEngine} (config : Config.t) (name : CommandKey) :
  (∀ cmd, GogClient.template config name = Returns cmd →
     startsWithGog cmd = true
     ∧ (cmd = DEFAULTS name ∨ customCommandsAllowed config = true))
  ∧ (validateConfig config = [] → ∃ cmd, GogClient.template config name = Returns cmd).
Proof.
  split.
  - intros cmd [Hgog [[_ ->] | [_ Hallowed]]]%template_Returns; auto.
  - intros (_ & _ & _ & _ & _ & _ & Hcommands)%validateConfig_nil.
    apply template_valid, Hcommands.
Qed.

Lemma template_guard_witness :
  ∃ cmd, GogClient.template validConfig deleteEventCmd = Returns cmd.
Proof.
  apply (proj2 (@template_guard anchoredEngine validConfig deleteEventCmd)).
  reflexivity.
Defined.

(** X12.  With a configuration that [validateConfig] accepts the safety
    filter never throws, and collecting the desired holds of a mapping fails
    only when the backend fails to list a source calendar. *)
Theorem validated_collect `{RegExpEngine} (config : Config.t)
    (listEvents : string → string → Outcome (list GogEvent.t))
    (mapping : NormalMapping.t) :
  validateConfig config = [] →
  (∀ event, ∃ excluded, excludedBySafety event config = Returns excluded)
  ∧ ((∀ source, source ∈ NormalMapping.sources mapping →
        ∃ events, listEvents (Source.account source) (Source.calendarId source)
                  = Returns events) →
     ∃ holds, collectDesiredHoldsInWindow listEvents mapping config = Returns holds).
Proof.
  intros (_ & _ & _ & _ & _ & Hpatterns & _)%validateConfig_nil.
  assert (Hcompile : Forall (λ pattern, RegExp_error pattern = None) (summaryPatterns config)).
  { eapply Forall_impl; [exact Hpatterns |]. by intros ? [_ ?]. }
  assert (Hsafe : ∀ event, ∃ excluded, excludedBySafety event config = Returns excluded)
    by (intros event; by apply excludedBySafety_total).
  split; [exact Hsafe |].
  unfold collectDesiredHoldsInWindow. generalize (NormalMapping.sources mapping).
  intros sources Hlist. induction sources as [|source sources IH]; simpl; [eauto |].
  destruct (Hlist source) as [events ->]; [left |]. simpl.
  assert (∃ holds, holdsOfEvents mapping config source events = Returns holds) as [holds ->].
  { clear -Hsafe. induction events as [|event events [holds IH]]; simpl; [eauto |].
    assert (∃ keep, taken mapping config event = Returns keep) as [keep ->].
    { unfold taken. destruct (bool_decide _); [eauto |].
      destruct (_ && _); [eauto |].
      destruct (Hsafe event) as [excluded ->]. simpl. eauto. }
    simpl. rewrite IH. simpl. eauto. }
  simpl. destruct IH as [later ->]; [intros s Hs; apply Hlist; by right |]. simpl. eauto.
Qed.

Lemma validated_collect_witness :
  ∃ excluded, @excludedBySafety anchoredEngine planning validConfig = Returns excluded.
Proof.
  apply (proj1 (@validated_collect anchoredEngine validConfig listing (normalizeMapping m1)
                  ltac:(reflexivity))).
Defined.

(** X13.  With a configuration that [validateConfig] accepts, selecting a
    mapping by its name returns that mapping alone, with its defaults filled
    in. *)
Theorem select_by_name `{RegExpEngine} (config : Config.t) (mapping : Mapping.t) :
  validateConfig config = [] → mapping ∈ Config.mappings config →
  selectMappings config (Some (Mapping.name mapping)) false
  = Returns [normalizeMapping mapping].
Proof.
  intros (_ & Hvalid & Hnodup & _)%validateConfig_nil Hin.
  unfold selectMappings.
  assert (truthy (Some (Mapping.name mapping)) = Some (Mapping.name mapping)) as ->.
  { eapply Forall_forall in Hvalid as [Hname _]; [| exact Hin].
    simpl. by destruct (Mapping.name mapping). }
  by rewrite (find_unique _ mapping).
Qed.

Lemma select_by_name_witness :
  selectMappings validConfig (Some "m1") false = Returns [normalizeMapping m1].
Proof.
  apply (@select_by_name anchoredEngine validConfig m1); [reflexivity | left].
Defined.

Section ExecuteFacts.
Context `{ObjectPrototype}.
Context (execFile : Processes) (client : Config.t).
Context (mapping : NormalMapping.t) (dryRun : bool).

Lemma recordActions_fold (actions : list ReconcileAction) :
  ∀ counters calls,
  foldl (recordAction mapping dryRun) (counters, calls) actions =
  (Counters.mk (Counters.creates counters + countIf isCreate actions)
     (Counters.updates counters + countIf isUpdate actions)
     (Counters.deletes counters + countIf isDelete actions)
     (Counters.skipped counters + countIf isSkip actions),
   calls ++ (if dryRun then [] else omap (callOf mapping) actions)).
Proof.
  unfold countIf.
  induction actions as [|a actions IH]; intros [c u d s] calls; simpl.
  { rewrite !Nat.add_0_r. by destruct dryRun; rewrite app_nil_r. }
  destruct a; simpl; rewrite IH; simpl; rewrite !filter_cons; simpl;
    f_equal; try (f_equal; lia); destruct dryRun; by rewrite <- ?app_assoc, ?app_nil_r.
Qed.

(** A turn that returns has raised one counter and, unless the run is
    dry, made the call of its action. *)
Lemma executeAction_Returns (state state' : Counters.t * list BackendCall)
    (action : ReconcileAction) :
  executeAction execFile client mapping dryRun state action = Returns state' →
  state' = recordAction mapping dryRun state action
  ∧ (dryRun = false → ∀ call, callOf mapping action = Some call →
       send execFile client (length (snd state)) call = Returns tt).
Proof.
  destruct state as [[c u d s] calls]. unfold executeAction, recordAction.
  destruct action as [desired | existing desired | existing | desired b];
    cbn [isCreate isUpdate isDelete isSkip callOf option_list Counters.creates
         Counters.updates Counters.deletes Counters.skipped snd];
    rewrite ?Nat.add_0_r; destruct dryRun;
    rewrite ?app_nil_r;
    try (intros [= <-]; by split);
    intros ([] & Hsend & [= <-])%andThen_Returns;
    (split; [done |]); by intros _ call [= <-].
Qed.

Lemma executeActions_Returns (actions : list ReconcileAction) :
  ∀ state state',
  foldl (λ state action,
           let* state := state in
           executeAction execFile client mapping dryRun state action)
    (Returns state) actions = Returns state' →
  state' = foldl (recordAction mapping dryRun) state actions.
Proof.
  induction actions as [|a actions IH]; intros state state'; simpl.
  { by intros [= <-]. }
  destruct (executeAction execFile client mapping dryRun state a) as [next|e] eqn:Ha.
  - apply executeAction_Returns in Ha as [-> _]. apply IH.
  - by rewrite foldl_Throws.
Qed.


Lemma count_kinds (actions : list ReconcileAction) :
  (countIf isCreate actions + countIf isUpdate actions + countIf isDelete actions)%nat
  = mutations actions.
Proof.
  unfold countIf, mutations. induction actions as [|a actions IH]; [done |].
  destruct a; rewrite !filter_cons; simpl; rewrite <- IH; lia.
Qed.

Lemma length_calls (actions : list ReconcileAction) :
  length (omap (callOf mapping) actions) = mutations actions.
Proof.
  unfold mutations. induction actions as [|a actions IH]; [done |].
  destruct a; rewrite filter_cons; simpl; (exact IH || (f_equal; exact IH)).
Qed.

(** A run that returns has planned, counted the actions of the plan and,
    unless it is dry, made their calls in the order of the plan. *)
Lemma executePlan_Returns `{Host} (config : Config.t) (desired : list DesiredHold.t)
    (targetEvents : list GogEvent.t) (report : Report.t) (calls : list BackendCall) :
  executePlan execFile client mapping config dryRun desired targetEvents
  = Returns (report, calls) →
  ∃ plan,
    planReconcile desired targetEvents (policyOf (NormalMapping.overlapPolicy mapping))
      (changeBudget config) = Ok plan
    ∧ report
      = Report.mk
          (Counters.mk (countIf isCreate (ReconcilePlan.actions plan))
             (countIf isUpdate (ReconcilePlan.actions plan))
             (countIf isDelete (ReconcilePlan.actions plan))
             (countIf isSkip (ReconcilePlan.actions plan)))
          (ReconcilePlan.capped plan)
    ∧ calls = (if dryRun then [] else omap (callOf mapping) (ReconcilePlan.actions plan)).
Proof.
  unfold executePlan.
  intros (plan & Hplan%ofCore_Returns & (state & Hrun & [= <- <-])%andThen_Returns)
    %andThen_Returns.
  apply executeActions_Returns in Hrun as ->. rewrite recordActions_fold.
  exists plan. by destruct dryRun.
Qed.

End ExecuteFacts.

Section PlannedFacts.
Context `{Host}.

Lemma plan_within desiredHolds targetEvents overlapPolicy maxChangesPerRun plan :
  0 <= maxChangesPerRun →
  planReconcile desiredHolds targetEvents overlapPolicy maxChangesPerRun = Ok plan →
  Z.of_nat (mutations (ReconcilePlan.actions plan)) <= maxChangesPerRun.
Proof.
  intros Hmax. rewrite planReconcile_wanted. intros (wanted & _ & [= <-])%bind_Ok. simpl.
  destruct (run_kept maxChangesPerRun wanted PlanState.initial)
    as (kept & Hkept & _ & _ & Hcount).
  pose proof (run_within maxChangesPerRun wanted PlanState.initial Hmax) as Hle.
  rewrite Hkept. simpl in *. lia.
Qed.

Lemma plan_planned desiredHolds targetEvents overlapPolicy maxChangesPerRun plan a d :
  planReconcile desiredHolds targetEvents overlapPolicy maxChangesPerRun = Ok plan →
  a ∈ ReconcilePlan.actions plan → planned a = Some d → d ∈ desiredHolds.
Proof.
  rewrite planReconcile_wanted. intros (wanted & Hwanted & [= <-])%bind_Ok. simpl.
  destruct (run_kept maxChangesPerRun wanted PlanState.initial) as (kept & -> & Hsub & _).
  simpl. intros Ha Hd. eapply elem_of_sublist in Ha; [| exact Hsub].
  apply (wanted_origin _ _ _ _ _ Hwanted) in Ha as (key & [(w & Hw & Hin) | Hin]).
  - apply (desiredKeyWanted_justified _ _ _ _ _ _ Hw) in Hin
      as (d' & Hfor & Hkey & [(-> & _) | [(b & -> & _) |
          (p & ds & _ & [[-> _] | (x & _ & ->)])]]);
      simpl in Hd; try discriminate Hd; injection Hd as <-;
      by apply desiredFor_Some in Hfor as [? _].
  - by apply managedKeyWanted_justified in Hin as (_ & x & -> & _).
Qed.

End PlannedFacts.

(** X14.  A run never counts more creates, updates and deletes than the
    change budget of the configuration (100 when none is set), issues one
    backend call for each of them in the order of the plan, and issues no
    call at all when it is a dry run. *)
Theorem executePlan_bounded `{Host} `{ObjectPrototype} (execFile : Processes)
    (client : Config.t) (mapping : NormalMapping.t) (config : Config.t)
    (dryRun : bool) (desired : list DesiredHold.t) (targetEvents : list GogEvent.t)
    (report : Report.t) (calls : list BackendCall) :
  0 <= changeBudget config →
  executePlan execFile client mapping config dryRun desired targetEvents
  = Returns (report, calls) →
  Z.of_nat (changesOf (Report.counters report)) <= changeBudget config
  ∧ length calls = (if dryRun then 0%nat else changesOf (Report.counters report))
  ∧ ∃ plan,
      planReconcile desired targetEvents (policyOf (NormalMapping.overlapPolicy mapping))
        (changeBudget config) = Ok plan
      ∧ calls = (if dryRun then [] else omap (callOf mapping) (ReconcilePlan.actions plan))
      ∧ Report.capped report = ReconcilePlan.capped plan
      ∧ Counters.skipped (Report.counters report)
        = countIf isSkip (ReconcilePlan.actions plan).
Proof.
  intros Hbudget (plan & Hplan & -> & ->)%executePlan_Returns. simpl.
  unfold changesOf. simpl. rewrite count_kinds.
  split; [by eapply plan_within |]. split.
  - destruct dryRun; [done |]. apply length_calls.
  - exists plan. by destruct dryRun.
Qed.

Lemma executePlan_bounded_witness :
  length [DeleteEvent "target@example.com" "primary" "managed-stale"] = 1%nat.
Proof.
  refine (proj1 (proj2 (@executePlan_bounded codeUnitHost nodePrototype (λ _ _ _, None)
            validConfig (normalizeMapping m1) validConfig
            false [desiredHold fresh] [managedStale; lunchB]
            (Report.mk (Counters.mk 0 0 1 1) false) _ _ _))).
  - vm_compute. discriminate.
  - by vm_compute.
Defined.

(** X15.  Every backend call of a run goes to the target calendar of the
    mapping; a create or update sends the event of one of the desired holds,
    and an update or delete names the id of a managed target event. *)
Theorem executePlan_targets `{Host} `{ObjectPrototype} (execFile : Processes)
    (client : Config.t) (mapping : NormalMapping.t) (config : Config.t)
    (dryRun : bool) (desired : list DesiredHold.t) (targetEvents : list GogEvent.t)
    (report : Report.t) (calls : list BackendCall) :
  executePlan execFile client mapping config dryRun desired targetEvents
  = Returns (report, calls) →
  ∀ call, call ∈ calls →
    match call with
    | CreateEvent account calendarId event =>
        account = NormalMapping.targetAccount mapping
        ∧ calendarId = NormalMapping.targetCalendarId mapping
        ∧ ∃ hold, hold ∈ desired ∧ event = DesiredHold.event hold
    | UpdateEvent account calendarId eventId event =>
        account = NormalMapping.targetAccount mapping
        ∧ calendarId = NormalMapping.targetCalendarId mapping
        ∧ (∃ hold, hold ∈ desired ∧ event = DesiredHold.event hold)
        ∧ ∃ existing, existing ∈ targetEvents ∧ isManaged existing = true
                      ∧ eventId = GogEvent.id existing
    | DeleteEvent account calendarId eventId =>
        account = NormalMapping.targetAccount mapping
        ∧ calendarId = NormalMapping.targetCalendarId mapping
        ∧ ∃ existing, existing ∈ targetEvents ∧ isManaged existing = true
                      ∧ eventId = GogEvent.id existing
    end.
Proof.
  intros (plan & Hplan & _ & ->)%executePlan_Returns.
  intros call Hcall. destruct dryRun; [by apply elem_of_nil in Hcall |].
  apply list_elem_of_omap in Hcall as (a & Ha & Hcall).
  assert (Hsubject : ∀ existing, subject a = Some existing →
            existing ∈ targetEvents ∧ isManaged existing = true).
  { intros existing Hs.
    assert (existing ∈ subjects (ReconcilePlan.actions plan)) as Hin
      by (apply list_elem_of_omap; eauto).
    eapply elem_of_submseteq in Hin; [| by eapply plan_subjects].
    by apply list_elem_of_filter in Hin as [? ?]. }
  assert (Hhold : ∀ hold, planned a = Some hold → hold ∈ desired)
    by (intros hold; by eapply plan_planned).
  destruct a as [d | e d | e | d b]; simpl in Hcall; [| | | discriminate Hcall];
    injection Hcall as <-.
  - split; [done |]. split; [done |]. exists d. split; [by apply Hhold | done].
  - split; [done |]. split; [done |]. split.
    + exists d. split; [by apply Hhold | done].
    + exists e. destruct (Hsubject e eq_refl). done.
  - split; [done |]. split; [done |]. exists e. destruct (Hsubject e eq_refl). done.
Qed.

Lemma executePlan_targets_witness :
  ∃ existing, existing ∈ [managedStale; lunchB] ∧ isManaged existing = true
              ∧ "managed-stale" = GogEvent.id existing.
Proof.
  refine (proj2 (proj2 (@executePlan_targets codeUnitHost nodePrototype (λ _ _ _, None)
            validConfig (normalizeMapping m1) validConfig
            false [desiredHold fresh] [managedStale; lunchB]
            (Report.mk (Counters.mk 0 0 1 1) false)
            [DeleteEvent "target@example.com" "primary" "managed-stale"] _
            (DeleteEvent "target@example.com" "primary" "managed-stale") _))).
  - by vm_compute.
  - left.
Defined.

(** * The desired holds of a run *)

Section HoldFacts.

Lemma desiredHold_decodes (account calendar : string) (event : GogEvent.t)
    (config : Config.t) :
  decodeSourceRef
    (GogEvent.description
       (DesiredHold.event (desiredHoldFromSource account calendar event config)))
  = Some (sourceRefOf account calendar event).
Proof. apply decode_encodeSourceRef. Qed.

Lemma desiredHold_range `{Host} (account calendar : string) (event : GogEvent.t)
    (config : Config.t) (range : Z * Z) :
  eventRange (DesiredHold.event (desiredHoldFromSource account calendar event config))
  = Ok range ↔ eventRange event = Ok range.
Proof.
  unfold eventRange. simpl.
  destruct (truthy (GogEventTime.dateTime (GogEvent.start event))),
    (truthy (GogEventTime.dateTime (GogEvent.end_ event))),
    (truthy (GogEventTime.date (GogEvent.start event))),
    (truthy (GogEventTime.date (GogEvent.end_ event))); done.
Qed.

Context `{RegExpEngine}.

Lemma taken_true (mapping : NormalMapping.t) (config : Config.t) (event : GogEvent.t) :
  taken mapping config event = Returns true ↔
  GogEvent.status event ≠ Some "cancelled"
  ∧ ¬ (NormalMapping.allDayMode mapping = "ignore" ∧ isAllDay event = true)
  ∧ excludedBySafety event config = Returns false.
Proof.
  unfold taken.
  destruct (bool_decide_reflect (GogEvent.status event = Some "cancelled")) as [Hc | Hc].
  { split; [done | by intros [[] _]]. }
  destruct (String.eqb_spec (NormalMapping.allDayMode mapping) "ignore") as [Hm | Hm];
    destruct (isAllDay event) eqn:Hall; simpl;
    try (split; [done | by intros (_ & [] & _)]);
    rewrite andThen_Returns;
    (split;
     [ intros ([] & He & [=]); split; [done |]; split; [by intros [? ?] | done]
     | intros (_ & _ & He); exists false; by split ]).
Qed.

Lemma holdsOfEvents_Returns (mapping : NormalMapping.t) (config : Config.t)
    (source : Source.t) (events : list GogEvent.t) (holds : list DesiredHold.t) :
  holdsOfEvents mapping config source events = Returns holds →
  holds =
  (λ event, desiredHoldFromSource (Source.account source) (Source.calendarId source)
              event config)
  <$> filter (λ event, taken mapping config event = Returns true) events.
Proof.
  revert holds. induction events as [|event events IH]; intros holds; simpl.
  { by intros [= <-]. }
  intros (keep & Hkeep & (rest & Hrest & [= <-])%andThen_Returns)%andThen_Returns.
  rewrite filter_cons, (IH rest Hrest), Hkeep.
  by destruct keep.
Qed.

Lemma holdsOfSources_Returns (listEvents : string → string → Outcome (list GogEvent.t))
    (mapping : NormalMapping.t) (config : Config.t) (sources : list Source.t)
    (holds : list DesiredHold.t) (hold : DesiredHold.t) :
  holdsOfSources listEvents mapping config sources = Returns holds →
  hold ∈ holds ↔
  ∃ source events event,
    source ∈ sources
    ∧ listEvents (Source.account source) (Source.calendarId source) = Returns events
    ∧ event ∈ events
    ∧ taken mapping config event = Returns true
    ∧ hold = desiredHoldFromSource (Source.account source) (Source.calendarId source)
               event config.
Proof.
  revert holds. induction sources as [|source sources IH]; intros holds; simpl.
  { intros [= <-]. split; [by intros ?%elem_of_nil |].
    by intros (? & ? & ? & ?%elem_of_nil & _). }
  intros (events & Hlist & (first & Hfirst & (later & Hlater & [= <-])%andThen_Returns)
            %andThen_Returns)%andThen_Returns.
  apply holdsOfEvents_Returns in Hfirst as ->.
  rewrite elem_of_app, (IH later Hlater), list_elem_of_fmap. split.
  - intros [(event & -> & [Htaken Hin]%list_elem_of_filter)
           | (s & es & e & Hs & Hes & He & Ht & ->)].
    + exists source, events, event. repeat split; try done. left.
    + exists s, es, e. repeat split; try done. by right.
  - intros (s & es & e & [-> | Hs]%elem_of_cons & Hes & He & Ht & ->).
    + left. rewrite Hlist in Hes. injection Hes as <-.
      exists e. split; [done |]. by apply list_elem_of_filter.
    + right. exists s, es, e. done.
Qed.

Lemma holdSignature_same (account calendar : string) (config : Config.t)
    (event event' : GogEvent.t) :
  GogEvent.id event = GogEvent.id event' →
  GogEvent.start event = GogEvent.start event' →
  GogEvent.end_ event = GogEvent.end_ event' →
  holdSignature (desiredHoldFromSource account calendar event config)
  = holdSignature (desiredHoldFromSource account calendar event' config).
Proof.
  intros Hid Hstart Hend. unfold holdSignature, eventFingerprint. simpl.
  by rewrite Hid, Hstart, Hend.
Qed.

Lemma holdsOfEvents_same (mapping : NormalMapping.t) (config : Config.t)
    (source : Source.t) (events events' : list GogEvent.t) :
  Forall2 (λ event event',
             GogEvent.id event = GogEvent.id event'
             ∧ GogEvent.start event = GogEvent.start event'
             ∧ GogEvent.end_ event = GogEvent.end_ event'
             ∧ taken mapping config event = taken mapping config event')
    events events' →
  ∀ holds, holdsOfEvents mapping config source events = Returns holds →
  ∃ holds', holdsOfEvents mapping config source events' = Returns holds'
            ∧ map holdSignature holds = map holdSignature holds'.
Proof.
  induction 1 as [|event event' events events' (Hid & Hstart & Hend & Htaken) _ IH];
    intros holds; simpl.
  { intros [= <-]. by exists []. }
  intros (keep & Hkeep & (rest & Hrest & [= <-])%andThen_Returns)%andThen_Returns.
  destruct (IH rest Hrest) as (rest' & Hrest' & Hsame).
  rewrite <- Htaken, Hkeep. cbn [andThen]. rewrite Hrest'. cbn [andThen].
  eexists. split; [reflexivity |].
  destruct keep; [| done]. simpl. by rewrite Hsame, (holdSignature_same _ _ _ _ event').
Qed.

Lemma holdsOfSources_same
    (listEvents listEvents' : string → string → Outcome (list GogEvent.t))
    (mapping : NormalMapping.t) (config : Config.t) (sources : list Source.t)
    (holds : list DesiredHold.t) :
  (∀ source, source ∈ sources →
     ∃ events events',
       listEvents (Source.account source) (Source.calendarId source) = Returns events
       ∧ listEvents' (Source.account source) (Source.calendarId source) = Returns events'
       ∧ Forall2 (λ event event',
                    GogEvent.id event = GogEvent.id event'
                    ∧ GogEvent.start event = GogEvent.start event'
                    ∧ GogEvent.end_ event = GogEvent.end_ event'
                    ∧ taken mapping config event = taken mapping config event')
           events events') →
  holdsOfSources listEvents mapping config sources = Returns holds →
  ∃ holds', holdsOfSources listEvents' mapping config sources = Returns holds'
            ∧ map holdSignature holds = map holdSignature holds'.
Proof.
  revert holds. induction sources as [|source sources IH]; intros holds Hsame; simpl.
  { intros [= <-]. by exists []. }
  intros (events & Hlist & (first & Hfirst & (later & Hlater & [= <-])%andThen_Returns)
            %andThen_Returns)%andThen_Returns.
  destruct (Hsame source) as (events0 & events' & Hlist0 & Hlist' & Hevents); [left |].
  rewrite Hlist in Hlist0. injection Hlist0 as <-.
  destruct (holdsOfEvents_same mapping config source events events' Hevents first Hfirst)
    as (first' & Hfirst' & Hsigs).
  destruct (IH later) as (later' & Hlater' & Hsigs'); [| done |].
  { intros s Hs. apply Hsame. by right. }
  rewrite Hlist'. cbn [andThen]. rewrite Hfirst'. cbn [andThen].
  rewrite Hlater'. cbn [andThen].
  eexists. split; [reflexivity |]. by rewrite !map_app, Hsigs, Hsigs'.
Qed.

End HoldFacts.

(** X16.  The hold built for a source event carries its own tag: its
    description decodes to the provenance record of the hold, so the event of
    the hold is a managed event under the key of the hold.  Its range is the
    range of the source event. *)
Theorem desired_hold_tagged `{Host} (account calendar : string) (event : GogEvent.t)
    (config : Config.t) :
  decodeSourceRef
    (GogEvent.description
       (DesiredHold.event (desiredHoldFromSource account calendar event config)))
  = Some (DesiredHold.source (desiredHoldFromSource account calendar event config))
  ∧ carriesOwnTag (desiredHoldFromSource account calendar event config)
  ∧ isManaged (DesiredHold.event (desiredHoldFromSource account calendar event config))
    = true
  ∧ (∀ range,
       eventRange (DesiredHold.event (desiredHoldFromSource account calendar event config))
       = Ok range ↔ eventRange event = Ok range).
Proof.
  pose proof (desiredHold_decodes account calendar event config) as Hd.
  split; [exact Hd |]. split; [| split].
  - unfold carriesOwnTag, eventKey. by rewrite Hd.
  - unfold isManaged. by rewrite Hd.
  - apply desiredHold_range.
Qed.

(** X17.  The desired holds collected for a mapping are the holds built
    for the events that the backend lists for a source of the mapping and
    that are not cancelled, not all-day events when the all-day mode is
    ignore, and not excluded by the safety filter. *)
Theorem collected_holds `{RegExpEngine}
    (listEvents : string → string → Outcome (list GogEvent.t))
    (mapping : NormalMapping.t) (config : Config.t) (holds : list DesiredHold.t)
    (hold : DesiredHold.t) :
  collectDesiredHoldsInWindow listEvents mapping config = Returns holds →
  hold ∈ holds ↔
  ∃ source events event,
    source ∈ NormalMapping.sources mapping
    ∧ listEvents (Source.account source) (Source.calendarId source) = Returns events
    ∧ event ∈ events
    ∧ GogEvent.status event ≠ Some "cancelled"
    ∧ ¬ (NormalMapping.allDayMode mapping = "ignore" ∧ isAllDay event = true)
    ∧ excludedBySafety event config = Returns false
    ∧ hold = desiredHoldFromSource (Source.account source) (Source.calendarId source)
               event config.
Proof.
  intros Hholds. rewrite (holdsOfSources_Returns _ _ _ _ _ hold Hholds).
  split.
  - intros (source & events & event & Hs & Hl & He & (? & ? & ?)%taken_true & Hh).
    exists source, events, event. done.
  - intros (source & events & event & Hs & Hl & He & Hc & Ha & Hx & Hh).
    exists source, events, event. repeat split; try done. by apply taken_true.
Qed.

Lemma collected_holds_witness :
  desiredHoldFromSource "src@example.com" "primary" planning validConfig
  ∈ [desiredHoldFromSource "src@example.com" "primary" planning validConfig].
Proof.
  apply (@collected_holds anchoredEngine listing (normalizeMapping m1) validConfig
           [desiredHoldFromSource "src@example.com" "primary" planning validConfig]).
  - by vm_compute.
  - exists (Source.mk "src@example.com" "primary"), [planning; offsite; cancelled], planning.
    repeat split; try done.
    + left.
    + left.
    + intros [_ Hall]. by vm_compute in Hall.
Defined.

(** X18.  The signature of a snapshot does not depend on the order in
    which the desired holds were collected. *)
Theorem snapshot_order (holds holds' : list DesiredHold.t) :
  holds ≡ₚ holds' → snapshotSignature holds = snapshotSignature holds'.
Proof.
  intros Hp. unfold snapshotSignature. f_equal.
  apply sort_unique; [apply _ | |].
  - intros x y _ _. apply codeUnitCompare_antisym.
  - by apply fmap_Permutation.
Qed.

Lemma snapshot_order_witness :
  snapshotSignature [desiredHold fresh; desiredHold stale]
  = snapshotSignature [desiredHold stale; desiredHold fresh].
Proof. apply snapshot_order. apply Permutation_swap. Defined.

(** X19.  The signature of a snapshot reads of the source events only
    their id, start and end and whether they are taken: when the events that
    the backend lists for the sources of a mapping change in other fields
    (title, description, etag, update time) and each is still taken or still
    left out as before, [sourceSnapshot] returns the same signature. *)
Theorem snapshot_ignores_titles `{RegExpEngine}
    (listEvents listEvents' : string → string → Outcome (list GogEvent.t))
    (mapping : NormalMapping.t) (config : Config.t)
    (snapshot : string * list DesiredHold.t) :
  (∀ source, source ∈ NormalMapping.sources mapping →
     ∃ events events',
       listEvents (Source.account source) (Source.calendarId source) = Returns events
       ∧ listEvents' (Source.account source) (Source.calendarId source) = Returns events'
       ∧ Forall2 (λ event event',
                    GogEvent.id event = GogEvent.id event'
                    ∧ GogEvent.start event = GogEvent.start event'
                    ∧ GogEvent.end_ event = GogEvent.end_ event'
                    ∧ taken mapping config event = taken mapping config event')
           events events') →
  sourceSnapshot listEvents mapping config = Returns snapshot →
  ∃ snapshot',
    sourceSnapshot listEvents' mapping config = Returns snapshot'
    ∧ fst snapshot' = fst snapshot.
Proof.
  intros Hsame. unfold sourceSnapshot.
  intros (holds & Hholds & [= <-])%andThen_Returns.
  destruct (holdsOfSources_same listEvents listEvents' mapping config
              (NormalMapping.sources mapping) holds Hsame Hholds)
    as (holds' & Hholds' & Hsignatures).
  exists (snapshotSignature holds', holds'). split.
  - unfold collectDesiredHoldsInWindow. by rewrite Hholds'.
  - unfold snapshotSignature. cbn [fst]. by rewrite Hsignatures.
Qed.

Lemma snapshot_ignores_titles_witness :
  ∃ snapshot',
    @sourceSnapshot anchoredEngine listingRenamed (normalizeMapping m1) validConfig
    = Returns snapshot'
    ∧ fst snapshot'
      = snapshotSignature
          [desiredHoldFromSource "src@example.com" "primary" planning validConfig].
Proof.
  apply (@snapshot_ignores_titles anchoredEngine listing listingRenamed
           (normalizeMapping m1) validConfig
           (snapshotSignature
              [desiredHoldFromSource "src@example.com" "primary" planning validConfig],
            [desiredHoldFromSource "src@example.com" "primary" planning validConfig])).
  - intros source ->%list_elem_of_singleton.
    exists [planning; offsite; cancelled], [planningRenamed; offsite; cancelled].
    split; [reflexivity |]. split; [reflexivity |].
    repeat constructor.
  - by vm_compute.
Defined.

(** * The command lines of the client *)

Section TemplateFacts.
Context `{ObjectPrototype}.
Context (args : list (string * string)).

Lemma applyFrom_open (pre rest : string) :
  ∀ pending,
  applyFrom args pending (pre +:+ "{" +:+ rest) =
  applyFrom args pending pre +:+ applyFrom args (Some "") rest.
Proof.
  induction pre as [|c pre IH]; intros pending; simpl.
  - by destruct pending.
  - destruct pending as [name|].
    + destruct (isNameChar c); [apply IH |].
      destruct (Ascii.eqb c "}" && negb (Str.isEmpty name)).
      * by rewrite IH, append_assoc.
      * destruct (Ascii.eqb c "{"); rewrite IH; simpl;
          change (String "{" ?x) with ("{" +:+ x); by rewrite ?append_assoc.
    + destruct (Ascii.eqb c "{"); by rewrite IH.
Qed.

Lemma applyFrom_name (name post : string) :
  allChars isNameChar name = true →
  ∀ acc, Str.isEmpty (acc +:+ name) = false →
  applyFrom args (Some acc) (name +:+ "}" +:+ post) =
  argument args (acc +:+ name) +:+ applyFrom args None post.
Proof.
  induction name as [|c name IH]; intros Hname acc Hne; simpl in *.
  - rewrite append_nil_r in *. by rewrite Hne.
  - apply andb_prop in Hname as [Hc Hname]. rewrite Hc.
    rewrite (IH Hname).
    + by rewrite append_assoc.
    + rewrite append_assoc. simpl. by destruct acc.
Qed.

Lemma applyFrom_plain (text : string) :
  allChars (λ c, negb (Ascii.eqb c "{")) text = true →
  applyFrom args None text = text.
Proof.
  induction text as [|c text IH]; simpl; [done |].
  intros [Hc Htext]%andb_prop. destruct (Ascii.eqb c "{"); [done |]. by rewrite IH.
Qed.

Lemma argument_own (name value : string) :
  (name, value) ∈ args → NoDup args.*1 → argument args name = value.
Proof.
  induction args as [|[k v] rest IH]; [by intros ?%elem_of_nil |].
  intros Hin [Hk Hrest]%NoDup_cons. simpl.
  destruct (String.eqb_spec k name) as [-> | Hne].
  - apply elem_of_cons in Hin as [[= <-] | Hin]; [done |].
    exfalso. apply Hk. apply list_elem_of_fmap. by exists (name, value).
  - apply elem_of_cons in Hin as [[= -> ->] | Hin]; [done | by apply IH].
Qed.

Lemma argument_inherited (name : string) :
  name ∉ args.*1 → argument args name = default "" (inherited name).
Proof.
  induction args as [|[k v] rest IH]; [done |]. simpl.
  intros Hnot. destruct (String.eqb_spec k name) as [-> | Hne].
  - exfalso. apply Hnot. left.
  - apply IH. intros Hin. apply Hnot. by right.
Qed.

End TemplateFacts.

(** X20.  [applyTemplate] replaces a placeholder by the property of its
    name: the argument of that name, or else the property of that name that
    every object inherits, or else nothing.  It expands the text before and
    after the placeholder on their own: a value that is put in is not
    expanded again.  Text without an opening brace is left as it is. *)
Theorem applyTemplate_substitutes `{ObjectPrototype} (args : list (string * string))
    (pre name post : string) :
  name ≠ "" → allChars isNameChar name = true →
  applyTemplate (pre +:+ "{" +:+ name +:+ "}" +:+ post) args
  = applyTemplate pre args +:+ argument args name +:+ applyTemplate post args
  ∧ (NoDup args.*1 → ∀ value, (name, value) ∈ args → argument args name = value)
  ∧ (name ∉ args.*1 → argument args name = default "" (inherited name))
  ∧ (allChars (λ c, negb (Ascii.eqb c "{")) pre = true → applyTemplate pre args = pre).
Proof.
  intros Hne Hname. unfold applyTemplate. split; [| split; [| split]].
  - rewrite applyFrom_open, (applyFrom_name args name post Hname ""); [done |].
    by destruct name.
  - intros Hnodup value Hin. by apply argument_own.
  - apply argument_inherited.
  - apply applyFrom_plain.
Qed.

Lemma applyTemplate_substitutes_witness :
  @applyTemplate nodePrototype
    ("gog " +:+ "{" +:+ "constructor" +:+ "}" +:+ " {to} {x") [("to", "{from}")]
  = @applyTemplate nodePrototype "gog " [("to", "{from}")]
    +:+ @argument nodePrototype [("to", "{from}")] "constructor"
    +:+ @applyTemplate nodePrototype " {to} {x" [("to", "{from}")].
Proof.
  apply (proj1 (@applyTemplate_substitutes nodePrototype [("to", "{from}")] "gog "
                  "constructor" " {to} {x"
                  ltac:(discriminate) ltac:(reflexivity))).
Defined.

Section TimesFacts.

Lemma normalizeEventTimes_Returns (event : GogEvent.t) (times : EventTimes.t) :
  normalizeEventTimes event = Returns times →
  (EventTimes.allDayFlag times = ""
   ∧ truthy (GogEventTime.dateTime (GogEvent.start event)) = Some (EventTimes.from times)
   ∧ truthy (GogEventTime.dateTime (GogEvent.end_ event)) = Some (EventTimes.to times))
  ∨ (EventTimes.allDayFlag times = "--all-day"
     ∧ truthy (GogEventTime.date (GogEvent.start event)) = Some (EventTimes.from times)
     ∧ truthy (GogEventTime.date (GogEvent.end_ event)) = Some (EventTimes.to times)).
Proof.
  unfold normalizeEventTimes.
  destruct (truthy (GogEventTime.dateTime (GogEvent.start event))),
    (truthy (GogEventTime.dateTime (GogEvent.end_ event))),
    (truthy (GogEventTime.date (GogEvent.start event))),
    (truthy (GogEventTime.date (GogEvent.end_ event)));
    intros [= <-]; simpl; auto.
Qed.

Lemma normalizeEventTimes_complete (event : GogEvent.t) :
  (∃ times, normalizeEventTimes event = Returns times) ↔ hasCompleteRange event = true.
Proof.
  unfold normalizeEventTimes, hasCompleteRange.
  destruct (truthy (GogEventTime.dateTime (GogEvent.start event))),
    (truthy (GogEventTime.dateTime (GogEvent.end_ event))),
    (truthy (GogEventTime.date (GogEvent.start event))),
    (truthy (GogEventTime.date (GogEvent.end_ event)));
    (split;
     [ intros [times Ht]; first [discriminate Ht | by vm_compute]
     | intros Hc; first [by vm_compute in Hc | eexists; reflexivity] ]).
Qed.

End TimesFacts.

(** X21.  The client accepts the events the overlap detector accepts: the
    times of an event are sent exactly when it has a complete timed pair or a
    complete all-day pair, and are refused with the error for a missing range
    exactly when [eventRange] raises that error.  The timed pair goes first,
    and the flag [--all-day] is set for the all-day pair only. *)
Theorem normalizeEventTimes_agrees `{Host} (event : GogEvent.t) :
  ((∃ times, normalizeEventTimes event = Returns times) ↔ hasCompleteRange event = true)
  ∧ (normalizeEventTimes event
     = Throws (Failure ("Event " +:+ GogEvent.id event
                        +:+ " is missing supported start/end fields"))
     ↔ eventRange event = Throw (MissingRange (GogEvent.id event)))
  ∧ (∀ times, normalizeEventTimes event = Returns times →
       (EventTimes.allDayFlag times = ""
        ∧ truthy (GogEventTime.dateTime (GogEvent.start event))
          = Some (EventTimes.from times)
        ∧ truthy (GogEventTime.dateTime (GogEvent.end_ event))
          = Some (EventTimes.to times))
       ∨ (EventTimes.allDayFlag times = "--all-day"
          ∧ truthy (GogEventTime.date (GogEvent.start event)) = Some (EventTimes.from times)
          ∧ truthy (GogEventTime.date (GogEvent.end_ event)) = Some (EventTimes.to times))).
Proof.
  split; [apply normalizeEventTimes_complete |].
  split; [| apply normalizeEventTimes_Returns].
  rewrite eventRange_missing.
  pose proof (normalizeEventTimes_complete event) as Hc.
  destruct (hasCompleteRange event).
  - destruct (proj2 Hc eq_refl) as [times Ht]. rewrite Ht. split; [done | by intros [[=] _]].
  - split; [done |]. intros _. unfold normalizeEventTimes in *.
    destruct (truthy (GogEventTime.dateTime (GogEvent.start event))),
      (truthy (GogEventTime.dateTime (GogEvent.end_ event))),
      (truthy (GogEventTime.date (GogEvent.start event))),
      (truthy (GogEventTime.date (GogEvent.end_ event)));
      try done; by (exfalso; assert (false = true) by (apply Hc; eauto)).
Qed.

Lemma normalizeEventTimes_agrees_witness :
  (EventTimes.allDayFlag (EventTimes.mk "2026-03-05" "2026-03-06" "--all-day") = ""
   ∧ truthy (GogEventTime.dateTime (GogEvent.start offsite)) = Some "2026-03-05"
   ∧ truthy (GogEventTime.dateTime (GogEvent.end_ offsite)) = Some "2026-03-06")
  ∨ (EventTimes.allDayFlag (EventTimes.mk "2026-03-05" "2026-03-06" "--all-day")
     = "--all-day"
     ∧ truthy (GogEventTime.date (GogEvent.start offsite)) = Some "2026-03-05"
     ∧ truthy (GogEventTime.date (GogEvent.end_ offsite)) = Some "2026-03-06").
Proof.
  apply (proj2 (proj2 (@normalizeEventTimes_agrees codeUnitHost offsite))
           (EventTimes.mk "2026-03-05" "2026-03-06" "--all-day")).
  reflexivity.
Defined.

Section CommandFacts.

Lemma spaceWidth_plain (c : ascii) (rest : string) :
  isPlain c = true → spaceWidth (String c rest) = 0%nat.
Proof.
  unfold isPlain, startsSpace, spaceWidth.
  intros [[Hs _]%andb_prop Hlead]%andb_prop.
  apply negb_true_iff in Hs, Hlead. rewrite Hs.
  repeat (apply orb_false_iff in Hlead as [Hlead ?]).
  destruct rest as [|d [|e rest]]; [done | |]; cbv zeta;
    repeat match goal with Heq : (_ =? _)%N = false |- _ => rewrite Heq; clear Heq end;
    done.
Qed.

Lemma matchParts_plain (word rest : string) :
  allChars isPlain word = true →
  matchParts false 0 (word +:+ rest) =
  let '(part, parts) := matchParts false 0 rest in
  (if Str.isEmpty word then part else Some (word +:+ default "" part), parts).
Proof.
  induction word as [|c word IH].
  - intros _. cbn [append Str.isEmpty]. by destruct (matchParts false 0 rest).
  - cbn [allChars]. intros [Hc Hword]%andb_prop.
    cbn [append matchParts]. rewrite (spaceWidth_plain _ _ Hc), (IH Hword).
    unfold isPlain in Hc. apply andb_prop in Hc as [[_ Hq]%andb_prop _].
    apply negb_true_iff in Hq. rewrite Hq.
    destruct (matchParts false 0 rest) as [part parts].
    destruct word; simpl; done.
Qed.

Lemma matchParts_inside (value rest : string) :
  allChars (λ c, negb (isQuote c)) value = true →
  matchParts true 0 (value +:+ String Json.dquote rest) =
  let '(part, parts) := matchParts false 0 rest in
  (Some (value +:+ String Json.dquote (default "" part)), parts).
Proof.
  induction value as [|c value IH]; simpl.
  - intros _. by destruct (matchParts false 0 rest).
  - intros [Hq Hvalue]%andb_prop. rewrite Hq, (IH Hvalue).
    by destruct (matchParts false 0 rest).
Qed.

Lemma hasQuote_closing (value rest : string) :
  hasQuote (value +:+ String Json.dquote rest) = true.
Proof. induction value as [|c value IH]; simpl; [done |]. by rewrite IH, orb_true_r. Qed.

Lemma matchParts_quoted (value rest : string) :
  allChars (λ c, negb (isQuote c)) value = true →
  matchParts false 0 (String Json.dquote (value +:+ String Json.dquote rest)) =
  let '(part, parts) := matchParts false 0 rest in
  (Some (String Json.dquote (value +:+ String Json.dquote (default "" part))), parts).
Proof.
  intros Hvalue. cbn [matchParts].
  change (isQuote Json.dquote) with true. cbn iota.
  rewrite hasQuote_closing, (matchParts_inside _ _ Hvalue).
  by destruct (matchParts false 0 rest).
Qed.

Lemma escape_literal (c : ascii) : isLiteral c = true → Json.escape c = String c "".
Proof.
  destruct c as [b0 b1 b2 b3 b4 b5 b6 b7].
  destruct b0, b1, b2, b3, b4, b5, b6, b7; (reflexivity || discriminate).
Qed.

Lemma escapeAll_literal (value : string) :
  allChars isLiteral value = true → Json.escapeAll value = value.
Proof.
  induction value as [|c value IH]; simpl; [done |].
  intros [Hc Hvalue]%andb_prop. by rewrite (escape_literal c Hc), (IH Hvalue).
Qed.

Lemma literal_no_quote (value : string) :
  allChars isLiteral value = true → allChars (λ c, negb (isQuote c)) value = true.
Proof.
  induction value as [|c value IH]; simpl; [done |].
  intros [Hc Hvalue]%andb_prop. rewrite (IH Hvalue), andb_true_r.
  unfold isLiteral in Hc. by apply andb_prop in Hc as [[_ ?]%andb_prop _].
Qed.

Lemma quoteArg_literal (value : string) :
  allChars isLiteral value = true →
  quoteArg value = String Json.dquote (value +:+ String Json.dquote "").
Proof. intros Hvalue. unfold quoteArg. simpl. unfold Json.quote. by rewrite escapeAll_literal. Qed.

Lemma matchParts_blank (rest : string) :
  matchParts false 0 (String " " rest) =
  let '(part, parts) := matchParts false 0 rest in (None, option_list part ++ parts).
Proof. reflexivity. Qed.

Lemma matchAll_blank (rest : string) : matchAll (String " " rest) = matchAll rest.
Proof.
  unfold matchAll. rewrite matchParts_blank. by destruct (matchParts false 0 rest).
Qed.

(** The part a piece leaves when the command ends or goes on with a blank
    after it. *)
Lemma matchAll_piece (piece : Piece) (rest : string) :
  pieceClean piece = true →
  fst (matchParts false 0 rest) = None →
  matchAll (pieceText piece +:+ rest) =
  (if pieceCounts piece then [pieceText piece] else []) ++ matchAll rest.
Proof.
  intros Hclean Hrest. unfold matchAll.
  destruct piece as [word | value]; cbn [pieceText pieceClean pieceCounts] in *.
  - rewrite (matchParts_plain _ _ Hclean).
    destruct (matchParts false 0 rest) as [part parts]. simpl in Hrest. subst part.
    destruct word; simpl; [done |]. by rewrite append_nil_r.
  - rewrite (quoteArg_literal _ Hclean). cbn [append].
    rewrite append_assoc. cbn [append].
    rewrite (matchParts_quoted _ _ (literal_no_quote _ Hclean)).
    destruct (matchParts false 0 rest) as [part parts]. simpl in Hrest. by subst part.
Qed.

Lemma matchAll_join (pieces : list Piece) :
  Forall (λ piece, pieceClean piece = true) pieces →
  matchAll (joinWith " " (pieceText <$> pieces))
  = pieceText <$> filter (λ piece, pieceCounts piece = true) pieces.
Proof.
  induction 1 as [|piece pieces Hclean _ IH]; [done |].
  rewrite filter_cons. destruct pieces as [|next pieces].
  - cbn [fmap list_fmap joinWith]. rewrite <- (append_nil_r (pieceText piece)).
    rewrite (matchAll_piece piece "" Hclean eq_refl).
    by destruct (pieceCounts piece).
  - change (joinWith " " (pieceText <$> piece :: next :: pieces))
      with (pieceText piece +:+ String " " (joinWith " " (pieceText <$> next :: pieces))).
    rewrite (matchAll_piece _ _ Hclean).
    + rewrite matchAll_blank, IH. by destruct (pieceCounts piece).
    + rewrite matchParts_blank. by destruct (matchParts false 0 _).
Qed.

Lemma dropLastQuote_closing (value : string) :
  dropLastQuote (value +:+ String Json.dquote "") = value.
Proof.
  induction value as [|c value IH]; [done |].
  cbn [append dropLastQuote]. rewrite IH. by destruct value.
Qed.

Lemma dropLastQuote_plain (word : string) :
  allChars (λ c, negb (isQuote c)) word = true → dropLastQuote word = word.
Proof.
  induction word as [|c word IH]; [done |]. cbn [allChars dropLastQuote].
  intros [Hc Hword]%andb_prop. rewrite (IH Hword).
  destruct word; [| done]. by apply negb_true_iff in Hc as ->.
Qed.

Lemma plain_no_quote (word : string) :
  allChars isPlain word = true → allChars (λ c, negb (isQuote c)) word = true.
Proof.
  induction word as [|c word IH]; simpl; [done |].
  intros [[[_ Hq]%andb_prop _]%andb_prop Hword]%andb_prop. by rewrite Hq, (IH Hword).
Qed.

Lemma stripQuotes_piece (piece : Piece) :
  pieceClean piece = true → stripQuotes (pieceText piece) = pieceValue piece.
Proof.
  destruct piece as [word | value]; simpl; intros Hclean.
  - unfold stripQuotes. pose proof (plain_no_quote _ Hclean) as Hq.
    rewrite <- (dropLastQuote_plain word Hq) at 2.
    destruct word as [|c word]; [done |]. simpl in Hq.
    apply andb_prop in Hq as [Hc _]. by apply negb_true_iff in Hc as ->.
  - rewrite (quoteArg_literal _ Hclean). unfold stripQuotes.
    change (isQuote Json.dquote) with true. cbn iota. apply dropLastQuote_closing.
Qed.

Lemma splitCommand_join (pieces : list Piece) (bin : string) (args : list string) :
  Forall (λ piece, pieceClean piece = true) pieces →
  pieceValue <$> filter (λ piece, pieceCounts piece = true) pieces = bin :: args →
  bin ≠ "" →
  splitCommand (joinWith " " (pieceText <$> pieces)) = Returns (bin, args).
Proof.
  intros Hclean Hvalues Hbin. unfold splitCommand. rewrite (matchAll_join _ Hclean).
  assert (map stripQuotes (pieceText <$> filter (λ piece, pieceCounts piece = true) pieces)
          = bin :: args) as ->.
  { rewrite <- Hvalues. clear Hvalues. induction Hclean as [|piece pieces Hp _ IH]; [done |].
    rewrite filter_cons. destruct (decide (pieceCounts piece = true)); [| exact IH].
    cbn [fmap list_fmap map]. f_equal; [by apply stripQuotes_piece | exact IH]. }
  by destruct bin.
Qed.

End CommandFacts.

Section ArgvFacts.

Lemma isWord_plain (word : string) :
  isWord word = true → allChars isPlain word = true ∧ Str.isEmpty word = false.
Proof. unfold isWord. intros [Hne Hplain]%andb_prop. by apply negb_true_iff in Hne. Qed.

Lemma digit_clean (v : ascii) :
  isSextet v → isPlain (Base64url.digit v) = true ∧ isLiteral (Base64url.digit v) = true.
Proof.
  destruct v as [a b c d e f g h]. intros [-> ->].
  destruct a, b, c, d, e, f; split; reflexivity.
Qed.

Lemma encode_clean (bytes : string) :
  allChars isPlain (Base64url.encode bytes) = true
  ∧ allChars isLiteral (Base64url.encode bytes) = true.
Proof.
  unfold Base64url.encode.
  pose proof (sextets_isSextet (list_ascii_of_string bytes)) as Hs.
  induction Hs as [|v vs Hv _ [IHp IHl]]; simpl; [done |].
  destruct (digit_clean v Hv) as [-> ->]. by rewrite IHp, IHl.
Qed.

Lemma trim_plain (text : string) : allChars isPlain text = true → Str.trim text = text.
Proof.
  intros Hplain. unfold Str.trim.
  assert (Str.trimEnd text = text) as Hend.
  { induction text as [|c text IH]; simpl in *; [done |].
    apply andb_prop in Hplain as [[[Hs _]%andb_prop _]%andb_prop Htext].
    apply negb_true_iff in Hs. by rewrite Hs, (IH Htext). }
  destruct text as [|c text]; simpl in *; [done |].
  apply andb_prop in Hplain as [[[Hs _]%andb_prop _]%andb_prop _].
  apply negb_true_iff in Hs. rewrite Hs. exact Hend.
Qed.

End ArgvFacts.

(** X22.  [splitCommand] undoes the writing of a command line: for plain
    words and for values put into quotes by [quoteArg], joined by single
    blanks, the program and the arguments are the words and the values; a
    plain text that is empty leaves no argument, a quoted empty value leaves
    an empty argument; without a program, or with an empty one, it throws.
    The words hold no quote, no white space and no byte that starts a white
    space character of more than one byte; the values hold no quote, no
    backslash and no control character, and may hold white space. *)
Theorem splitCommand_pieces (pieces : list Piece) :
  Forall (λ piece, pieceClean piece = true) pieces →
  splitCommand (joinWith " " (pieceText <$> pieces))
  = match pieceValue <$> filter (λ piece, pieceCounts piece = true) pieces with
    | bin :: args =>
        if Str.isEmpty bin
        then Throws (Failure ("Invalid command: " +:+ joinWith " " (pieceText <$> pieces)))
        else Returns (bin, args)
    | [] => Throws (Failure ("Invalid command: " +:+ joinWith " " (pieceText <$> pieces)))
    end.
Proof.
  intros Hclean. unfold splitCommand. rewrite (matchAll_join _ Hclean).
  assert (map stripQuotes (pieceText <$> filter (λ piece, pieceCounts piece = true) pieces)
          = pieceValue <$> filter (λ piece, pieceCounts piece = true) pieces) as ->;
    [| done].
  induction Hclean as [|piece pieces Hp _ IH]; [done |].
  rewrite filter_cons. destruct (decide (pieceCounts piece = true)); [| exact IH].
  cbn [fmap list_fmap map]. f_equal; [by apply stripQuotes_piece | exact IH].
Qed.

Lemma splitCommand_pieces_witness :
  splitCommand
    (joinWith " "
       (pieceText <$> [Plain "gog"; Plain ""; Plain ("caf" +:+ eAcute);
                       Quoted ("Team sync," +:+ noBreakSpace +:+ "room 2"); Quoted ""]))
  = Returns ("gog", ["caf" +:+ eAcute; "Team sync," +:+ noBreakSpace +:+ "room 2"; ""]).
Proof.
  apply (splitCommand_pieces [Plain "gog"; Plain ""; Plain ("caf" +:+ eAcute);
                              Quoted ("Team sync," +:+ noBreakSpace +:+ "room 2");
                              Quoted ""]).
  by repeat constructor.
Defined.

(** X23.  A tag holds no white space, no quote, no backslash and no
    control character: [trim] leaves it as it is, and [quoteArg] only puts it
    between two quotes. *)
Theorem tag_is_clean (source : SourceRef.t) :
  allChars isPlain (encodeSourceRef source) = true
  ∧ allChars isLiteral (encodeSourceRef source) = true
  ∧ Str.trim (encodeSourceRef source) = encodeSourceRef source
  ∧ quoteArg (encodeSourceRef source)
    = String Json.dquote (encodeSourceRef source +:+ String Json.dquote "").
Proof.
  destruct (encode_clean (Json.stringify (sourceRefJson source))) as [Hp Hl].
  assert (allChars isLiteral (encodeSourceRef source) = true) as Hliteral.
  { unfold encodeSourceRef. cbn [METADATA_PREFIX append allChars]. by rewrite Hl. }
  assert (allChars isPlain (encodeSourceRef source) = true) as Hplain.
  { unfold encodeSourceRef. cbn [METADATA_PREFIX append allChars]. by rewrite Hp. }
  split; [done |]. split; [done |]. split.
  - by apply trim_plain.
  - by apply quoteArg_literal.
Qed.

Section CallFacts.
Context `{ObjectPrototype}.

(** The command line of [createEvent] with the built-in template, and
    what [splitCommand] makes of it. *)
Lemma createEventCommand_argv (config : Config.t) (account calendarId : string)
    (event : GogEvent.t) (times : EventTimes.t) :
  override config createEventCmd = None →
  normalizeEventTimes event = Returns times →
  isWord account = true → isWord calendarId = true →
  isWord (EventTimes.from times) = true → isWord (EventTimes.to times) = true →
  isWord (default "private" (GogEvent.visibility event)) = true →
  isWord (default "busy" (GogEvent.transparency event)) = true →
  allChars isLiteral (default "Busy" (GogEvent.summary event)) = true →
  allChars isLiteral (default "" (GogEvent.description event)) = true →
  ∃ command,
    GogClient.createEventCommand config account calendarId event = Returns command
    ∧ splitCommand command
      = Returns
          ("gog",
           ["calendar"; "create"; calendarId; "--account"; account;
            "--summary"; default "Busy" (GogEvent.summary event);
            "--from"; EventTimes.from times; "--to"; EventTimes.to times;
            "--description"; default "" (GogEvent.description event);
            "--visibility"; default "private" (GogEvent.visibility event);
            "--transparency"; default "busy" (GogEvent.transparency event);
            "--send-updates"; "none"]
           ++ (if Str.isEmpty (EventTimes.allDayFlag times) then [] else ["--all-day"])
           ++ ["--json"]).
Proof.
  intros Hoverride Htimes [Ha Ha']%isWord_plain [Hc Hc']%isWord_plain
    [Hf Hf']%isWord_plain [Ht Ht']%isWord_plain [Hv Hv']%isWord_plain
    [Hp Hp']%isWord_plain Hs Hd.
  unfold GogClient.createEventCommand, GogClient.template.
  rewrite Htimes, Hoverride. cbn [andThen]. eexists. split; [reflexivity |].
  set (summary := default "Busy" (GogEvent.summary event)) in *.
  set (description := default "" (GogEvent.description event)) in *.
  set (visibility := default "private" (GogEvent.visibility event)) in *.
  set (transparency := default "busy" (GogEvent.transparency event)) in *.
  set (pieces :=
         [Plain "gog"; Plain "calendar"; Plain "create"; Plain calendarId;
          Plain "--account"; Plain account; Plain "--summary"; Quoted summary;
          Plain "--from"; Plain (EventTimes.from times);
          Plain "--to"; Plain (EventTimes.to times);
          Plain "--description"; Quoted description;
          Plain "--visibility"; Plain visibility;
          Plain "--transparency"; Plain transparency;
          Plain "--send-updates"; Plain "none";
          Plain (EventTimes.allDayFlag times); Plain "--json"]).
  change (applyTemplate _ _) with (joinWith " " (pieceText <$> pieces)).
  assert (EventTimes.allDayFlag times = "" ∨ EventTimes.allDayFlag times = "--all-day")
    as Hflag.
  { apply normalizeEventTimes_Returns in Htimes as [[? _] | [? _]]; auto. }
  apply splitCommand_join; [| | done].
  - unfold pieces. repeat (apply Forall_cons; split; [try done |]); [| constructor].
    cbn [pieceClean]. by destruct Hflag as [-> | ->].
  - unfold pieces. clear -Ha' Hc' Hf' Ht' Hv' Hp' Hflag.
    clearbody visibility transparency summary description.
    destruct times as [from to flag]. cbn [EventTimes.from EventTimes.to
      EventTimes.allDayFlag] in *.
    destruct account, calendarId, from, to, visibility, transparency; try discriminate.
    destruct Hflag as [-> | ->]; reflexivity.
Qed.

Lemma deleteEventCommand_argv (config : Config.t) (account calendarId eventId : string) :
  override config deleteEventCmd = None →
  isWord account = true → isWord calendarId = true → isWord eventId = true →
  ∃ command,
    GogClient.deleteEventCommand config account calendarId eventId = Returns command
    ∧ splitCommand command
      = Returns ("gog", ["calendar"; "delete"; calendarId; eventId;
                         "--account"; account; "--force"; "--json"]).
Proof.
  intros Hoverride [Ha Ha']%isWord_plain [Hc Hc']%isWord_plain [He He']%isWord_plain.
  unfold GogClient.deleteEventCommand, GogClient.template.
  rewrite Hoverride. cbn [andThen]. eexists. split; [reflexivity |].
  set (pieces :=
         [Plain "gog"; Plain "calendar"; Plain "delete"; Plain calendarId; Plain eventId;
          Plain "--account"; Plain account; Plain "--force"; Plain "--json"]).
  change (applyTemplate _ _) with (joinWith " " (pieceText <$> pieces)).
  apply splitCommand_join; [| | done].
  - unfold pieces. by repeat (apply Forall_cons; split; [try done |]).
  - unfold pieces. clear -Ha' Hc' He'.
    destruct account, calendarId, eventId; try discriminate. reflexivity.
Qed.

End CallFacts.

(** X24.  With the built-in template, [createEvent] runs the program
    [gog] with the arguments below, and fails exactly when that program
    does: the account, the calendar, the times, the visibility and the
    transparency as they are, the summary and the description as one
    argument each, whatever blanks they hold, and the flag [--all-day] for an
    all-day event only.  The words must hold no quote, no white space and no
    byte that starts a white space character of more than one byte, and the
    summary and the description no quote, no backslash and no control
    character. *)
Theorem createEvent_argv `{ObjectPrototype} (execFile : Processes) (config : Config.t)
    (n : nat) (account calendarId : string) (event : GogEvent.t) (times : EventTimes.t) :
  override config createEventCmd = None →
  normalizeEventTimes event = Returns times →
  isWord account = true → isWord calendarId = true →
  isWord (EventTimes.from times) = true → isWord (EventTimes.to times) = true →
  isWord (default "private" (GogEvent.visibility event)) = true →
  isWord (default "busy" (GogEvent.transparency event)) = true →
  allChars isLiteral (default "Busy" (GogEvent.summary event)) = true →
  allChars isLiteral (default "" (GogEvent.description event)) = true →
  GogClient.createEvent execFile config n account calendarId event
  = match execFile n "gog"
            (["calendar"; "create"; calendarId; "--account"; account;
              "--summary"; default "Busy" (GogEvent.summary event);
              "--from"; EventTimes.from times; "--to"; EventTimes.to times;
              "--description"; default "" (GogEvent.description event);
              "--visibility"; default "private" (GogEvent.visibility event);
              "--transparency"; default "busy" (GogEvent.transparency event);
              "--send-updates"; "none"]
             ++ (if Str.isEmpty (EventTimes.allDayFlag times) then [] else ["--all-day"])
             ++ ["--json"]) with
    | Some message => Throws (Failure message)
    | None => Returns tt
    end.
Proof.
  intros Hoverride Htimes Ha Hc Hf Ht Hv Hp Hs Hd.
  destruct (createEventCommand_argv config account calendarId event times)
    as (command & Hcommand & Hsplit); try done.
  unfold GogClient.createEvent. rewrite Hcommand. cbn [andThen].
  unfold runJson. by rewrite Hsplit.
Qed.

Lemma createEvent_argv_witness :
  @GogClient.createEvent nodePrototype (λ _ _ _, None) validConfig 0
    "target@example.com" "primary"
    (DesiredHold.event (desiredHoldFromSource "src@example.com" "primary" offsite
                          validConfig))
  = Returns tt.
Proof.
  apply (@createEvent_argv nodePrototype (λ _ _ _, None) validConfig 0
           "target@example.com" "primary"
           (DesiredHold.event (desiredHoldFromSource "src@example.com" "primary" offsite
                                 validConfig))
           (EventTimes.mk "2026-03-05" "2026-03-06" "--all-day")); reflexivity.
Defined.

(** X25.  With the built-in template, [deleteEvent] runs the program [gog]
    with the calendar, the event id and the account as single arguments, and
    always with [--force], and fails exactly when that program does. *)
Theorem deleteEvent_argv `{ObjectPrototype} (execFile : Processes) (config : Config.t)
    (n : nat) (account calendarId eventId : string) :
  override config deleteEventCmd = None →
  isWord account = true → isWord calendarId = true → isWord eventId = true →
  GogClient.deleteEvent execFile config n account calendarId eventId
  = match execFile n "gog" ["calendar"; "delete"; calendarId; eventId;
                            "--account"; account; "--force"; "--json"] with
    | Some message => Throws (Failure message)
    | None => Returns tt
    end.
Proof.
  intros Hoverride Ha Hc He.
  destruct (deleteEventCommand_argv config account calendarId eventId)
    as (command & Hcommand & Hsplit); try done.
  unfold GogClient.deleteEvent. rewrite Hcommand. cbn [andThen].
  unfold runJson. by rewrite Hsplit.
Qed.

Lemma deleteEvent_argv_witness :
  @GogClient.deleteEvent nodePrototype (λ _ _ _, Some "exit code 1") validConfig 0
    "target@example.com" "primary" "managed-stale"
  = Throws (Failure "exit code 1").
Proof.
  apply (@deleteEvent_argv nodePrototype (λ _ _ _, Some "exit code 1") validConfig 0
           "target@example.com" "primary" "managed-stale"); reflexivity.
Defined.

(** * The adoption of holds made by hand *)

Section BackfillFacts.

Lemma groupByRange_lookup (sourceEvents : list SourceEvent.t) (key : string) :
  ∀ m : gmap string (list SourceEvent.t),
  foldl groupByRange m sourceEvents !! key =
  match filter (λ src, rangeKey (SourceEvent.event src) = key) sourceEvents with
  | [] => m !! key
  | found => Some (default [] (m !! key) ++ found)
  end.
Proof.
  induction sourceEvents as [|src l IH]; intros m; simpl; [reflexivity |].
  rewrite IH, filter_cons. unfold groupByRange.
  destruct (decide (rangeKey (SourceEvent.event src) = key)) as [<- | Hne].
  - rewrite lookup_insert_eq. simpl.
    destruct (filter _ l); by rewrite <- ?app_assoc.
  - by rewrite lookup_insert_ne.
Qed.

Lemma sourceByRange_bucket (sourceEvents : list SourceEvent.t) (key : string) :
  default [] (foldl groupByRange ∅ sourceEvents !! key)
  = filter (λ src, rangeKey (SourceEvent.event src) = key) sourceEvents.
Proof.
  rewrite groupByRange_lookup, lookup_empty.
  by destruct (filter _ sourceEvents).
Qed.

Context `{RegExpEngine} `{ObjectPrototype}.
Context (listEvents : string → string → Outcome (list GogEvent.t)).
Context (execFile : Processes) (client : Config.t).

Lemma sourceEventsOfEvents_Returns (mapping : NormalMapping.t) (config : Config.t)
    (source : Source.t) (events : list GogEvent.t) (sourceEvents : list SourceEvent.t) :
  sourceEventsOfEvents mapping config source events = Returns sourceEvents →
  sourceEvents =
  SourceEvent.mk (Source.account source) (Source.calendarId source)
  <$> filter (λ event, taken mapping config event = Returns true) events.
Proof.
  revert sourceEvents. induction events as [|event events IH]; intros sourceEvents; simpl.
  { by intros [= <-]. }
  intros (keep & Hkeep & (rest & Hrest & [= <-])%andThen_Returns)%andThen_Returns.
  rewrite filter_cons, (IH rest Hrest), Hkeep.
  by destruct keep.
Qed.

Lemma sourceEventsOfSources_Returns (mapping : NormalMapping.t) (config : Config.t)
    (sources : list Source.t) (sourceEvents : list SourceEvent.t) (src : SourceEvent.t) :
  sourceEventsOfSources listEvents mapping config sources = Returns sourceEvents →
  src ∈ sourceEvents ↔
  ∃ source events,
    source ∈ sources
    ∧ listEvents (Source.account source) (Source.calendarId source) = Returns events
    ∧ SourceEvent.event src ∈ events
    ∧ taken mapping config (SourceEvent.event src) = Returns true
    ∧ SourceEvent.account src = Source.account source
    ∧ SourceEvent.calendarId src = Source.calendarId source.
Proof.
  revert sourceEvents. induction sources as [|source sources IH]; intros sourceEvents; simpl.
  { intros [= <-]. split; [by intros ?%elem_of_nil |].
    by intros (? & ? & ?%elem_of_nil & _). }
  intros (events & Hlist & (first & Hfirst & (later & Hlater & [= <-])%andThen_Returns)
            %andThen_Returns)%andThen_Returns.
  apply sourceEventsOfEvents_Returns in Hfirst as ->.
  rewrite elem_of_app, (IH later Hlater), list_elem_of_fmap. split.
  - intros [(event & -> & [Htaken Hin]%list_elem_of_filter)
           | (s & es & Hs & Hes & He & Ht & Ha & Hc)].
    + exists source, events. repeat split; try done. left.
    + exists s, es. repeat split; try done. by right.
  - intros (s & es & [-> | Hs]%elem_of_cons & Hes & He & Ht & Ha & Hc).
    + left. rewrite Hlist in Hes. injection Hes as <-.
      exists (SourceEvent.event src). split; [by destruct src; simpl in *; subst |].
      by apply list_elem_of_filter.
    + right. exists s, es. done.
Qed.

Lemma adoptable_true (config : Config.t) (target : GogEvent.t) :
  adoptable config target = Returns true →
  isManaged target = false
  ∧ default "" (GogEvent.summary target) = holdSummary config
  ∧ excludedBySafety target config = Returns false
  ∧ default "default" (GogEvent.visibility target) = "private"
  ∧ default "opaque" (GogEvent.transparency target) = "busy"
  ∧ (∀ overrides, GogEvent.reminders target ≫= Reminders.overrides = Some overrides →
       overrides = []).
Proof.
  unfold adoptable. destruct (isManaged target); [done |].
  destruct (String.eqb_spec (default "" (GogEvent.summary target)) (holdSummary config))
    as [Hs | Hs]; [| done]. simpl.
  intros ([] & Hx & Hrest)%andThen_Returns; [done |].
  destruct (String.eqb_spec (default "default" (GogEvent.visibility target)) "private")
    as [Hv | Hv]; [| done].
  destruct (String.eqb_spec (default "opaque" (GogEvent.transparency target)) "busy")
    as [Ht | Ht]; [| done]. simpl in Hrest.
  repeat split; try done.
  intros overrides Ho. rewrite Ho in Hrest. by destruct overrides.
Qed.

(** The loop over the target events: the calls are the adoptions, in
    order. *)
Lemma backfill_fold (mapping : NormalMapping.t) (config : Config.t) (dryRun : bool)
    (sourceByRange : gmap string (list SourceEvent.t)) (targets : list GogEvent.t) :
  ∀ updated calls updated' calls',
  foldl (backfillTarget execFile client mapping config dryRun sourceByRange)
    (Returns (updated, calls)) targets = Returns (updated', calls') →
  ∃ adoptions,
    Forall2 (λ target call, adoption mapping config sourceByRange target = Returns call)
      targets adoptions
    ∧ updated' = (updated + length (omap id adoptions))%nat
    ∧ calls' = calls ++ (if dryRun then [] else omap id adoptions).
Proof.
  induction targets as [|target targets IH]; intros updated calls updated' calls'; simpl.
  { intros [= <- <-]. exists []. split; [constructor |].
    split; [simpl; lia | by destruct dryRun; rewrite app_nil_r]. }
  destruct (adoption mapping config sourceByRange target) as [call|e] eqn:Hcall; simpl.
  2:{ intros Hfold. exfalso. revert Hfold.
      unfold backfillTarget. by rewrite foldl_Throws. }
  destruct call as [call|].
  - destruct dryRun.
    + intros (adoptions & Hall & -> & ->)%IH.
      exists (Some call :: adoptions). split; [by constructor |].
      change (omap id (Some call :: adoptions)) with (call :: omap id adoptions).
      split; [simpl; lia | done].
    + destruct (send execFile client (length calls) call) as [[]|e]; simpl.
      2:{ intros Hfold. exfalso. revert Hfold.
          unfold backfillTarget. by rewrite foldl_Throws. }
      intros (adoptions & Hall & -> & ->)%IH.
      exists (Some call :: adoptions). split; [by constructor |].
      change (omap id (Some call :: adoptions)) with (call :: omap id adoptions).
      split; [simpl; lia | by rewrite <- app_assoc].
  - intros (adoptions & Hall & -> & ->)%IH.
    exists (None :: adoptions). split; [by constructor |]. done.
Qed.

End BackfillFacts.

(** X26.  [backfill] only adopts: every update it issues is for a target
    event that is not managed yet and has the summary of a hold, and for the
    one event taken from the source calendars that has the same start and end;
    a target event with two such source events is left alone.  The
    update keeps the id, the summary and the times of the target event and
    writes the tag of that source event, under the key of the hold that
    [desiredHoldFromSource] builds for it: the next reconcile run finds the
    event as the hold of the source event.  A dry run issues no update. *)
Theorem backfill_adopts `{RegExpEngine} `{ObjectPrototype}
    (listEvents : string → string → Outcome (list GogEvent.t))
    (execFile : Processes) (client : Config.t)
    (mapping : NormalMapping.t) (config : Config.t) (dryRun : bool)
    (updated : nat) (calls : list BackendCall) :
  backfill listEvents execFile client mapping config dryRun = Returns (updated, calls) →
  length calls = (if dryRun then 0%nat else updated)
  ∧ ∀ call, call ∈ calls →
      ∃ targetEvents target source events event,
        listEvents (NormalMapping.targetAccount mapping)
          (NormalMapping.targetCalendarId mapping) = Returns targetEvents
        ∧ target ∈ targetEvents
        ∧ isManaged target = false
        ∧ default "" (GogEvent.summary target) = holdSummary config
        ∧ source ∈ NormalMapping.sources mapping
        ∧ listEvents (Source.account source) (Source.calendarId source) = Returns events
        ∧ event ∈ events
        ∧ taken mapping config event = Returns true
        ∧ rangeKey event = rangeKey target
        ∧ call
          = UpdateEvent (NormalMapping.targetAccount mapping)
              (NormalMapping.targetCalendarId mapping) (GogEvent.id target)
              (adopted target
                 (DesiredHold.source
                    (desiredHoldFromSource (Source.account source)
                       (Source.calendarId source) event config)))
        ∧ eventKey
            (adopted target
               (DesiredHold.source
                  (desiredHoldFromSource (Source.account source)
                     (Source.calendarId source) event config)))
          = Some (holdKey
                    (DesiredHold.source
                       (desiredHoldFromSource (Source.account source)
                          (Source.calendarId source) event config)))
        ∧ (∀ source' events' event',
             source' ∈ NormalMapping.sources mapping →
             listEvents (Source.account source') (Source.calendarId source')
             = Returns events' →
             event' ∈ events' →
             taken mapping config event' = Returns true →
             rangeKey event' = rangeKey target →
             SourceEvent.mk (Source.account source') (Source.calendarId source') event'
             = SourceEvent.mk (Source.account source) (Source.calendarId source) event).
Proof.
  unfold backfill.
  intros (sourceEvents & Hsources & (targetEvents & Htargets & Hfold)%andThen_Returns)
    %andThen_Returns.
  apply backfill_fold in Hfold as (adoptions & Hall & -> & ->). simpl. split.
  - by destruct dryRun.
  - intros call Hcall. destruct dryRun; [by apply elem_of_nil in Hcall |].
    apply list_elem_of_omap in Hcall as (adoption' & Hin & Hsome).
    simpl in Hsome. subst adoption'.
    apply list_elem_of_lookup in Hin as [i Hi].
    destruct (Forall2_lookup_r _ _ _ _ _ Hall Hi) as (target & Htarget & Hadopt).
    apply list_elem_of_lookup_2 in Htarget.
    unfold adoption in Hadopt.
    apply andThen_Returns in Hadopt as (ok & Hok & Hadopt).
    destruct ok; simpl in Hadopt; [| done].
    apply adoptable_true in Hok as (Hmanaged & Hsummary & _).
    rewrite sourceByRange_bucket in Hadopt.
    destruct (filter _ sourceEvents) as [|candidate [|]] eqn:Hbucket; try done.
    injection Hadopt as <-.
    assert (candidate ∈ filter (λ src, rangeKey (SourceEvent.event src) = rangeKey target)
                          sourceEvents) as [Hkey Hcandidate]%list_elem_of_filter
      by (rewrite Hbucket; left).
    apply (sourceEventsOfSources_Returns _ _ _ _ _ candidate Hsources) in Hcandidate
      as (source & events & Hsource & Hevents & Hevent & Htaken & Haccount & Hcalendar).
    exists targetEvents, target, source, events, (SourceEvent.event candidate).
    rewrite <- Haccount, <- Hcalendar.
    refine (conj Htargets (conj Htarget (conj Hmanaged (conj Hsummary (conj Hsource
              (conj _ (conj Hevent (conj Htaken (conj Hkey (conj eq_refl (conj _ _))))))))))).
    + by rewrite Haccount, Hcalendar.
    + unfold eventKey, adopted. cbn [GogEvent.description].
      by rewrite decode_encodeSourceRef.
    + intros source' events' event' Hsource' Hevents' Hevent' Htaken' Hkey'.
      assert (SourceEvent.mk (Source.account source') (Source.calendarId source') event'
              ∈ filter (λ src, rangeKey (SourceEvent.event src) = rangeKey target)
                  sourceEvents) as Hin.
      { apply list_elem_of_filter. split; [done |].
        apply (sourceEventsOfSources_Returns _ _ _ _ _ _ Hsources).
        exists source', events'. done. }
      rewrite Hbucket in Hin. apply list_elem_of_singleton in Hin as ->.
      by destruct candidate.
Qed.

Lemma backfill_adopts_witness :
  length [UpdateEvent "target@example.com" "primary" "legacy-1"
            (adopted legacyHold (sourceRefOf "src@example.com" "primary" planning))]
  = 1%nat.
Proof.
  refine (proj1 (@backfill_adopts anchoredEngine nodePrototype calendars (λ _ _ _, None)
                   validConfig (normalizeMapping m1) validConfig false 1 _ _)).
  by vm_compute.
Defined.

(** * The tests of config.test.ts, on the embedding *)

Example test_accepts_baseline : @validateConfig anchoredEngine validConfig = [].
Proof. reflexivity. Qed.

Example test_rejects_invalid_regex :
  @validateConfig anchoredEngine
    (withSafety (Safety.mk (Some true) (Some 10) (Some ["(invalid"]) (Some ["MANUAL:"]))
       validConfig)
  = ["safety.excludeIfSummaryMatches[0] is invalid regex: Invalid regular expression: /(invalid/"].
Proof. reflexivity. Qed.

Example test_rejects_fast_watch :
  @validateConfig anchoredEngine
    (withScheduling (Scheduling.mk None None None (Some 3)) validConfig)
  = ["scheduling.watchIntervalSeconds must be >= 5"].
Proof. reflexivity. Qed.

Example test_rejects_override :
  @validateConfig anchoredEngine
    (withGog (Gog.mk None (Some "gog calendar events list --json") None None None)
       validConfig)
  = ["gog.listEventsCmd requires gog.allowCustomCommands=true"].
Proof. reflexivity. Qed.

Example test_rejects_other_program :
  @validateConfig anchoredEngine
    (withGog (Gog.mk (Some true) (Some "curl https://example.com") None None None)
       validConfig)
  = ["gog.listEventsCmd must start with 'gog '"].
Proof. reflexivity. Qed.

Example test_command_guard :
  @GogClient.listEventsCommand nodePrototype
    (withGog (Gog.mk None (Some "gog calendar events list --json") None None None)
       validConfig)
    "a@example.com" "primary" "2026-01-01T00:00:00.000Z" "2026-01-02T00:00:00.000Z"
  = Throws (Failure "gog.listEventsCmd override requires gog.allowCustomCommands=true").
Proof. reflexivity. Qed.

Example test_backfill_adopts_legacy_hold :
  @backfill anchoredEngine nodePrototype calendars (λ _ _ _, None) validConfig
    (normalizeMapping m1) validConfig false
  = Returns (1%nat,
             [UpdateEvent "target@example.com" "primary" "legacy-1"
                (adopted legacyHold (sourceRefOf "src@example.com" "primary" planning))]).
Proof. by vm_compute. Qed.

(** * Further examples *)

Example test_accepts_accented_pattern :
  utf16Length accentedPattern = 301%nat
  ∧ String.length accentedPattern = 601%nat
  ∧ @validateConfig anchoredEngine
      (withSafety (Safety.mk (Some true) (Some 10) (Some [accentedPattern]) None)
         validConfig)
    = [].
Proof. by vm_compute. Qed.

Example test_inherited_placeholder :
  @applyTemplate nodePrototype "gog {constructor} {toString} {missing}" []
  = "gog function Object() { [native code] } function toString() { [native code] } ".
Proof. reflexivity. Qed.

Example test_splits_at_no_break_space :
  splitCommand ("gog my" +:+ noBreakSpace +:+ "cal")
  = Returns ("gog", ["my"; "cal"]).
Proof. reflexivity. Qed.

Example test_create_needs_a_range :
  @executePlan nodePrototype (λ _ _ _, None) codeUnitHost validConfig overlapping
    validConfig false [rangeless] []
  = Throws (Failure "Event hold-fresh is missing supported start/end fields")
  ∧ @executePlan nodePrototype (λ _ _ _, None) codeUnitHost validConfig overlapping
      validConfig true [rangeless] []
    = Returns (Report.mk (Counters.mk 1 0 0 0) false, []).
Proof. split; by vm_compute. Qed.

Example test_failed_call_ends_the_run :
  @executePlan nodePrototype
    (λ n _ _, if (n =? 1)%nat then Some "Command failed: gog" else None)
    codeUnitHost validConfig overlapping validConfig false
    [desiredHold fresh; desiredHold stale; desiredHold drifted] []
  = Throws (Failure "Command failed: gog").
Proof. by vm_compute. Qed.

(** * The counters of a plan and the policy of a run *)

Section CountFacts.

Lemma length_subjects (actions : list ReconcileAction) :
  length (subjects actions) = (countIf isUpdate actions + countIf isDelete actions)%nat.
Proof.
  unfold subjects, countIf. induction actions as [|a actions IH]; [done |].
  destruct a; rewrite !filter_cons; simpl;
    change (list_omap _ _ subject actions) with (omap subject actions); rewrite IH; lia.
Qed.

Lemma length_plannedKeys (actions : list ReconcileAction) :
  length (plannedKeys actions)
  = (countIf isCreate actions + countIf isUpdate actions + countIf isSkip actions)%nat.
Proof.
  unfold plannedKeys, countIf. rewrite length_fmap.
  induction actions as [|a actions IH]; [done |].
  destruct a; rewrite !filter_cons; simpl;
    change (list_omap _ _ planned actions) with (omap planned actions); rewrite IH; lia.
Qed.

Context `{Host}.

Lemma length_desired_keys (desiredHolds : list DesiredHold.t) :
  (length (sortedKeys (desiredIndex desiredHolds)) <= length desiredHolds)%nat.
Proof.
  rewrite <- (length_fmap (λ d, holdKey (DesiredHold.source d)) desiredHolds).
  apply submseteq_length, NoDup_submseteq; [apply NoDup_sortedKeys |].
  intros key [d Hd]%elem_of_sortedKeys. rewrite desiredIndex_lookup in Hd.
  apply desiredFor_Some in Hd as [Hin <-]. apply list_elem_of_fmap. eauto.
Qed.

End CountFacts.

(** X27.  The two counters of a plan bound its actions: the desired count
    is the number of desired holds and bounds the creates, updates and skips
    together; the managed count is the number of target events that decode
    and bounds the updates and deletes together. *)
Theorem plan_counts `{Host} (desiredHolds : list DesiredHold.t)
    (targetEvents : list GogEvent.t) (overlapPolicy : OverlapPolicy)
    (maxChangesPerRun : Z) (plan : ReconcilePlan.t) :
  planReconcile desiredHolds targetEvents overlapPolicy maxChangesPerRun = Ok plan →
  ReconcilePlan.desiredCount plan = length desiredHolds
  ∧ ReconcilePlan.existingManagedCount plan
    = length (filter (λ e, isManaged e = true) targetEvents)
  ∧ (countIf isCreate (ReconcilePlan.actions plan)
     + countIf isUpdate (ReconcilePlan.actions plan)
     + countIf isSkip (ReconcilePlan.actions plan)
     <= ReconcilePlan.desiredCount plan)%nat
  ∧ (countIf isUpdate (ReconcilePlan.actions plan)
     + countIf isDelete (ReconcilePlan.actions plan)
     <= ReconcilePlan.existingManagedCount plan)%nat.
Proof.
  intros Hplan. pose proof (plan_subjects _ _ _ _ _ Hplan) as Hsubjects.
  apply submseteq_length in Hsubjects. rewrite length_subjects in Hsubjects.
  revert Hplan Hsubjects.
  rewrite planReconcile_wanted. intros (wanted & Hwanted & [= <-])%bind_Ok. simpl.
  destruct (run_kept maxChangesPerRun wanted PlanState.initial) as (kept & -> & Hsub & _).
  simpl. intros Hsubjects. split; [done |]. split; [done |]. split; [| done].
  rewrite <- length_plannedKeys.
  etrans; [| apply length_desired_keys].
  apply sublist_length. etrans; [by apply plannedKeys_sublist |].
  by eapply wanted_plannedKeys.
Qed.

Lemma plan_counts_witness :
  (countIf isUpdate [create (desiredHold fresh); delete managedStale]
   + countIf isDelete [create (desiredHold fresh); delete managedStale] <= 1)%nat.
Proof.
  refine (proj2 (proj2 (proj2 (@plan_counts codeUnitHost [desiredHold fresh]
            [managedStale; lunchA] allow 10
            (ReconcilePlan.mk [create (desiredHold fresh); delete managedStale] 1 1 false)
            _)))).
  by vm_compute.
Defined.


(** * The budget and the mutations required to converge *)

Section RequiredFacts.

Lemma mutations_deletes (events : list GogEvent.t) :
  mutations (map delete events) = length events.
Proof. unfold mutations. by rewrite filter_deletes_mutations, length_map. Qed.

Lemma find_blocked {A} (p : A → Result bool) (l : list A) (r : option A) :
  JsArray.find p l = Ok r →
  existsb (λ x, match p x with Ok true => true | _ => false end) l
  = bool_decide (is_Some r).
Proof.
  destruct r as [x|]; intros Hfind.
  - apply find_hit in Hfind as [Hx Hp].
    rewrite bool_decide_true by eauto. apply existsb_exists.
    exists x. split; [by apply list_elem_of_In | by rewrite Hp].
  - rewrite bool_decide_false by by intros [].
    apply not_true_is_false. intros (x & Hx%list_elem_of_In & Hp)%existsb_exists.
    by rewrite (find_None _ _ Hfind x Hx) in Hp.
Qed.

Lemma filter_all {A} (P : A → Prop) `{∀ x, Decision (P x)} (l : list A) :
  (∀ x, x ∈ l → P x) → filter P l = l.
Proof.
  induction l as [|x l IH]; intros Hall; [done |].
  rewrite filter_cons_True by (apply Hall; left). f_equal.
  apply IH. intros y Hy. apply Hall. by right.
Qed.

Lemma filter_none {A} (P : A → Prop) `{∀ x, Decision (P x)} (l : list A) :
  (∀ x, x ∈ l → ¬ P x) → filter P l = [].
Proof.
  induction l as [|x l IH]; intros Hall; [done |].
  rewrite filter_cons_False by (apply Hall; left).
  apply IH. intros y Hy. apply Hall. by right.
Qed.

Context `{Host}.
Context (desiredHolds : list DesiredHold.t) (targetEvents : list GogEvent.t)
        (overlapPolicy : OverlapPolicy).

#[local] Abbreviation managed := (filter (λ e, isManaged e = true) targetEvents).
#[local] Abbreviation unmanaged := (filter (λ e, isManaged e ≠ true) targetEvents).
#[local] Abbreviation M := (managedIndex managed).
#[local] Abbreviation D := (desiredIndex desiredHolds).

(** The turn of a desired key wants as many mutations as the key
    requires. *)
Lemma desiredKeyWanted_required (key : string) (w : list ReconcileAction) :
  desiredKeyWanted unmanaged M D overlapPolicy key = Ok w →
  mutations w = requiredForKey desiredHolds targetEvents overlapPolicy key.
Proof.
  unfold desiredKeyWanted, requiredForKey, managedUnder.
  rewrite desiredIndex_lookup, managedIndex_bucket.
  destruct (desiredFor key desiredHolds) as [desired|]; [| by intros [= <-]].
  destruct (filter (hasKey key) _) as [|primary duplicates].
  - intros (r & Hr & Hw)%bind_Ok. destruct overlapPolicy.
    + unfold blocked. rewrite (find_blocked _ _ _ Hr).
      by destruct r; injection Hw as <-.
    + injection Hr as <-. by injection Hw as <-.
  - intros [= <-]. rewrite mutations_app, mutations_deletes.
    by destruct (isEquivalent _ _).
Qed.

Lemma collect_required (keys : list string) (first : list ReconcileAction) :
  collect (desiredKeyWanted unmanaged M D overlapPolicy) keys = Ok first →
  mutations first
  = sum_list_with (requiredForKey desiredHolds targetEvents overlapPolicy) keys.
Proof.
  revert first. induction keys as [|key keys IH]; intros first; simpl.
  { by intros [= <-]. }
  intros (w & Hw & (rest & Hrest & [= <-])%bind_Ok)%bind_Ok.
  by rewrite mutations_app, (desiredKeyWanted_required _ _ Hw), (IH _ Hrest).
Qed.

Lemma desiredFor_is_Some (key : string) :
  is_Some (desiredFor key desiredHolds)
  ↔ key ∈ (λ d, holdKey (DesiredHold.source d)) <$> desiredHolds.
Proof.
  rewrite list_elem_of_fmap. split.
  - intros [d [Hd Hkey]%desiredFor_Some]. eauto.
  - intros (d & -> & Hd). unfold desiredFor.
    destruct (last _) eqn:Hlast; [eauto |]. apply last_None in Hlast.
    assert (d ∈ filter (λ d', holdKey (DesiredHold.source d')
                              = holdKey (DesiredHold.source d)) desiredHolds) as Hin
      by by apply list_elem_of_filter.
    rewrite Hlast in Hin. by apply elem_of_nil in Hin.
Qed.

Lemma sortedKeys_desiredKeys : sortedKeys D ≡ₚ desiredKeys desiredHolds.
Proof.
  apply NoDup_Permutation; [apply NoDup_sortedKeys | apply NoDup_remove_dups |].
  intros key. unfold desiredKeys.
  by rewrite elem_of_sortedKeys, desiredIndex_lookup, elem_of_remove_dups,
    desiredFor_is_Some.
Qed.

(** The stale deletes are the managed events of the keys that are not
    desired. *)
Lemma managedKeyWanted_stale (keys : list string) :
  mutations (concat (map (managedKeyWanted M D) keys))
  = length (filter (λ e, isStale desiredHolds e = true)
              (concat (map (λ key, default [] (M !! key)) keys))).
Proof.
  induction keys as [|key keys IH]; [done |]. simpl.
  rewrite mutations_app, filter_app, length_app, IH. f_equal.
  unfold managedKeyWanted. rewrite desiredIndex_lookup.
  assert (Hkeyed : ∀ e, e ∈ default [] (M !! key) → eventKey e = Some key)
    by (intros e; apply bucket_hasKey).
  destruct (desiredFor key desiredHolds) as [desired|] eqn:Hfor.
  - change (mutations []) with 0%nat.
    rewrite (filter_none (λ e, isStale desiredHolds e = true)); [done |].
    intros e He. unfold isStale. rewrite (Hkeyed e He), Hfor.
    by rewrite bool_decide_false.
  - rewrite mutations_deletes, (filter_all (λ e, isStale desiredHolds e = true)); [done |].
    intros e He. unfold isStale. rewrite (Hkeyed e He), Hfor.
    by rewrite bool_decide_true.
Qed.

Lemma stale_managed :
  filter (λ e, isStale desiredHolds e = true) managed
  = filter (λ e, isStale desiredHolds e = true) targetEvents.
Proof.
  rewrite list_filter_filter. apply list_filter_iff. intros e. split; [tauto |].
  intros He. split; [done |]. apply isManaged_eventKey.
  unfold isStale in He. destruct (eventKey e); [eauto | done].
Qed.

(** The wanted actions hold as many mutations as the inputs require. *)
Lemma wanted_required (wanted : list ReconcileAction) :
  wantedActions desiredHolds targetEvents overlapPolicy = Ok wanted →
  mutations wanted = requiredMutations desiredHolds targetEvents overlapPolicy.
Proof.
  rewrite wantedActions_eq. cbn zeta.
  intros (first & Hfirst & [= <-])%bind_Ok.
  rewrite mutations_app, (collect_required _ _ Hfirst), managedKeyWanted_stale.
  unfold requiredMutations. f_equal.
  - by rewrite sortedKeys_desiredKeys.
  - rewrite <- stale_managed. apply Permutation_length, filter_Permutation.
    apply stale_buckets.
Qed.

End RequiredFacts.

(** C3.  With a budget [N] of at least one, the plan holds at most [N]
    creates, updates and deletes.  When the inputs require more than [N]
    mutations, exactly [N] are emitted and the plan is capped; when they
    require at most [N], all of them are emitted and the plan is not capped.
    The skips take no part in this: whatever [N] is, the plan is a part of the
    plan that an ample budget gives, with all of its skips. *)
Theorem budget_enforcement `{Host} (desiredHolds : list DesiredHold.t)
    (targetEvents : list GogEvent.t) (overlapPolicy : OverlapPolicy) (N : Z)
    (plan : ReconcilePlan.t) :
  1 <= N →
  planReconcile desiredHolds targetEvents overlapPolicy N = Ok plan →
  Z.of_nat (mutations (ReconcilePlan.actions plan)) <= N
  ∧ (N < Z.of_nat (requiredMutations desiredHolds targetEvents overlapPolicy) →
     Z.of_nat (mutations (ReconcilePlan.actions plan)) = N
     ∧ ReconcilePlan.capped plan = true)
  ∧ (Z.of_nat (requiredMutations desiredHolds targetEvents overlapPolicy) <= N →
     mutations (ReconcilePlan.actions plan)
     = requiredMutations desiredHolds targetEvents overlapPolicy
     ∧ ReconcilePlan.capped plan = false)
  ∧ ∃ wanted,
      mutations wanted = requiredMutations desiredHolds targetEvents overlapPolicy
      ∧ (∀ M, Z.of_nat (mutations wanted) <= M →
           planReconcile desiredHolds targetEvents overlapPolicy M =
           Ok (ReconcilePlan.mk wanted (ReconcilePlan.desiredCount plan)
                 (ReconcilePlan.existingManagedCount plan) false))
      ∧ sublist (ReconcilePlan.actions plan) wanted
      ∧ filter (λ a, isMutation a = false) (ReconcilePlan.actions plan) =
        filter (λ a, isMutation a = false) wanted
      ∧ (Z.of_nat (mutations wanted) <= N → ReconcilePlan.actions plan = wanted).
Proof.
  intros HN Hplan. rewrite planReconcile_wanted in Hplan.
  apply bind_Ok in Hplan as (wanted & Hwanted & Hplan). injection Hplan as <-.
  cbn [ReconcilePlan.actions ReconcilePlan.capped
    ReconcilePlan.desiredCount ReconcilePlan.existingManagedCount].
  rewrite <- (wanted_required _ _ _ _ Hwanted).
  destruct (run_kept N wanted PlanState.initial) as (kept & Hact & Hsub & Hrep & Hch).
  pose proof (run_within N wanted PlanState.initial) as Hwithin.
  simpl in Hact, Hch, Hwithin. rewrite Hact.
  split; [lia |]. split; [| split].
  - intros Hlt. destruct (run_exceeds N wanted PlanState.initial) as [Hc1 Hc2];
      simpl; [lia .. |]. split; [lia | done].
  - intros Hle. rewrite <- Hact. by rewrite run_fits by (simpl; lia).
  - exists wanted. split; [done |]. split; [| split; [done |]; split; [done |]].
    + intros M HM. rewrite planReconcile_wanted, Hwanted. simpl.
      by rewrite run_fits by (simpl; lia).
    + intros Hle. rewrite <- Hact. by rewrite run_fits by (simpl; lia).
Qed.

Lemma budget_enforcement_witness :
  Z.of_nat
    (mutations
       (ReconcilePlan.actions (ReconcilePlan.mk [create (desiredHold fresh)] 1 1 true)))
  = 1
  ∧ ReconcilePlan.capped (ReconcilePlan.mk [create (desiredHold fresh)] 1 1 true) = true.
Proof.
  refine (proj1 (proj2 (@budget_enforcement codeUnitHost [desiredHold fresh] [managedStale]
                          allow 1
                          (ReconcilePlan.mk [create (desiredHold fresh)] 1 1 true) _ _)) _).
  - lia.
  - by vm_compute.
  - by vm_compute.
Defined.
(** * What of the plan does not depend on the order of the inputs *)

(** X29.  The desired holds of one key are identical, and the id order
    tells the managed target events apart.  Then for every permutation of the
    desired holds and of the target events: under the policy [allow] the
    result is the same; so it is when the unmanaged events keep their
    relative order; and two plans that are returned are the same except for
    the blocking event ids of their skips, each of which is the id of the
    first unmanaged target event, in the order of the input, that overlaps
    the desired event. *)
Theorem order_independence `{Host} `{!Consistent localeCompare}
    (desiredHolds desiredHolds' : list DesiredHold.t)
    (targetEvents targetEvents' : list GogEvent.t)
    (overlapPolicy : OverlapPolicy) (maxChangesPerRun : Z) :
  (∀ d d', d ∈ desiredHolds → d' ∈ desiredHolds →
     holdKey (DesiredHold.source d) = holdKey (DesiredHold.source d') → d = d') →
  (∀ a b, a ∈ targetEvents → b ∈ targetEvents →
     isManaged a = true → isManaged b = true →
     localeCompare (GogEvent.id a) (GogEvent.id b) <= 0 →
     localeCompare (GogEvent.id b) (GogEvent.id a) <= 0 → a = b) →
  desiredHolds ≡ₚ desiredHolds' →
  targetEvents ≡ₚ targetEvents' →
  (overlapPolicy = allow
   ∨ filter (λ e, isManaged e ≠ true) targetEvents
     = filter (λ e, isManaged e ≠ true) targetEvents' →
   planReconcile desiredHolds targetEvents overlapPolicy maxChangesPerRun =
   planReconcile desiredHolds' targetEvents' overlapPolicy maxChangesPerRun)
  ∧ (∀ plan plan',
       planReconcile desiredHolds targetEvents overlapPolicy maxChangesPerRun = Ok plan →
       planReconcile desiredHolds' targetEvents' overlapPolicy maxChangesPerRun = Ok plan' →
       eraseBlockers plan = eraseBlockers plan')
  ∧ (∀ plan desired blockingEventId,
       planReconcile desiredHolds targetEvents overlapPolicy maxChangesPerRun = Ok plan →
       skip_overlap desired blockingEventId ∈ ReconcilePlan.actions plan →
       ∃ blocker,
         JsArray.find (λ candidate, isOverlap candidate (DesiredHold.event desired))
           (filter (λ e, isManaged e ≠ true) targetEvents) = Ok (Some blocker)
         ∧ GogEvent.id blocker = blockingEventId).
Proof.
  intros Hkeys Hids Hd Ht.
  pose proof (desiredIndex_Permutation _ _ Hkeys Hd) as HD.
  pose proof (managedIndex_Permutation _ _ Hids Ht) as HM.
  assert (Hlen : length desiredHolds = length desiredHolds') by by rewrite Hd.
  assert (Hlen' : length (filter (λ e, isManaged e = true) targetEvents) =
                  length (filter (λ e, isManaged e = true) targetEvents')) by by rewrite Ht.
  split; [| split].
  - intros Hcase. rewrite !planReconcile_wanted, !wantedActions_eq. cbn zeta.
    rewrite <- HD, <- HM, <- Hlen, <- Hlen'.
    destruct Hcase as [-> | ->]; [| done].
    by rewrite (collect_ext _ _ _ (desiredKeyWanted_allow _
                 (filter (λ e, isManaged e ≠ true) targetEvents') _ _)).
  - intros plan plan'. rewrite !planReconcile_wanted, !wantedActions_eq. cbn zeta.
    rewrite <- HD, <- HM, <- Hlen, <- Hlen'.
    intros (w & (first & Hfirst & [= <-])%bind_Ok & [= <-])%bind_Ok
           (w' & (first' & Hfirst' & [= <-])%bind_Ok & [= <-])%bind_Ok.
    assert (Hw : eraseBlocker <$> first = eraseBlocker <$> first').
    { eapply collect_erase; [| exact Hfirst | exact Hfirst'].
      intros key v v' _. apply desiredKeyWanted_erase. by rewrite Ht. }
    unfold eraseBlockers. simpl.
    pose proof (run_erase maxChangesPerRun
      (first ++ concat (map (managedKeyWanted
         (managedIndex (filter (λ e, isManaged e = true) targetEvents))
         (desiredIndex desiredHolds))
         (sortedKeys (managedIndex (filter (λ e, isManaged e = true) targetEvents)))))
      PlanState.initial) as E1.
    pose proof (run_erase maxChangesPerRun
      (first' ++ concat (map (managedKeyWanted
         (managedIndex (filter (λ e, isManaged e = true) targetEvents))
         (desiredIndex desiredHolds))
         (sortedKeys (managedIndex (filter (λ e, isManaged e = true) targetEvents)))))
      PlanState.initial) as E2.
    rewrite !fmap_app, Hw in E1. rewrite !fmap_app in E2. rewrite E2 in E1.
    cbn zeta in E1. injection E1 as Ha Hc Hcap. by rewrite Ha, Hcap.
  - intros plan desired blockingEventId. apply plan_blocker.
Qed.

Lemma order_independence_witness :
  @planReconcile codeUnitHost [desiredHold fresh] [managedStale; lunchA] skip 10 =
  @planReconcile codeUnitHost [desiredHold fresh] [lunchA; managedStale] skip 10.
Proof.
  refine (proj1 (@order_independence codeUnitHost codeUnitHost_consistent
            [desiredHold fresh] [desiredHold fresh]
            [managedStale; lunchA] [lunchA; managedStale] skip 10 _ _ _ _) _).
  - by intros d d' ->%list_elem_of_singleton ->%list_elem_of_singleton.
  - intros a b Ha Hb _ _ Hab Hba.
    pose proof (codeUnitCompare_antisym _ _ Hab Hba) as Hid.
    rewrite !elem_of_cons, elem_of_nil in Ha, Hb.
    destruct Ha as [->|[->|[]]], Hb as [->|[->|[]]];
      (reflexivity || discriminate Hid).
  - reflexivity.
  - apply Permutation_swap.
  - right. by vm_compute.
Defined.
